(** * ts-smilesParser: a shallow embedding of the SMILES parser and of the
      molecule graph algorithms (src/classes/SMILES.ts, src/classes/Molecule.ts)

    Conventions of the embedding.

    - JavaScript objects used as maps from group IDs ([Molecule.groups],
      [ParsedSMILES.groupMap], [ParsedSMILES.openRings]) are association lists
      kept in ascending key order: [for (k in obj)] visits integer-like keys in
      ascending numeric order, and the order is observable (bond indexes of
      [pathfind], traversal order of [generateSMILES]).
    - [Group] and [Ring] objects are shared between several containers and are
      mutated in place.  Every [Group] lives in exactly one molecule's [groups]
      map; the chain arrays and [groupMap] hold its ID and every update goes
      through the owning molecule.  Every [Ring] lives in [ParsedSMILES.rings];
      [openRings] and [Molecule.rings] hold its ID.
    - Bond-count weights are multiples of one half ([":"] weighs 1.5); they are
      counted in half units, so a valence [n] is compared as [2 * n].
    - A thrown exception is the [Err] case of [Result]. *)

From Stdlib Require Import ZArith Lia String Ascii List Bool.
From Stdlib Require Import Sorting.Sorted Permutation.
From stdpp Require Import base option list gmap strings sorting pretty.

Local Open Scope string_scope.
Local Open Scope list_scope.
Local Open Scope nat_scope.

(** ** Errors and results *)

(** [AdvError] (src/classes/Error.ts is not part of the sources): the message
    passed to the constructor, the offending text, the column set with
    [setColumnNumber] and the context lines added by [insertMessage]. *)
Record AdvError := mkAdvError {
  message : string;
  errSource : string;
  columnNumber : option Z;   (* unset or NaN: None *)
  context : list string
}.

Inductive Exn :=
| Adv (e : AdvError)        (* an AdvError thrown by the parser *)
| TypeError (what : string) (* a property read on undefined *)
| OutOfFuel.                (* not an outcome of the program: the model's loop bound was too small *)

Inductive Result (A : Type) :=
| Ok (a : A)
| Err (e : Exn).
Arguments Ok {A} a.
Arguments Err {A} e.

Definition rbind {A B} (m : Result A) (f : A → Result B) : Result B :=
  match m with
  | Ok a => f a
  | Err e => Err e
  end.

Notation "x ←r m ;; k" := (rbind m (λ x, k))
  (at level 100, m at next level, right associativity, only parsing).

Definition throw {A} (msg src : string) (col : nat) : Result A :=
  Err (Adv (mkAdvError msg src (Some (Z.of_nat col)) [])).

Definition fromOption {A} (what : string) (o : option A) : Result A :=
  match o with
  | Some a => Ok a
  | None => Err (TypeError what)
  end.

Definition isOk {A} (r : Result A) : bool :=
  match r with Ok _ => true | Err _ => false end.

(** [insertMessage]: an enclosing level adds a context line. *)
Definition insertMessage {A} (line : string) (r : Result A) : Result A :=
  match r with
  | Err (Adv e) =>
      Err (Adv (mkAdvError (message e) (errSource e) (columnNumber e) (line :: context e)))
  | _ => r
  end.

(** Monadic left fold: a [forEach] or [for] loop whose body may throw. *)
Fixpoint foldR {A S} (f : S → A → Result S) (l : list A) (s : S) : Result S :=
  match l with
  | [] => Ok s
  | a :: l' => s' ←r f s a ;; foldR f l' s'
  end.

(** ** JavaScript objects keyed by integers *)

Module JSObj.
Section Obj.
Context {V : Type}.

Fixpoint get (o : list (nat * V)) (k : nat) : option V :=
  match o with
  | [] => None
  | (k', v) :: o' => if k' =? k then Some v else get o' k
  end.

(** [o[k] = v]: replaces an existing entry, otherwise inserts at the place
    the key has in ascending order.  (The keys are IDs taken from the
    counters of the classes; they are array indices, below 2^32 - 1, the
    keys a JavaScript object lists in ascending order.) *)
Fixpoint set (o : list (nat * V)) (k : nat) (v : V) : list (nat * V) :=
  match o with
  | [] => [(k, v)]
  | (k', v') :: o' =>
      if k' =? k then (k, v) :: o'
      else if k <? k' then (k, v) :: (k', v') :: o'
      else (k', v') :: set o' k v
  end.

(** [delete o[k]] *)
Fixpoint remove (o : list (nat * V)) (k : nat) : list (nat * V) :=
  match o with
  | [] => []
  | (k', v') :: o' => if k' =? k then o' else (k', v') :: remove o' k
  end.

Definition keys (o : list (nat * V)) : list nat := map fst o.
End Obj.
End JSObj.

(** ** Bonds, groups, rings (src/types/Bonds.ts, src/classes/Group.ts and
       src/classes/Rings.ts are not part of the sources) *)

(** [BondType]: the bond characters ["-"], ["="], ["#"] and [":"]. *)
Inductive BondType := Single | Double | Triple | Aromatic.

Global Instance BondType_eq_dec : EqDecision BondType.
Proof. solve_decision. Defined.

Definition BondType_eqb (a b : BondType) : bool :=
  match a, b with
  | Single, Single | Double, Double | Triple, Triple | Aromatic, Aromatic => true
  | _, _ => false
  end.

Definition bondChar (b : BondType) : string :=
  match b with Single => "-" | Double => "=" | Triple => "#" | Aromatic => ":" end.

(** [IBond]: the bond type and the ID of the group the bond leads to. *)
Record IBond := mkBond { bond : BondType; dest : nat }.

(** The atomic mass of a group is either given in a bracket atom or read from
    the [masses] table for an element ([masses[symbols.indexOf(el)]]); the table
    holds floating point numbers and is kept symbolic. *)
Inductive AtomicMass :=
| ExplicitMass (m : nat)
| TableMass (element : string).

Record Group := mkGroup {
  ID : nat;
  elements : list (string * nat);       (* Map<string, number>, in insertion order *)
  charge : Z;
  isRadical : bool;
  atomicMass : option AtomicMass;
  isLowercase : bool;
  chainDepth : nat;
  ringDigits : list nat;
  bonds : list IBond;
  smilesStringPosition : option nat;    (* unset until setSMILESposInfo *)
  smilesStringLength : nat;
  isImplicit : bool
}.

Definition setBonds (g : Group) (bs : list IBond) : Group :=
  mkGroup (ID g) (elements g) (charge g) (isRadical g) (atomicMass g) (isLowercase g)
    (chainDepth g) (ringDigits g) bs (smilesStringPosition g) (smilesStringLength g)
    (isImplicit g).

Definition setElements (g : Group) (es : list (string * nat)) : Group :=
  mkGroup (ID g) es (charge g) (isRadical g) (atomicMass g) (isLowercase g)
    (chainDepth g) (ringDigits g) (bonds g) (smilesStringPosition g) (smilesStringLength g)
    (isImplicit g).

Definition setCharge (g : Group) (c : Z) (len : nat) : Group :=
  mkGroup (ID g) (elements g) c (isRadical g) (atomicMass g) (isLowercase g)
    (chainDepth g) (ringDigits g) (bonds g) (smilesStringPosition g) len
    (isImplicit g).

Definition setRingDigits (g : Group) (ds : list nat) : Group :=
  mkGroup (ID g) (elements g) (charge g) (isRadical g) (atomicMass g) (isLowercase g)
    (chainDepth g) ds (bonds g) (smilesStringPosition g) (smilesStringLength g)
    (isImplicit g).

Definition setImplicit (g : Group) (b : bool) : Group :=
  mkGroup (ID g) (elements g) (charge g) (isRadical g) (atomicMass g) (isLowercase g)
    (chainDepth g) (ringDigits g) (bonds g) (smilesStringPosition g) (smilesStringLength g)
    b.

(** Modelled from the spec: [new Group({ chainDepth })] of the missing
    src/classes/Group.ts.  "unique integer identity (assigned in creation
    order)": the ID is the value of the class counter, which the caller
    threads; every other field starts empty. *)
Definition newGroup (id depth : nat) : Group :=
  mkGroup id [] 0%Z false None false depth [] [] None 0 false.

(** Modelled from the spec: [Group.addElement(el, count = 1)] of the missing
    src/classes/Group.ts: "a symbol→count mapping for its constituent
    element(s)". *)
Fixpoint addCount (es : list (string * nat)) (el : string) (n : nat) : list (string * nat) :=
  match es with
  | [] => [(el, n)]
  | (el', n') :: es' =>
      if String.eqb el' el then (el', n' + n) :: es' else (el', n') :: addCount es' el n
  end.

Definition addElement (g : Group) (el : string) (n : nat) : Group :=
  setElements g (addCount (elements g) el n).

(** Modelled from the spec: [Group.addBond(bond, group)] of the missing
    src/classes/Group.ts.  "Stored once, on one endpoint only" and "every Bond
    has exactly one stored record per atom pair": the record is pushed on
    [this.bonds] and [true] returned, unless one of the two groups already
    holds a bond to the other, in which case nothing changes and [false] is
    returned.  (The position of the bond in the text, which the parser also
    passes, serves diagnostics only and is left out of [IBond].) *)
Definition bondedTo (g : Group) (id : nat) : bool :=
  existsb (λ b, dest b =? id) (bonds g).

Definition addBond (this : Group) (b : BondType) (other : Group) : Group * bool :=
  if bondedTo this (ID other) || bondedTo other (ID this) then (this, false)
  else (setBonds this (bonds this ++ [mkBond b (ID other)]), true).

(** Modelled from the spec: [Group.isElement(el)] of the missing
    src/classes/Group.ts: the group is a single atom of that element. *)
Definition firstElement (g : Group) : option string :=
  match elements g with
  | [] => None
  | (el, _) :: _ => Some el
  end.

(** Modelled from the spec: the [Ring] class of the missing
    src/classes/Rings.ts: "a digit label, start Atom-Group identity, end
    Atom-Group identity (unset until the digit recurs), a tri-state aromaticity
    flag, and an ordered member list". *)
Record Ring := mkRing {
  ringID : nat;
  digit : nat;
  start : nat;
  end_ : option nat;
  isAromatic : option bool;
  members : list nat
}.

Definition newRing (id d s : nat) : Ring := mkRing id d s None None [].

(** ** Data tables (src/data-vars.ts is not part of the sources) *)

Module data_vars.
(** Modelled from the spec: the missing [organicSubset] table, "the fixed set
    of elements (and their allowed valences) that may appear unbracketed";
    the usual SMILES organic subset. *)
Definition organicSubset : list (string * list nat) :=
  [("B", [3]); ("C", [4]); ("N", [3; 5]); ("O", [2]); ("P", [3; 5]);
   ("S", [2; 4; 6]); ("F", [1]); ("Cl", [1]); ("Br", [1]); ("I", [1])].

(** Modelled from the spec: the missing [lowercaseRingAtoms] list, "a fixed
    whitelist of lowercase aromatic shorthand symbols". *)
Definition lowercaseRingAtoms : list string := ["b"; "c"; "n"; "o"; "p"; "s"].
End data_vars.

Fixpoint assoc {V} (t : list (string * V)) (k : string) : option V :=
  match t with
  | [] => None
  | (k', v) :: t' => if String.eqb k' k then Some v else assoc t' k
  end.

(** Modelled from the spec: [getBondNumber] of the missing src/utils.ts:
    "single=1, double=2, triple=3, aromatic=1.5"; in half units. *)
Definition getBondNumber (b : BondType) : nat :=
  match b with Single => 2 | Double => 4 | Triple => 6 | Aromatic => 3 end.

(** ** Molecule (src/classes/Molecule.ts) *)

Record Molecule := mkMolecule {
  molRef : nat;                 (* the identity of the object, compared by [===] *)
  groups : list (nat * Group);  (* { [id: number]: Group } *)
  rings : list nat              (* Ring[], by ring ID *)
}.

Definition setGroups (m : Molecule) (gs : list (nat * Group)) : Molecule :=
  mkMolecule (molRef m) gs (rings m).

Definition setRings (m : Molecule) (rs : list nat) : Molecule :=
  mkMolecule (molRef m) (groups m) rs.

(** [getAllBonds], on the bond arrays alone: the group's own bonds, then, for
    every other key in ascending order, the bonds of that group which lead to
    [groupID], with [dest] rewritten to the key. *)
Definition reversedBonds (groupID : nat) (entry : nat * list IBond) : list IBond :=
  if fst entry =? groupID then []
  else map (λ b, mkBond (bond b) (fst entry))
           (filter (λ b, dest b = groupID) (snd entry)).

Definition allBondsOf (gs : list (nat * list IBond)) (groupID : nat) : option (list IBond) :=
  own ← JSObj.get gs groupID;
  Some (own ++ flat_map (reversedBonds groupID) gs).

Definition bondArrays (m : Molecule) : list (nat * list IBond) :=
  map (λ e, (fst e, bonds (snd e))) (groups m).

Definition getAllBonds (m : Molecule) (groupID : nat) : Result (list IBond) :=
  fromOption "this.groups[groupID].bonds" (allBondsOf (bondArrays m) groupID).

(** [getBondCount], in half units. *)
Definition sumBonds (bs : list IBond) : nat :=
  fold_left (λ count b, count + getBondNumber (bond b)) bs 0.

Definition getBondCount (m : Molecule) (groupID : nat) : Result nat :=
  g ←r fromOption "this.groups[groupID].bonds" (JSObj.get (groups m) groupID) ;;
  Ok (fold_left
        (λ count e,
           if fst e =? groupID then count
           else fold_left (λ c b, if dest b =? groupID then c + getBondNumber (bond b) else c)
                          (bonds (snd e)) count)
        (groups m) (sumBonds (bonds g))).

(** *** Valence: [checkBondCounts] and [addImplicitHydrogens] *)

Definition showNat (n : nat) : string := pretty.pretty n.

(** The double quote character, for the messages which quote a text. *)
Definition dq : string := String (ascii_of_nat 34) EmptyString.

(** A weight in half units, printed as JavaScript prints the number. *)
Definition showHalves (w : nat) : string :=
  showNat (w / 2) +:+ (if Nat.even w then EmptyString else ".5").

Fixpoint join (sep : string) (l : list string) : string :=
  match l with
  | [] => EmptyString
  | [s] => s
  | s :: l' => s +:+ sep +:+ join sep l'
  end.

(** The outcome of [checkBondCounts]: [true], or the information object. *)
Inductive BondCheck :=
| BondsValid
| BondsInvalid (group : Group) (element : string) (error : AdvError).

Section Valence.
(** The [organicSubset] table of the missing src/data-vars.ts: an element
    symbol and the valences it allows, in the order the table lists them. *)
Variable organicSubset : list (string * list nat).

(** Modelled from the spec: [Group.inOrganicSubset()] of the missing
    src/classes/Group.ts: the group is one atom whose element "may appear
    unbracketed", so a key of [organicSubset]. *)
Definition inOrganicSubset (g : Group) : bool :=
  match elements g with
  | [(el, 1)] => bool_decide (is_Some (assoc organicSubset el))
  | _ => false
  end.

(** [organicSubset[Array.from(group.elements.keys())[0]]] *)
Definition valencesOf (g : Group) : Result (string * list nat) :=
  el ←r fromOption "Array.from(group.elements.keys())[0]" (firstElement g) ;;
  vs ←r fromOption "organicSubset[el]" (assoc organicSubset el) ;;
  Ok (el, vs).

Definition bondCountError (g : Group) (el : string) (w : nat) (vs : list nat) : AdvError :=
  mkAdvError
    ("Bond Error: invalid bond count for organic atom '" +:+ el +:+ "': "
       +:+ showHalves w +:+ ". Expected " +:+ join " or " (map showNat vs) +:+ ".")
    el (Z.of_nat <$> smilesStringPosition g) [].

(** The loop of [checkBondCounts] over the entries still to visit.
    [isNaN(organicSubset[el][0])] holds exactly when the list of valences is
    empty: the entries of the table are numbers. *)
Fixpoint checkBondCountsFrom (m : Molecule) (todo : list (nat * Group)) : Result BondCheck :=
  match todo with
  | [] => Ok BondsValid
  | (_, group) :: todo' =>
      w ←r getBondCount m (ID group) ;;
      if (charge group =? 0)%Z && negb (isRadical group) && inOrganicSubset group then
        x ←r valencesOf group ;;
        if negb (bool_decide (snd x = [])) && negb (existsb (λ n, 2 * n =? w) (snd x))
        then Ok (BondsInvalid group (fst x) (bondCountError group (fst x) w (snd x)))
        else checkBondCountsFrom m todo'
      else checkBondCountsFrom m todo'
  end.

Definition checkBondCounts (m : Molecule) : Result BondCheck :=
  checkBondCountsFrom m (groups m).

(** The hydrogen [addImplicitHydrogens] creates. *)
Definition implicitHydrogen (id depth : nat) : Group :=
  setImplicit (addElement (newGroup id depth) "H" 1) true.

(** [for (let h = 0; h < hCount; h++)] with [hCount] in half units: the body
    runs while [2 * h < hCount].  [group] is the object being extended; it
    stays stored under [gid], the new hydrogens having other IDs (the IDs of
    the molecule are below the counter of the class). *)
Fixpoint addHydrogens (runs : nat) (nextID : nat) (gs : list (nat * Group))
    (gid : nat) (group : Group) : nat * list (nat * Group) :=
  match runs with
  | 0 => (nextID, gs)
  | S runs' =>
      let H := implicitHydrogen nextID (chainDepth group + 1) in
      let group' := fst (addBond group Single H) in
      addHydrogens runs' (S nextID) (JSObj.set (JSObj.set gs gid group') (ID H) H) gid group'
  end.

Definition hydrogenRuns (hCount : nat) : nat := (hCount + 1) / 2.

(** The body of the loop of [addImplicitHydrogens] for the key [gid]. *)
Definition addImplicitHydrogensTo (st : nat * Molecule) (gid : nat) : Result (nat * Molecule) :=
  let m := snd st in
  group ←r fromOption "this.groups[gid]" (JSObj.get (groups m) gid) ;;
  if negb (isRadical group) && inOrganicSubset group then
    w ←r getBondCount m (ID group) ;;
    if (charge group =? 0)%Z then
      x ←r valencesOf group ;;
      match find (λ n, w <=? 2 * n) (snd x) with
      | Some targetBonds =>
          let r := addHydrogens (hydrogenRuns (2 * targetBonds - w)) (fst st) (groups m) gid group in
          Ok (fst r, setGroups m (snd r))
      | None => Ok st
      end
    else Ok st
  else Ok st.

(** [addImplicitHydrogens]: the keys are those the molecule has when the
    loop starts; [nextID] is the counter of the [Group] class. *)
Definition addImplicitHydrogens (nextID : nat) (m : Molecule) : Result (nat * Molecule) :=
  foldR addImplicitHydrogensTo (JSObj.keys (groups m)) (nextID, m).
End Valence.

(** *** Paths: [pathfind] and [traceBondPath] *)

Record PathState := mkPathState {
  paths : list (list nat);          (* in the order found *)
  current : list nat;               (* top first *)
  currGroups : list nat;            (* top first *)
  explored : list (nat * nat)
}.

Definition isAvailable (availableGroups : option (list nat)) (id : nat) : bool :=
  match availableGroups with
  | None => true
  | Some l => bool_decide (id ∈ l)
  end.

(** One turn of the [while] loop of [pathfind]; [None] when the loop ends. *)
Definition pathfindStep (allBonds : list (nat * list IBond)) (endID : nat)
    (availableGroups : option (list nat)) (s : PathState) : option (Result PathState) :=
  match currGroups s with
  | [] => None
  | gid :: below =>
      Some (
        if gid =? endID then
          Ok (mkPathState (paths s ++ [rev (current s)]) (tail (current s)) below (explored s))
        else
          bs ←r fromOption "allBonds.get(gid).length" (JSObj.get allBonds gid) ;;
          bi ←r fromOption "explored.get(gid)" (JSObj.get (explored s) gid) ;;
          match bs !! bi with
          | Some b =>
              let explored' := JSObj.set (explored s) gid (bi + 1) in
              if bool_decide (head below = Some (dest b)) || negb (isAvailable availableGroups (dest b))
              then Ok (mkPathState (paths s) (current s) (currGroups s) explored')
              else Ok (mkPathState (paths s) (bi :: current s) (dest b :: currGroups s) explored')
          | None =>
              Ok (mkPathState (paths s) (tail (current s)) below (explored s))
          end)
  end.

Fixpoint pathfindLoop (fuel : nat) (allBonds : list (nat * list IBond)) (endID : nat)
    (availableGroups : option (list nat)) (s : PathState) : Result (list (list nat)) :=
  match pathfindStep allBonds endID availableGroups s with
  | None => Ok (paths s)
  | Some r =>
      match fuel with
      | 0 => Err OutOfFuel
      | S fuel' => s' ←r r ;; pathfindLoop fuel' allBonds endID availableGroups s'
      end
  end.

(** The map [allBonds] of [pathfind]: every key with its [getAllBonds]. *)
Definition allBondsMap (m : Molecule) : list (nat * list IBond) :=
  omap (λ gid, pair gid <$> allBondsOf (bondArrays m) gid) (JSObj.keys (groups m)).

(** Every turn either advances one cursor of [explored] or pops
    [currGroups], so twice the number of bond entries, plus two, bounds the
    number of turns. *)
Definition pathfindFuel (allBonds : list (nat * list IBond)) : nat :=
  2 * list_sum (map (λ e, length (snd e)) allBonds) + 2.

Definition pathfind (m : Molecule) (startID endID : nat) (availableGroups : option (list nat))
    : Result (list (list nat)) :=
  let allBonds := allBondsMap m in
  pathfindLoop (pathfindFuel allBonds) allBonds endID availableGroups
    (mkPathState [] [] [startID] (map (λ gid, (gid, 0)) (JSObj.keys (groups m)))).

(** [traceBondPath]: [p[i]] is the group reached before step [i], the last one
    pushed. *)
Fixpoint traceFrom (m : Molecule) (at_ : nat) (path : list nat) : Result (list nat) :=
  match path with
  | [] => Ok []
  | c :: path' =>
      bs ←r getAllBonds m at_ ;;
      b ←r fromOption "this.getAllBonds(p[i])[c].dest" (bs !! c) ;;
      rest ←r traceFrom m (dest b) path' ;;
      Ok (dest b :: rest)
  end.

Definition traceBondPath (m : Molecule) (startID : nat) (path : list nat) : Result (list nat) :=
  rest ←r traceFrom m startID path ;;
  Ok (startID :: rest).

(** ** Lexical recognizers (src/utils.ts is not part of the sources) *)

Module utils.
Definition isDigit (c : ascii) : bool :=
  (48 <=? nat_of_ascii c) && (nat_of_ascii c <=? 57).

Definition digitValue (c : ascii) : nat := nat_of_ascii c - 48.

(** [_regexNum.test(str)]: the string holds a decimal digit. *)
Fixpoint regexNumTest (s : string) : bool :=
  match s with
  | EmptyString => false
  | String c s' => isDigit c || regexNumTest s'
  end.

(** Modelled from the spec: [isBondChar] of the missing src/utils.ts,
    "classify the character(s) at a cursor as a bond symbol": one of the
    four bond characters. *)
Definition bondOfChar (c : ascii) : option BondType :=
  if Ascii.eqb c "-" then Some Single
  else if Ascii.eqb c "=" then Some Double
  else if Ascii.eqb c "#" then Some Triple
  else if Ascii.eqb c ":" then Some Aromatic
  else None.

Definition isBondChar (c : option ascii) : bool :=
  match c with
  | Some c => bool_decide (is_Some (bondOfChar c))
  | None => false
  end.

(** [arrFromBack(arr, n)]: [arr[arr.length - n]]. *)
Definition arrFromBack {A} (arr : list A) (n : nat) : option A :=
  if length arr <? n then None else arr !! (length arr - n).

(** Modelled from the spec: [extractBetweenMatching] of the missing
    src/utils.ts: "scan for the matching close delimiter, tracking nesting
    depth; they fail if the input ends before depth returns to zero".  The
    scan starts on the opening delimiter; [extracted] is the text between the
    pair and [openCount] the depth left at the end of the scan. *)
Fixpoint scanMatching (open close : ascii) (s : string) (openCount : nat) : string * nat :=
  match s with
  | EmptyString => (EmptyString, openCount)
  | String c s' =>
      if Ascii.eqb c open then
        let r := scanMatching open close s' (S openCount) in
        if openCount =? 0 then r else (String c (fst r), snd r)
      else if Ascii.eqb c close then
        match openCount with
        | 0 | 1 => (EmptyString, 0)
        | S k => let r := scanMatching open close s' k in (String c (fst r), snd r)
        end
      else
        let r := scanMatching open close s' openCount in (String c (fst r), snd r)
  end.

Fixpoint dropString (n : nat) (s : string) : string :=
  match n, s with
  | 0, _ => s
  | S n', String _ s' => dropString n' s'
  | S _, EmptyString => EmptyString
  end.

Definition extractBetweenMatching (s : string) (open close : ascii) (pos : nat) : string * nat :=
  scanMatching open close (dropString pos s) 0.

(** Modelled from the spec: [parseDigitString] of the missing src/utils.ts:
    "ring digit (single or %NN form)".  Every digit is a ring number of its
    own; [%] takes the one or two digits after it as one number, and is not
    a number ([None]) when no digit follows.  [endIndex] counts the
    characters read. *)
Fixpoint parseDigitString (s : string) : list (option nat) * nat :=
  match s with
  | EmptyString => ([], 0)
  | String c s' =>
      if isDigit c then
        let r := parseDigitString s' in (Some (digitValue c) :: fst r, S (snd r))
      else if Ascii.eqb c "%" then
        match s' with
        | String d1 s'' =>
            if isDigit d1 then
              match s'' with
              | String d2 s''' =>
                  if isDigit d2 then
                    let r := parseDigitString s''' in
                    (Some (10 * digitValue d1 + digitValue d2) :: fst r, 3 + snd r)
                  else
                    let r := parseDigitString s'' in
                    (Some (digitValue d1) :: fst r, 2 + snd r)
              | EmptyString => ([Some (digitValue d1)], 2)
              end
            else ([None], 1)
        | EmptyString => ([None], 1)
        end
      else ([], 0)
  end.

(** Modelled from the spec: [extractDuplicates] of the missing
    src/utils.ts, which reports "a duplicate ring-closure digit on one atom":
    the values that occur again later in the array, each once. *)
Fixpoint extractDuplicates (l : list nat) : list nat :=
  match l with
  | [] => []
  | x :: l' =>
      let rest := extractDuplicates l' in
      if bool_decide (x ∈ l') && negb (bool_decide (x ∈ rest)) then x :: rest else rest
  end.

(** Modelled from the spec: the missing [symbols] table of
    src/data-vars.ts, "the full element table". *)
Definition symbols : list string :=
  ["H"; "He"; "Li"; "Be"; "B"; "C"; "N"; "O"; "F"; "Ne"; "Na"; "Mg"; "Al"; "Si";
   "P"; "S"; "Cl"; "Ar"; "K"; "Ca"; "Sc"; "Ti"; "V"; "Cr"; "Mn"; "Fe"; "Co"; "Ni";
   "Cu"; "Zn"; "Ga"; "Ge"; "As"; "Se"; "Br"; "Kr"; "Rb"; "Sr"; "Y"; "Zr"; "Nb";
   "Mo"; "Tc"; "Ru"; "Rh"; "Pd"; "Ag"; "Cd"; "In"; "Sn"; "Sb"; "Te"; "I"; "Xe";
   "Cs"; "Ba"; "La"; "Ce"; "Pr"; "Nd"; "Pm"; "Sm"; "Eu"; "Gd"; "Tb"; "Dy"; "Ho";
   "Er"; "Tm"; "Yb"; "Lu"; "Hf"; "Ta"; "W"; "Re"; "Os"; "Ir"; "Pt"; "Au"; "Hg";
   "Tl"; "Pb"; "Bi"; "Po"; "At"; "Rn"; "Fr"; "Ra"; "Ac"; "Th"; "Pa"; "U"; "Np";
   "Pu"; "Am"; "Cm"; "Bk"; "Cf"; "Es"; "Fm"; "Md"; "No"; "Lr"; "Rf"; "Db"; "Sg";
   "Bh"; "Hs"; "Mt"; "Ds"; "Rg"; "Cn"; "Nh"; "Fl"; "Mc"; "Lv"; "Ts"; "Og"].

Definition isSymbol (s : string) : bool :=
  existsb (String.eqb s) symbols || existsb (String.eqb s) data_vars.lowercaseRingAtoms.

(** Modelled from the spec: [extractElement] of the missing src/utils.ts:
    an element symbol or a lowercase aromatic shorthand symbol at the start
    of the text, "longest valid match wins"; nothing when there is none. *)
Definition extractElement (s : string) : option string :=
  if (2 <=? String.length s) && isSymbol (substring 0 2 s) then Some (substring 0 2 s)
  else if (1 <=? String.length s) && isSymbol (substring 0 1 s) then Some (substring 0 1 s)
  else None.

(** The decimal digits at the start of a text, and the text after them. *)
Fixpoint spanDigits (s : string) : list nat * string :=
  match s with
  | EmptyString => ([], EmptyString)
  | String c s' =>
      if isDigit c then let r := spanDigits s' in (digitValue c :: fst r, snd r)
      else ([], s)
  end.

Definition decimal (ds : list nat) : nat := fold_left (λ n d, 10 * n + d) ds 0.

(** Modelled from the spec: [extractInteger] of the missing src/utils.ts:
    the number written at the start of the text ("explicit hydrogen count");
    zero when no digit is there. *)
Definition extractInteger (s : string) : nat := decimal (fst (spanDigits s)).

(** Modelled from the spec: [parseChargeString] of the missing
    src/utils.ts, for the "brace-delimited charge clause": a sign followed by
    an optional magnitude, or a magnitude followed by a sign; anything else
    is not a number ([None]). *)
Definition signOf (c : ascii) : option Z :=
  if Ascii.eqb c "+" then Some 1%Z else if Ascii.eqb c "-" then Some (-1)%Z else None.

Definition parseChargeString (s : string) : option Z :=
  match s with
  | EmptyString => None
  | String c s' =>
      match signOf c with
      | Some sg =>
          match spanDigits s' with
          | ([], EmptyString) => Some sg
          | (ds, EmptyString) => Some (sg * Z.of_nat (decimal ds))%Z
          | _ => None
          end
      | None =>
          match spanDigits s with
          | (d :: ds, String c' EmptyString) =>
              sg ← signOf c'; Some (sg * Z.of_nat (decimal (d :: ds)))%Z
          | _ => None
          end
      end
  end.

(** The value [parseInorganicString] returns. *)
Record InorganicInfo := mkInorganicInfo {
  info_elements : list (string * nat);
  info_charge : Z;
  info_isRadical : bool;
  info_atomicMass : option nat;
  info_error : option string;
  info_endIndex : nat
}.

(** The charge suffix of a bracket atom: signs of one kind, or one sign and a
    magnitude.  Returns the charge and the text after it. *)
Fixpoint spanSigns (c : ascii) (s : string) : nat * string :=
  match s with
  | String c' s' =>
      if Ascii.eqb c c' then let r := spanSigns c s' in (S (fst r), snd r) else (0, s)
  | EmptyString => (0, s)
  end.

Definition chargeSuffix (s : string) : Z * string :=
  match s with
  | String c s' =>
      match signOf c with
      | Some sg =>
          match spanDigits s' with
          | ([], _) => let r := spanSigns c s' in ((sg * Z.of_nat (S (fst r)))%Z, snd r)
          | (ds, rest) => ((sg * Z.of_nat (decimal ds))%Z, rest)
          end
      | None => (0%Z, s)
      end
  | EmptyString => (0%Z, s)
  end.

(** Modelled from the spec: [parseInorganicString] of the missing
    src/utils.ts: "optional leading integer (isotopic mass), an element
    symbol (matched against the full element table, preferring the longest
    valid match), optional explicit hydrogen count, optional charge suffix,
    optional radical marker".  A body without element symbol has no elements;
    text left over, or a radical marker when radicals are disabled, is
    reported in [error] with the index it starts at. *)
Definition parseInorganicString (s : string) (enableRadicals : bool) : InorganicInfo :=
  let (massDigits, s1) := spanDigits s in
  let mass := match massDigits with [] => None | _ => Some (decimal massDigits) end in
  match extractElement s1 with
  | None => mkInorganicInfo [] 0%Z false mass None (String.length s - String.length s1)
  | Some el =>
      let s2 := dropString (String.length el) s1 in
      let (hs, s3) :=
        match s2 with
        | String "H" t =>
            let (ds, t') := spanDigits t in
            (match ds with [] => 1 | _ => decimal ds end, t')
        | _ => (0, s2)
        end in
      let els := if hs =? 0 then [(el, 1)] else addCount [(el, 1)] "H" hs in
      let (ch, s4) := chargeSuffix s3 in
      let (radical, s5) :=
        match s4 with
        | String "." t => (true, t)
        | _ => (false, s4)
        end in
      let endIndex := String.length s - String.length s5 in
      if radical && negb enableRadicals then
        mkInorganicInfo els ch false mass (Some "Syntax Error: radicals are disabled")
          (String.length s - String.length s4)
      else if negb (String.eqb s5 EmptyString) then
        mkInorganicInfo els ch radical mass (Some "Syntax Error: unexpected character in atom")
          endIndex
      else mkInorganicInfo els ch radical mass None endIndex
  end.
End utils.

(** ** Text of a group (src/classes/Group.ts is not part of the sources) *)

(** Modelled from the spec: [Group.getElementString(false, true)] of the
    missing src/classes/Group.ts: the symbols of the group, each followed by
    its count when the count is not one. *)
Definition getElementString (g : Group) : string :=
  String.concat EmptyString (map (λ e, fst e +:+ (if snd e =? 1 then EmptyString else showNat (snd e))) (elements g)).

Definition lowerChar (c : ascii) : ascii :=
  let n := nat_of_ascii c in
  if (65 <=? n) && (n <=? 90) then ascii_of_nat (n + 32) else c.

Definition upperChar (c : ascii) : ascii :=
  let n := nat_of_ascii c in
  if (97 <=? n) && (n <=? 122) then ascii_of_nat (n - 32) else c.

Definition mapFirst (f : ascii → ascii) (s : string) : string :=
  match s with
  | EmptyString => EmptyString
  | String c s' => String (f c) s'
  end.

Definition showCharge (c : Z) : string :=
  if (c =? 0)%Z then EmptyString
  else (if (0 <? c)%Z then "+" else "-")
       +:+ (if (Z.abs c =? 1)%Z then EmptyString else showNat (Z.abs_nat c)).

(** Modelled from the spec: [Group.toString()] of the missing
    src/classes/Group.ts, the text [generateSMILES] writes for a group:
    "reproduces valid, re-parseable notation".  A lowercase ring atom is its
    lowercase symbol; a neutral atom of the organic subset without mass and
    radical flag is its bare symbol; everything else is a bracket atom. *)
Definition Group_toString (g : Group) : string :=
  if isLowercase g then mapFirst lowerChar (getElementString g)
  else if (charge g =? 0)%Z && negb (isRadical g) && inOrganicSubset data_vars.organicSubset g
          && bool_decide (atomicMass g = None)
  then getElementString g
  else "[" +:+ match atomicMass g with Some (ExplicitMass n) => showNat n | _ => EmptyString end
           +:+ getElementString g +:+ showCharge (charge g)
           +:+ (if isRadical g then "." else EmptyString) +:+ "]".

(** *** [Molecule.generateSMILES] *)

(** [IGenerateSmilesStackItem]; [createGenerateSmilesStackItemObject] of the
    missing src/types/SMILES.ts fills [group], [parent] and [bond] and leaves
    the item unhandled with empty text. *)
Record StackItem := mkStackItem {
  si_group : nat;
  si_parent : option nat;
  si_bond : option BondType;
  si_handled : bool;
  si_smiles : string;
  si_smilesChildren : list string
}.

Definition createGenerateSmilesStackItemObject (g : nat) (parent : option nat)
    (b : option BondType) : StackItem :=
  mkStackItem g parent b false EmptyString [].

Definition assembleSMILES (item : StackItem) : string :=
  let children := filter (λ x, String.length x ≠ 0) (si_smilesChildren item) in
  let lastChild := last children in
  si_smiles item
    +:+ String.concat EmptyString (map (λ x, "(" +:+ x +:+ ")") (removelast children))
    +:+ default EmptyString lastChild.

Record GenState := mkGenState {
  gen_smiles : string;
  gen_stack : list StackItem;        (* bottom first: the index is the array index *)
  gen_doneGroups : list nat
}.

(** The text an item gets for its group when the group is rendered. *)
Definition itemText (item : StackItem) (group : Group) : string :=
  let bondText :=
    match si_bond item with
    | Some Single | None => EmptyString
    | Some b => if BondType_eqb b Aromatic && isLowercase group then EmptyString else bondChar b
    end in
  si_smiles item +:+ bondText +:+ Group_toString group
    +:+ String.concat EmptyString (map (λ n, "%" +:+ showNat n) (ringDigits group)).

(** One turn of the [while] loop of [generateSMILES]; [None] when it ends. *)
Definition generateStep (m : Molecule) (showImplicits : bool) (s : GenState)
    : option (Result GenState) :=
  match last (gen_stack s) with
  | None => None
  | Some item =>
      let i := length (gen_stack s) - 1 in
      Some (
        if si_handled item then
          let popped := removelast (gen_stack s) in
          match si_parent item with
          | Some j =>
              parent ←r fromOption "stack[j].smilesChildren" (popped !! j) ;;
              let parent' :=
                mkStackItem (si_group parent) (si_parent parent) (si_bond parent)
                  (si_handled parent) (si_smiles parent)
                  (si_smilesChildren parent ++ [assembleSMILES item]) in
              Ok (mkGenState (gen_smiles s) (<[j := parent']> popped) (gen_doneGroups s))
          | None =>
              Ok (mkGenState (assembleSMILES item +:+ gen_smiles s) popped (gen_doneGroups s))
          end
        else
          group ←r fromOption "group.ID" (JSObj.get (groups m) (si_group item)) ;;
          let handled (text : string) :=
            mkStackItem (si_group item) (si_parent item) (si_bond item) true text
              (si_smilesChildren item) in
          if bool_decide (ID group ∈ gen_doneGroups s) then
            Ok (mkGenState (gen_smiles s) (<[i := handled (si_smiles item)]> (gen_stack s))
                  (gen_doneGroups s))
          else
            let render := negb (isImplicit group) || (isImplicit group && showImplicits) in
            let item' := handled (if render then itemText item group else si_smiles item) in
            bs ←r getAllBonds m (ID group) ;;
            let pushed :=
              map (λ b, createGenerateSmilesStackItemObject (dest b) (Some i) (Some (bond b)))
                  (filter (λ b, dest b ∉ gen_doneGroups s) (rev bs)) in
            Ok (mkGenState (gen_smiles s) (<[i := item']> (gen_stack s) ++ pushed)
                  (ID group :: gen_doneGroups s)))
  end.

Fixpoint generateLoop (fuel : nat) (m : Molecule) (showImplicits : bool) (s : GenState)
    : Result string :=
  match generateStep m showImplicits s with
  | None => Ok (gen_smiles s)
  | Some r =>
      match fuel with
      | 0 => Err OutOfFuel
      | S fuel' => s' ←r r ;; generateLoop fuel' m showImplicits s'
      end
  end.

(** Every item is pushed once for a bond entry of [getAllBonds] (or is the
    root) and takes two turns, one to handle it and one to pop it. *)
Definition generateFuel (m : Molecule) : nat :=
  2 * (1 + list_sum (map (λ e, length (snd e)) (allBondsMap m))) + 1.

Definition Molecule_generateSMILES (m : Molecule) (showImplicits : bool) : Result string :=
  match JSObj.keys (groups m) with
  | [] => Ok EmptyString
  | root :: _ =>
      generateLoop (generateFuel m) m showImplicits
        (mkGenState EmptyString [createGenerateSmilesStackItemObject root None None] [])
  end.

(** *** [Molecule.countAtoms] *)

(** [IAtomCount]; the charge is [None] where the code stores [NaN]. *)
Record IAtomCount := mkAtomCount {
  atom : string;
  ac_charge : option Z;
  count : nat
}.

(** [ICountAtoms]: an option left out is [None]. *)
Record ICountAtoms := mkCountAtoms {
  splitGroups : option bool;
  hillSystemOrder : option bool;
  ignoreCharge : option bool
}.

Definition showChargeKey (c : option Z) : string :=
  match c with
  | Some z => pretty.pretty z
  | None => "NaN"
  end.

Definition chargeStr (a : string) (c : option Z) : string :=
  a +:+ "{" +:+ showChargeKey c +:+ "}".

Fixpoint indexOf (l : list string) (s : string) : option nat :=
  match l with
  | [] => None
  | x :: l' => if String.eqb x s then Some 0 else S <$> indexOf l' s
  end.

Definition addToCount (n : nat) (a : IAtomCount) : IAtomCount :=
  mkAtomCount (atom a) (ac_charge a) (count a + n).

(** The two arrays [atoms] and [elementsPos] the tally loops fill. *)
Definition Tally : Type := list IAtomCount * list string.

(** Tally one entry under the key [key]: [atoms[i].count += n] when the key is
    known, otherwise push [fresh] (with [n] added) and the key. *)
Definition tally (t : Tally) (key : string) (fresh : IAtomCount) (n : nat) : Tally :=
  match indexOf (snd t) key with
  | Some i => (alter (addToCount n) i (fst t), snd t)
  | None => (fst t ++ [addToCount n fresh], snd t ++ [key])
  end.

(** Whole groups: one entry per text of a group and charge. *)
Definition tallyGroup (ignore : bool) (t : Tally) (e : nat * Group) : Tally :=
  let groupCharge := if ignore then 0%Z else charge (snd e) in
  let str := getElementString (snd e) in
  tally t (chargeStr str (Some groupCharge)) (mkAtomCount str (Some groupCharge) 0) 1.

(** Split groups, first pass: [atoms[element]] reads a property of the array
    named by an element symbol, which is never defined, so every element of
    every group gets an entry of its own. *)
Definition tallyElements (ignore : bool) (t : Tally) (e : nat * Group) : Tally :=
  let groupCharge := if ignore then 0%Z else charge (snd e) in
  fold_left
    (λ t' el, (fst t' ++ [mkAtomCount (fst el) None (snd el)],
               snd t' ++ [chargeStr (fst el) (Some groupCharge)]))
    (elements (snd e)) t.

(** Split groups, second pass: numbered atoms are taken apart and entries of
    one element merged. *)
Definition regroup (t : Tally) (group : IAtomCount) : Result Tally :=
  if utils.regexNumTest (atom group) then
    a ←r fromOption "atom.length" (utils.extractElement (atom group)) ;;
    let n := utils.extractInteger (utils.dropString (String.length a) (atom group)) in
    Ok (tally t (chargeStr a (ac_charge group)) (mkAtomCount a None 0) n)
  else
    Ok (match indexOf (snd t) (chargeStr (atom group) (ac_charge group)) with
        | Some i => (alter (addToCount (count group)) i (fst t), snd t)
        | None => (fst t ++ [group], snd t ++ [chargeStr (atom group) (ac_charge group)])
        end).

(** The comparison [(a, b) => a.charge - b.charge]: a difference with [NaN]
    is [NaN], which [sort] takes for "equal". *)
Definition chargeLe (a b : IAtomCount) : Prop :=
  match ac_charge a, ac_charge b with
  | Some x, Some y => (x ≤ y)%Z
  | _, _ => True
  end.

Global Instance chargeLe_dec a b : Decision (chargeLe a b).
Proof. unfold chargeLe. destruct (ac_charge a), (ac_charge b); apply _. Defined.

(** The default comparison of [sort()] on strings: by code units. *)
Definition strLe (s1 s2 : string) : Prop := String.leb s1 s2 = true.

Global Instance strLe_dec s1 s2 : Decision (strLe s1 s2).
Proof. unfold strLe. apply _. Defined.

(** [Array.prototype.sort] with the comparison by charge, as a merge sort.
    [sort] keeps the order of entries that compare equal, which this merge
    sort need not; no statement below depends on that order. *)
Definition sortByCharge : list IAtomCount → list IAtomCount := merge_sort chargeLe.

Definition isAtom (el : string) (a : IAtomCount) : bool := String.eqb (atom a) el.

(** [elements] and [elementKeys] of the Hill ordering: the entries of each
    remaining element, the elements in the order they first occur. *)
Fixpoint pushIon (els : list (string * list IAtomCount)) (a : IAtomCount)
    : list (string * list IAtomCount) :=
  match els with
  | [] => [(atom a, [a])]
  | (k, l) :: els' =>
      if String.eqb k (atom a) then (k, l ++ [a]) :: els' else (k, l) :: pushIon els' a
  end.

Definition hillSystem (atoms : list IAtomCount) : list IAtomCount :=
  (* the loops run from the last index down and splice the entry out *)
  let carbons := sortByCharge (rev (List.filter (isAtom "C") atoms)) in
  let atoms1 := List.filter (λ a, negb (isAtom "C" a)) atoms in
  let hydrogens := sortByCharge (rev (List.filter (isAtom "H") atoms1)) in
  let atoms2 := List.filter (λ a, negb (isAtom "H" a)) atoms1 in
  let elements := map (λ e, (fst e, sortByCharge (snd e))) (fold_left pushIon atoms2 []) in
  let elementKeys := merge_sort strLe (map fst elements) in
  carbons ++ hydrogens ++ flat_map (λ e, default [] (assoc elements e)) elementKeys.

Definition countAtoms (m : Molecule) (opts : ICountAtoms) : Result (list IAtomCount) :=
  let split := default false (splitGroups opts) in
  let hill := default true (hillSystemOrder opts) in
  let ignore := default false (ignoreCharge opts) in
  atoms ←r
    (if split then
       foldR regroup (fst (fold_left (tallyElements ignore) (groups m) ([], []))) ([], [])
     else Ok (fold_left (tallyGroup ignore) (groups m) ([], []))) ;;
  Ok (if hill then hillSystem (fst atoms) else fst atoms).

(** ** The parse result (src/classes/SMILES.ts) *)

(** [IParseOptions] (src/types/SMILES.ts is not part of the sources): the
    thirteen toggles the parser reads, under the names the code uses. *)
Record IParseOptions := mkParseOptions {
  enableSeperatedStructures : bool;
  enableReaction : bool;
  enableMultipleReactions : bool;
  enableAromaticity : bool;
  enableChargeClauses : bool;
  cumulativeCharge : bool;
  enableInorganicAtoms : bool;
  enableRadicals : bool;
  showImplcitAtomicMass : bool;
  enableChains : bool;
  enableRings : bool;
  opt_addImplicitHydrogens : bool;
  checkBondCount : bool
}.

Record ParsedSMILES := mkParsedSMILES {
  smiles : string;
  parseOptions : IParseOptions;
  groupMap : list nat;               (* the keys of { [gid: number]: Group } *)
  molecules : list Molecule;
  openRings : list (nat * nat);      (* IRingMap: digit to ring, by ring ID *)
  ps_rings : list Ring;
  reactionIndexes : list Z
}.

(** A parse in progress: the result under construction and the counters of
    the [Group] and [Ring] classes and of the objects allocated. *)
Record Env := mkEnv {
  ps : ParsedSMILES;
  nextGroupID : nat;
  nextRingID : nat;
  nextMolRef : nat
}.

Definition withPS (env : Env) (p : ParsedSMILES) : Env :=
  mkEnv p (nextGroupID env) (nextRingID env) (nextMolRef env).

Definition setMolecules (p : ParsedSMILES) (ms : list Molecule) : ParsedSMILES :=
  mkParsedSMILES (smiles p) (parseOptions p) (groupMap p) ms (openRings p) (ps_rings p)
    (reactionIndexes p).

Definition setOpenRings (p : ParsedSMILES) (o : list (nat * nat)) : ParsedSMILES :=
  mkParsedSMILES (smiles p) (parseOptions p) (groupMap p) (molecules p) o (ps_rings p)
    (reactionIndexes p).

Definition setPsRings (p : ParsedSMILES) (rs : list Ring) : ParsedSMILES :=
  mkParsedSMILES (smiles p) (parseOptions p) (groupMap p) (molecules p) (openRings p) rs
    (reactionIndexes p).

Definition setReactionIndexes (p : ParsedSMILES) (ri : list Z) : ParsedSMILES :=
  mkParsedSMILES (smiles p) (parseOptions p) (groupMap p) (molecules p) (openRings p)
    (ps_rings p) ri.

Definition setGroupMap (p : ParsedSMILES) (gm : list nat) : ParsedSMILES :=
  mkParsedSMILES (smiles p) (parseOptions p) gm (molecules p) (openRings p) (ps_rings p)
    (reactionIndexes p).

(** The group object with a given ID, in whichever molecule owns it. *)
Fixpoint findGroup (ms : list Molecule) (id : nat) : option Group :=
  match ms with
  | [] => None
  | m :: ms' =>
      match JSObj.get (groups m) id with
      | Some g => Some g
      | None => findGroup ms' id
      end
  end.

(** An update in place of the group object with a given ID. *)
Definition updateGroup (ms : list Molecule) (id : nat) (f : Group → Group) : list Molecule :=
  map (λ m, match JSObj.get (groups m) id with
            | Some g => setGroups m (JSObj.set (groups m) id (f g))
            | None => m
            end) ms.

Definition updateLast {A} (f : A → A) (l : list A) : list A :=
  match last l with
  | Some x => removelast l ++ [f x]
  | None => l
  end.

Fixpoint findRing (rs : list Ring) (id : nat) : option Ring :=
  match rs with
  | [] => None
  | r :: rs' => if ringID r =? id then Some r else findRing rs' id
  end.

Definition updateRing (rs : list Ring) (id : nat) (f : Ring → Ring) : list Ring :=
  map (λ r, if ringID r =? id then f r else r) rs.

Definition setAromatic (b : bool) (r : Ring) : Ring :=
  mkRing (ringID r) (digit r) (start r) (end_ r) (Some b) (members r).

Definition setEnd (e : nat) (r : Ring) : Ring :=
  mkRing (ringID r) (digit r) (start r) (Some e) (isAromatic r) (members r).

Definition setMembers (ms : list nat) (r : Ring) : Ring :=
  mkRing (ringID r) (digit r) (start r) (end_ r) (isAromatic r) ms.

(** A key added to the keys of an object. *)
Fixpoint insertKey (ks : list nat) (k : nat) : list nat :=
  match ks with
  | [] => [k]
  | k' :: ks' =>
      if k' =? k then ks
      else if k <? k' then k :: ks
      else k' :: insertKey ks' k
  end.

(** [ps.groupMap[id]] *)
Definition groupMapGet (p : ParsedSMILES) (id : nat) : option Group :=
  if bool_decide (id ∈ groupMap p) then findGroup (molecules p) id else None.

(** [new Molecule()] pushed on [ps.molecules]. *)
Definition pushMolecule (env : Env) : Env :=
  mkEnv (setMolecules (ps env) (molecules (ps env) ++ [mkMolecule (nextMolRef env) [] []]))
    (nextGroupID env) (nextRingID env) (S (nextMolRef env)).

(** The variables of the loop of [_parse]. *)
Record Locals := mkLocals {
  pos : nat;
  groupsChain : list nat;            (* the [groups] array, by group ID *)
  currentBond : option BondType;
  currentBondPos : option nat;       (* starts as NaN *)
  dontBondNext : bool
}.

Definition setPos (l : Locals) (p : nat) : Locals :=
  mkLocals p (groupsChain l) (currentBond l) (currentBondPos l) (dontBondNext l).

Definition charAt (s : string) (i : nat) : option ascii := String.get i s.

Definition charIs (s : string) (i : nat) (c : ascii) : bool :=
  match charAt s i with
  | Some c' => Ascii.eqb c' c
  | None => false
  end.

Definition charString (c : option ascii) : string :=
  match c with
  | Some c => String c EmptyString
  | None => "undefined"
  end.

(** *** The regions of the loop of [_parse] *)

(** Region "Explicit Bond".  The bond is kept for the next atom; an aromatic
    bond needs an open ring, and no open ring known not to be aromatic, and
    marks every open ring aromatic. *)
Definition markAromatic (col : nat) (rs : list Ring) (entry : nat * nat) : Result (list Ring) :=
  ring ←r fromOption "ps.openRings[rid].isAromatic" (findRing rs (snd entry)) ;;
  if bool_decide (isAromatic ring = Some false) then
    throw "Bond Error: aromatic bond ':' only valid in aromatic rings" ":" col
  else Ok (updateRing rs (snd entry) (setAromatic true)).

Definition explicitBond (env : Env) (s : string) (loc : Locals) : Result (Env * Locals) :=
  let c := charAt s (pos loc) in
  if utils.isBondChar c
     && (if charIs s (pos loc) ":" then enableAromaticity (parseOptions (ps env)) else true)
  then
    let b := c ≫= utils.bondOfChar in
    let loc' := mkLocals (pos loc + 1) (groupsChain loc) b (Some (pos loc)) (dontBondNext loc) in
    if String.length s <=? pos loc' then
      throw ("Syntax Error: invalid bond '" +:+ charString c
               +:+ "': unexpected end-of-input after bond") (charString c) (pos loc' - 1)
    else if bool_decide (b = Some Aromatic) then
      if bool_decide (openRings (ps env) = []) then
        throw "Bond Error: aromatic bond ':' only valid in rings" ":" (pos loc' - 1)
      else
        rs ←r foldR (markAromatic (pos loc' - 1)) (openRings (ps env)) (ps_rings (ps env)) ;;
        Ok (withPS env (setPsRings (ps env) rs), loc')
    else Ok (env, loc')
  else Ok (env, loc).

(** Region "Charge": the clause applies to the last group of the chain. *)
Definition chargeClause (env : Env) (s : string) (loc : Locals) : Result (Env * Locals) :=
  let p := pos loc in
  let extraction := utils.extractBetweenMatching s "{" "}" p in
  if negb (snd extraction =? 0) then
    throw ("Syntax Error: unmatched closing brace at position " +:+ showNat p +:+ " '{'")
      (utils.dropString p s) p
  else
    gid ←r fromOption "group.charge" (utils.arrFromBack (groupsChain loc) 1) ;;
    group ←r fromOption "group.charge" (findGroup (molecules (ps env)) gid) ;;
    let len := String.length (fst extraction) + 2 in
    if (negb (charge group =? 0)%Z && negb (cumulativeCharge (parseOptions (ps env))))
       || isRadical group
    then throw "Syntax Error: unexpected charge clause" ("{" +:+ fst extraction +:+ "}") p
    else
      match utils.parseChargeString (fst extraction) with
      | None => throw "Syntax Error: invalid charge string" (fst extraction) (p + 1)
      | Some ch =>
          let upd g := setCharge g (charge g + ch)%Z (smilesStringLength g + len) in
          Ok (withPS env (setMolecules (ps env) (updateGroup (molecules (ps env)) gid upd)),
              setPos loc (p + len))
      end.

(** A group just built is pushed on the chain and stored in the last
    molecule. *)
Definition pushGroup (env : Env) (loc : Locals) (g : Group) (newPos : nat) : Env * Locals :=
  (mkEnv (setMolecules (ps env)
            (updateLast (λ m, setGroups m (JSObj.set (groups m) (ID g) g)) (molecules (ps env))))
         (S (nextGroupID env)) (nextRingID env) (nextMolRef env),
   mkLocals newPos (groupsChain loc ++ [ID g]) (currentBond loc) (currentBondPos loc)
     (dontBondNext loc)).

Definition setPosInfo (g : Group) (p len : nat) : Group :=
  mkGroup (ID g) (elements g) (charge g) (isRadical g) (atomicMass g) (isLowercase g)
    (chainDepth g) (ringDigits g) (bonds g) (Some p) len (isImplicit g).

Definition setAtomInfo (g : Group) (c : Z) (radical : bool) (mass : option AtomicMass)
    (lowercase : bool) : Group :=
  mkGroup (ID g) (elements g) c radical mass lowercase
    (chainDepth g) (ringDigits g) (bonds g) (smilesStringPosition g) (smilesStringLength g)
    (isImplicit g).

(** Region "Inorganic Atom/Ion". *)
Definition inorganicAtom (env : Env) (s : string) (chainDepth indexOffset : nat) (loc : Locals)
    : Result (Env * Locals) :=
  let p := pos loc in
  let extraction := utils.extractBetweenMatching s "[" "]" p in
  if negb (snd extraction =? 0) then
    throw ("Syntax Error: unmatched closing bracket at position " +:+ showNat p +:+ " '['")
      (utils.dropString p s) p
  else
    let extracted := fst extraction in
    let info := utils.parseInorganicString extracted (enableRadicals (parseOptions (ps env))) in
    insertMessage ("Error whilst parsing inorganic group " +:+ dq +:+ "[" +:+ extracted +:+ "]" +:+ dq +:+ ": ")
      match utils.info_error info with
      | None =>
          match utils.info_elements info with
          | [] =>
              throw "Syntax Error: expected element"
                (if String.eqb extracted EmptyString then "]" else extracted) (p + 1)
          | els =>
              let g0 := setPosInfo (newGroup (nextGroupID env) chainDepth)
                          (indexOffset + p) (String.length extracted + 2) in
              let g1 := fold_left (λ g e, addElement g (fst e) (snd e)) els g0 in
              let mass :=
                match utils.info_atomicMass info with
                | Some n => Some (ExplicitMass n)
                | None =>
                    if showImplcitAtomicMass (parseOptions (ps env))
                    then TableMass <$> firstElement g1 else None
                end in
              Ok (pushGroup env loc
                    (setAtomInfo g1 (utils.info_charge info) (utils.info_isRadical info) mass false)
                    (p + (String.length extracted + 2)))
          end
      | Some err =>
          throw err (utils.dropString (utils.info_endIndex info) extracted)
            (p + 1 + utils.info_endIndex info)
      end.

(** Region "Organic Atom". *)
Definition organicAtom (env : Env) (s : string) (chainDepth indexOffset : nat) (loc : Locals)
    : Result (Env * Locals) :=
  let p := pos loc in
  match charAt s p with
  | None =>
      throw ("Syntax Error: unexpected end of input (expected organic atom, got EOL) at position "
               +:+ showNat p) EmptyString p
  | Some got =>
      match utils.extractElement (utils.dropString p s) with
      | Some extracted =>
          let lowercase := bool_decide (extracted ∈ data_vars.lowercaseRingAtoms) in
          if bool_decide (assoc data_vars.organicSubset extracted = None) && negb lowercase then
            throw ("Syntax Error: expected organic element ["
                     +:+ join "," (map fst data_vars.organicSubset) +:+ "] or ring element ["
                     +:+ join "," data_vars.lowercaseRingAtoms +:+ "], got '" +:+ extracted +:+ "'")
              extracted p
          else
            let g0 := setPosInfo (newGroup (nextGroupID env) chainDepth)
                        (indexOffset + p) (String.length extracted) in
            let el := if lowercase then mapFirst upperChar extracted else extracted in
            let g1 := addElement g0 el 1 in
            let mass :=
              if showImplcitAtomicMass (parseOptions (ps env))
              then TableMass <$> firstElement g1 else None in
            Ok (pushGroup env loc (setAtomInfo g1 (charge g1) (isRadical g1) mass lowercase)
                  (p + String.length el))
      | None =>
          throw ("Syntax Error: position " +:+ showNat p +:+ ": expected atom, got " +:+ dq
                   +:+ String got EmptyString +:+ dq) (String got EmptyString) p
      end
  end.

(** Region "Ring digits": a digit without open record opens a ring on the last
    group of the chain, a digit with one closes it there. *)
Definition ringDigit (group : Group) (env : Env) (d : nat) : Result Env :=
  let p := ps env in
  match JSObj.get (openRings p) d with
  | None =>
      let ring := newRing (nextRingID env) d (ID group) in
      let ring' :=
        mkRing (ringID ring) (digit ring) (start ring) (end_ ring)
          (if isLowercase group then Some true else isAromatic ring)
          (members ring ++ [ID group]) in
      Ok (mkEnv
            (mkParsedSMILES (smiles p) (parseOptions p) (groupMap p)
               (updateLast (λ m, setRings m (rings m ++ [ringID ring])) (molecules p))
               (JSObj.set (openRings p) d (ringID ring))
               (ps_rings p ++ [ring'])
               (reactionIndexes p))
            (nextGroupID env) (S (nextRingID env)) (nextMolRef env))
  | Some rid =>
      _ ←r fromOption "ps.openRings[digit].end" (findRing (ps_rings p) rid) ;;
      Ok (withPS env
            (setOpenRings (setPsRings p (updateRing (ps_rings p) rid (setEnd (ID group))))
               (JSObj.remove (openRings p) d)))
  end.

Definition allSome {A} (l : list (option A)) : option (list A) := mapM id l.

Definition ringDigits_region (env : Env) (s : string) (loc : Locals) : Result (Env * Locals) :=
  let p := pos loc in
  match utils.arrFromBack (groupsChain loc) 1 with
  | None => throw "Syntax Error: unexpected ring digit" (charString (charAt s p)) p
  | Some gid =>
      let obj := utils.parseDigitString (utils.dropString p s) in
      let extractedString := substring p (snd obj) s in
      match allSome (fst obj) with
      | None | Some [] => throw "Syntax Error: invalid syntax" extractedString p
      | Some digits =>
          let duplicates := utils.extractDuplicates digits in
          if negb (bool_decide (duplicates = [])) then
            throw ("Syntax Error: duplicate ring endings found: "
                     +:+ join ", " (map showNat duplicates)) extractedString p
          else
            group0 ←r fromOption "group.ringDigits" (findGroup (molecules (ps env)) gid) ;;
            let group := setRingDigits group0 (ringDigits group0 ++ digits) in
            let env1 :=
              withPS env (setMolecules (ps env)
                            (updateGroup (molecules (ps env)) gid (λ _, group))) in
            env2 ←r foldR (ringDigit group) digits env1 ;;
            Ok (env2, setPos loc (p + String.length extractedString))
      end
  end.

(** Region "Bonding": [this.addBond(bond, that)] on the group objects with the
    IDs [thisID] and [thatID]. *)
Definition bondGroups (env : Env) (thisID thatID : nat) (b : BondType) : Result (Env * bool) :=
  this ←r fromOption "two.addBond" (findGroup (molecules (ps env)) thisID) ;;
  that ←r fromOption "group.ID" (findGroup (molecules (ps env)) thatID) ;;
  let r := addBond this b that in
  Ok (withPS env (setMolecules (ps env)
                    (updateGroup (molecules (ps env)) thisID (λ _, fst r))), snd r).

Definition clearBond (l : Locals) (dontBond : bool) : Locals :=
  mkLocals (pos l) (groupsChain l) None (currentBondPos l) dontBond.

Definition keepBond (l : Locals) (dontBond : bool) : Locals :=
  mkLocals (pos l) (groupsChain l) (currentBond l) (currentBondPos l) dontBond.

Definition bonding (env : Env) (s : string) (parent : option nat) (loc : Locals)
    : Result (Env * Locals) :=
  let gs := groupsChain loc in
  let col := default 0 (currentBondPos loc) in
  if dontBondNext loc then
    match currentBond loc with
    | Some b =>
        throw "Bond Error: attempted to create bond between seperatured structures"
          (bondChar b) col
    | None => Ok (env, keepBond loc false)
    end
  else
    match currentBond loc with
    | Some b =>
        if 2 <=? length gs then
          one ←r fromOption "one" (utils.arrFromBack gs 1) ;;
          two ←r fromOption "two" (utils.arrFromBack gs 2) ;;
          r ←r bondGroups env two one b ;;
          if snd r then Ok (fst r, clearBond loc (dontBondNext loc))
          else throw "Bond Error: attempted to create explicit bond between this and last atom"
                 (bondChar b) col
        else
          match gs, parent with
          | [g0], Some par =>
              r ←r bondGroups env par g0 b ;;
              if snd r then Ok (fst r, clearBond loc (dontBondNext loc))
              else throw "Bond Error: attempted to create explicit bond between this and chain parent atom"
                     (bondChar b) col
          | _, _ =>
              throw ("Syntax Error: unexpected bond '" +:+ bondChar b +:+ "'") (bondChar b) col
          end
    | None =>
        if 2 <=? length gs then
          one ←r fromOption "one" (utils.arrFromBack gs 1) ;;
          two ←r fromOption "two" (utils.arrFromBack gs 2) ;;
          r ←r bondGroups env two one Single ;;
          if snd r then Ok (fst r, loc)
          else throw "Bond Error: attempted to create implicit bond between this and last atom"
                 (charString (charAt s (pos loc))) (pos loc)
        else
          match gs, parent with
          | [g0], Some par =>
              r ←r bondGroups env par g0 Single ;;
              if snd r then Ok (fst r, loc)
              else throw "Bond Error: attempted to create implicit bond between this and chain parent atom"
                     (charString (charAt s (pos loc))) (pos loc)
          | _, _ => Ok (env, loc)
          end
    end.

(** Region "Add to Any Open Rings". *)
Definition addToOpenRings (env : Env) (loc : Locals) : Result Env :=
  rs ←r foldR
          (λ rs entry,
             ring ←r fromOption "ps.openRings[digit].isAromatic" (findRing rs (snd entry)) ;;
             last_ ←r fromOption "groups[groups.length - 1].ID"
                        (utils.arrFromBack (groupsChain loc) 1) ;;
             Ok (updateRing rs (snd entry)
                   (λ r, mkRing (ringID r) (digit r) (start r) (end_ r)
                           (match isAromatic r with None => Some false | a => a end)
                           (members r ++ [last_]))))
          (openRings (ps env)) (ps_rings (ps env)) ;;
  Ok (withPS env (setPsRings (ps env) rs)).

(** What [_tryParse] does with an error of [_parse]: a context line, and the
    column moved by the offset of the text parsed. *)
Definition tryParseCatch {A} (text : string) (chainDepth indexOffset : nat) (r : Result A)
    : Result A :=
  match r with
  | Err (Adv e) =>
      Err (Adv (mkAdvError (message e) (errSource e)
                  ((λ c, Z.of_nat indexOffset + c)%Z <$> columnNumber e)
                  (("Error whilst parsing SMILES string " +:+ dq +:+ text +:+ dq
                      +:+ " (chain depth " +:+ showNat chainDepth +:+ "):") :: context e)))
  | _ => r
  end.

Definition initLocals : Locals := mkLocals 0 [] None None false.

(** *** [_parse] and [_tryParse]

    [parseLoop] is the [for] loop of [_parse] from the state [loc] on; a turn
    of the loop and a recursive call for a chain each take one unit of fuel. *)
Fixpoint parseLoop (fuel : nat) (s : string) (parent : option nat)
    (chainDepth indexOffset : nat) (env : Env) (loc : Locals) : Result Env :=
  match fuel with
  | 0 => Err OutOfFuel
  | S fuel' =>
      let continue (x : Env * Locals) :=
        parseLoop fuel' s parent chainDepth indexOffset (fst x) (snd x) in
      let opts := parseOptions (ps env) in
      let p := pos loc in
      if negb (p <? String.length s) then
        (* groups.forEach(g => ps.groupMap[g.ID] = g) *)
        Ok (withPS env
              (setGroupMap (ps env) (fold_left insertKey (groupsChain loc) (groupMap (ps env)))))
      else if enableSeperatedStructures opts && charIs s p "." && (chainDepth =? 0) then
        if dontBondNext loc then
          throw "Syntax Error: expected SMILES, got seperator '.'" "." p
        else
          continue (pushMolecule env,
                    mkLocals (p + 1) (groupsChain loc) (currentBond loc) (currentBondPos loc) true)
      else if charIs s p ">" && (chainDepth =? 0) && (0 <? length (groupsChain loc))
              && enableSeperatedStructures opts && enableReaction opts
              && (if enableMultipleReactions opts then true
                  else length (reactionIndexes (ps env)) <? 2) then
        let ptr := (Z.of_nat (length (molecules (ps env))) - 1)%Z in
        lastMol ←r fromOption "ps.molecules[ptr].groups" (last (molecules (ps env))) ;;
        let nonEmpty := 0 <? length (JSObj.keys (groups lastMol)) in
        let env1 := if nonEmpty then pushMolecule env else env in
        let ptr' := if nonEmpty then ptr else (ptr - 1)%Z in
        continue (withPS env1 (setReactionIndexes (ps env1) (reactionIndexes (ps env1) ++ [ptr'])),
                  mkLocals (p + 1) (groupsChain loc) (currentBond loc) (currentBondPos loc) true)
      else
        x ←r explicitBond env s loc ;;
        let env := fst x in
        let loc := snd x in
        let p := pos loc in
        if charIs s p "{" && (0 <? length (groupsChain loc)) && enableChargeClauses opts then
          y ←r chargeClause env s loc ;; continue y
        else
          let afterAtom (y : Env * Locals) :=
            z ←r bonding (fst y) s parent (snd y) ;;
            env' ←r addToOpenRings (fst z) (snd z) ;;
            continue (env', snd z) in
          if charIs s p "[" && enableInorganicAtoms opts then
            y ←r inorganicAtom env s chainDepth indexOffset loc ;; afterAtom y
          else if charIs s p "(" && enableChains opts then
            let extraction := utils.extractBetweenMatching s "(" ")" p in
            let extracted := fst extraction in
            if negb (snd extraction =? 0) then
              throw ("Syntax Error: unmatched closing parenthesis at position "
                       +:+ showNat p +:+ " '('") (utils.dropString p s) p
            else if String.length extracted =? 0 then
              throw ("Syntax Error: Empty chain at position " +:+ showNat p) "()" p
            else
              match utils.arrFromBack (groupsChain loc) 1 with
              | None =>
                  throw "Syntax Error: unexpected SMILES chain (no parent could be found)"
                    ("(" +:+ extracted +:+ ")") p
              | Some par =>
                  env' ←r insertMessage
                            ("Error whilst parsing chain " +:+ dq +:+ "(" +:+ extracted +:+ ")"
                               +:+ dq +:+ " at position " +:+ showNat p +:+ ": ")
                            (tryParseCatch (smiles (ps env)) (chainDepth + 1) (indexOffset + p + 1)
                               (parseLoop fuel' extracted (Some par) (chainDepth + 1)
                                  (indexOffset + p + 1) env initLocals)) ;;
                  continue (env', setPos loc (p + (String.length extracted + 2)))
              end
          else if (match charAt s p with
                   | Some c => utils.isDigit c || Ascii.eqb c "%"
                   | None => false
                   end) && enableRings opts then
            y ←r ringDigits_region env s loc ;; continue y
          else
            y ←r organicAtom env s chainDepth indexOffset loc ;; afterAtom y
  end.

(** A turn of the loop reads at least one character and a chain is shorter
    than the text around it, so the length of the text bounds the turns and
    the calls on every level. *)
Definition parseFuel (s : string) : nat := 2 * String.length s + 2.

Definition _tryParse (env : Env) (s : string) : Result Env :=
  tryParseCatch (smiles (ps env)) 0 0 (parseLoop (parseFuel s) s None 0 0 env initLocals).

(** *** The checks of [SMILES.parse] after [_tryParse] *)

Definition lastChar (s : string) : string :=
  charString (charAt s (String.length s - 1)).

(** "Incomplete reaction?" *)
Definition checkReaction (s : string) (p : ParsedSMILES) : Result unit :=
  if length (reactionIndexes p) mod 2 =? 1 then
    throw ("Syntax Error: " +:+ dq +:+ ">" +:+ dq +:+ " expected (incomplete reaction SMILES)")
          (lastChar s) (String.length s - 1)
  else Ok tt.

Definition throwAt {A} (msg src : string) (col : option nat) : Result A :=
  Err (Adv (mkAdvError msg src (Z.of_nat <$> col) [])).

(** "Check that rings do not cross structures" *)
Definition checkRingInMolecule (p : ParsedSMILES) (m : Molecule) (rid : nat) : Result unit :=
  ring ←r fromOption "ring.members" (findRing (ps_rings p) rid) ;;
  foldR (λ _ n,
           match JSObj.get (groups m) n with
           | Some _ => Ok tt
           | None =>
               start ←r fromOption "start.toString"
                          (head (members ring) ≫= JSObj.get (groups m)) ;;
               throwAt "Ring Error: ring structure cannot bridge molecules"
                 (Group_toString start) (smilesStringPosition start)
           end)
        (members ring) tt.

Definition checkRingsInMolecules (p : ParsedSMILES) : Result unit :=
  foldR (λ _ m, foldR (λ _ rid, checkRingInMolecule p m rid) (rings m) tt) (molecules p) tt.

(** "Check for open rings" and "Close ring with bonds", for one ring. *)
Definition closeRing (s : string) (p : ParsedSMILES) (rid : nat) : Result ParsedSMILES :=
  ring ←r fromOption "ring.end" (findRing (ps_rings p) rid) ;;
  startGroup ←r fromOption "ps.groupMap[ring.start]" (groupMapGet p (start ring)) ;;
  match end_ ring with
  | None =>
      throwAt ("Ring Error: unclosed ring '" +:+ showNat (digit ring) +:+ "'")
        (utils.dropString (default 0 (smilesStringPosition startGroup)) s)
        (smilesStringPosition startGroup)
  | Some e =>
      endGroup ←r fromOption "group.ID" (groupMapGet p e) ;;
      let b := if default false (isAromatic ring) then Aromatic else Single in
      Ok (setMolecules p
            (updateGroup (molecules p) (start ring) (λ _, fst (addBond startGroup b endGroup))))
  end.

(** The first path of the greatest length:
    [paths.find(path => path.length === Math.max(...paths.map(path => path.length)))]. *)
Definition longestPath (ps : list (list nat)) : option (list nat) :=
  let llen := foldr Nat.max 0 (map length ps) in
  List.find (λ path, length path =? llen) ps.

(** "All lowercase?": the members after the first are as the first is. *)
Definition checkCase (p : ParsedSMILES) (ms : list nat) : Result unit :=
  first ←r fromOption "ps.groupMap[ring.members[0]].isLowercase" (head ms ≫= groupMapGet p) ;;
  foldR (λ _ id,
           g ←r fromOption "ps.groupMap[ring.members[i]].isLowercase" (groupMapGet p id) ;;
           if isLowercase first then
             if isLowercase g then Ok tt
             else throwAt "Syntax Error: expected lowercase ring atom in aromatic ring"
                    (Group_toString g) (smilesStringPosition g)
           else
             if isLowercase g
             then throwAt "Syntax Error: unexpected lowercase atom in ring"
                    (Group_toString g) (smilesStringPosition g)
             else Ok tt)
        (tail ms) tt.

Fixpoint findIndex {A} (f : A → bool) (l : list A) : option nat :=
  match l with
  | [] => None
  | x :: l' => if f x then Some 0 else S <$> findIndex f l'
  end.

Definition setBondType (t : BondType) (b : IBond) : IBond := mkBond t (dest b).

(** "Change all to aromatic bonds": the bond between two consecutive
    members, looked for on the first and then on the second. *)
Definition makeAromatic (p : ParsedSMILES) (ab : nat * nat) : Result ParsedSMILES :=
  a ←r fromOption "a.bonds" (groupMapGet p (fst ab)) ;;
  b ←r fromOption "b.ID" (groupMapGet p (snd ab)) ;;
  match findIndex (λ x, dest x =? ID b) (bonds a) with
  | Some bi =>
      Ok (setMolecules p
            (updateGroup (molecules p) (ID a)
               (λ g, setBonds g (alter (setBondType Aromatic) bi (bonds g)))))
  | None =>
      bi ←r fromOption "b.bonds[bi].bond" (findIndex (λ x, dest x =? ID a) (bonds b)) ;;
      Ok (setMolecules p
            (updateGroup (molecules p) (ID b)
               (λ g, setBonds g (alter (setBondType Aromatic) bi (bonds g)))))
  end.

(** "Check all aromatic bonds" *)
Definition checkAromaticBond (p : ParsedSMILES) (m : Molecule) (ab : nat * nat) : Result unit :=
  a ←r fromOption "a.ID" (groupMapGet p (fst ab)) ;;
  b ←r fromOption "b.ID" (groupMapGet p (snd ab)) ;;
  bs ←r getAllBonds m (ID a) ;;
  bd ←r fromOption "bd.bond" (List.find (λ x, dest x =? ID b) bs) ;;
  if BondType_eqb (bond bd) Aromatic then Ok tt
  else throwAt ("Syntax Error: expected aromatic bond ':' in aromatic ring, got bond '"
                  +:+ bondChar (bond bd) +:+ "'") (Group_toString b) (smilesStringPosition b).

(** The pairs of consecutive entries of a list. *)
Definition consecutive (l : list nat) : list (nat * nat) := zip l (tail l).

(** "Find ring members" and the checks on them, for the ring [rid] of the
    molecule at index [mi]. *)
Definition resolveRing (mi : nat) (p : ParsedSMILES) (rid : nat) : Result ParsedSMILES :=
  mol ←r fromOption "mol" (molecules p !! mi) ;;
  ring ←r fromOption "ring.start" (findRing (ps_rings p) rid) ;;
  e ←r fromOption "ring.end" (end_ ring) ;;
  found ←r pathfind mol (start ring) e (Some (members ring)) ;;
  path ←r fromOption "path.reduce" (longestPath found) ;;
  ms ←r traceBondPath mol (start ring) path ;;
  let p1 := setPsRings p (updateRing (ps_rings p) rid (setMembers ms)) in
  _ ←r checkCase p1 ms ;;
  if default false (isAromatic ring) then
    first ←r fromOption "ps.groupMap[ring.members[0]].isLowercase" (head ms ≫= groupMapGet p1) ;;
    if isLowercase first then foldR makeAromatic (consecutive ms) p1
    else
      mol1 ←r fromOption "mol" (molecules p1 !! mi) ;;
      _ ←r foldR (λ _ ab, checkAromaticBond p1 mol1 ab) (consecutive ms) tt ;;
      Ok p1
  else Ok p1.

Definition resolveRings (p : ParsedSMILES) : Result ParsedSMILES :=
  foldR (λ p mi,
           mol ←r fromOption "mol" (molecules p !! mi) ;;
           foldR (resolveRing mi) (rings mol) p)
        (seq 0 (length (molecules p))) p.

(** "Invalid lowercase groups" *)
Definition checkLowercase (p : ParsedSMILES) : Result unit :=
  foldR (λ _ id,
           group ←r fromOption "group.isLowercase" (groupMapGet p id) ;;
           if isLowercase group
              && negb (existsb (λ ring, existsb (λ mem, mem =? ID group) (members ring))
                         (ps_rings p))
           then throwAt "Syntax Error: unexpected lowercase atom outside of ring structure"
                  (Group_toString group) (smilesStringPosition group)
           else Ok tt)
        (groupMap p) tt.

(** "Add implicit hydrogens?", molecule by molecule. *)
Definition addAllImplicitHydrogens (env : Env) : Result Env :=
  foldR (λ env mi,
           mol ←r fromOption "m" (molecules (ps env) !! mi) ;;
           r ←r addImplicitHydrogens data_vars.organicSubset (nextGroupID env) mol ;;
           Ok (mkEnv (setMolecules (ps env) (<[mi := snd r]> (molecules (ps env))))
                 (fst r) (nextRingID env) (nextMolRef env)))
        (seq 0 (length (molecules (ps env)))) env.

(** "Check bond count" *)
Definition checkAllBondCounts (p : ParsedSMILES) : Result unit :=
  foldR (λ _ m,
           x ←r checkBondCounts data_vars.organicSubset m ;;
           match x with
           | BondsValid => Ok tt
           | BondsInvalid _ _ error => Err (Adv error)
           end)
        (molecules p) tt.

Definition validate (s : string) (env : Env) : Result Env :=
  _ ←r checkReaction s (ps env) ;;
  _ ←r checkRingsInMolecules (ps env) ;;
  p1 ←r foldR (closeRing s) (map ringID (ps_rings (ps env))) (ps env) ;;
  p2 ←r resolveRings p1 ;;
  _ ←r checkLowercase p2 ;;
  env3 ←r (if opt_addImplicitHydrogens (parseOptions p2)
           then addAllImplicitHydrogens (withPS env p2) else Ok (withPS env p2)) ;;
  _ ←r (if checkBondCount (parseOptions p2) then checkAllBondCounts (ps env3) else Ok tt) ;;
  Ok env3.

(** [new ParsedSMILES(smiles, parseOptions)] *)
Definition newParsedSMILES (s : string) (opts : IParseOptions) (molRef : nat) : ParsedSMILES :=
  mkParsedSMILES s opts [] [mkMolecule molRef [] []] [] [] [].

(** The counters of the classes when a parse starts. *)
Record Counters := mkCounters {
  groupCounter : nat;
  ringCounter : nat;
  refCounter : nat
}.

(** [SMILES.parse] once the options of the call are settled: the result, or
    the error thrown.  The last [catch] turns an [AdvError] into an [Error]
    with the same message; the model keeps the [AdvError]. *)
Definition initialEnv (opts : IParseOptions) (ids : Counters) (s : string) : Env :=
  mkEnv (newParsedSMILES s opts (refCounter ids))
    (groupCounter ids) (ringCounter ids) (S (refCounter ids)).

Definition parseWith (opts : IParseOptions) (ids : Counters) (s : string) : Result Env :=
  env1 ←r _tryParse (initialEnv opts ids s) s ;;
  insertMessage ("Error in SMILES '" +:+ s +:+ "'") (validate s env1).

(** *** [ParsedSMILES.removeMolecule] and [ParsedSMILES.generateSMILES] *)

(** [removeMolecule]: the molecule is looked for by identity. *)
Definition removeMolecule (p : ParsedSMILES) (mol : Molecule) : ParsedSMILES * bool :=
  match findIndex (λ m, molRef m =? molRef mol) (molecules p) with
  | None => (p, false)
  | Some i =>
      (mkParsedSMILES (smiles p) (parseOptions p) (groupMap p)
         (delete i (molecules p))
         (openRings p)
         (List.filter (λ ring, negb (bool_decide (ringID ring ∈ rings mol))) (ps_rings p))
         (map (λ ri, if (Z.of_nat i <=? ri)%Z then (ri - 1)%Z else ri) (reactionIndexes p)),
       true)
  end.

Definition separator (p : ParsedSMILES) (i : nat) : string :=
  match findIndex (λ n, (n =? Z.of_nat i)%Z) (reactionIndexes p) with
  | None => "."
  | Some j =>
      if bool_decide (reactionIndexes p !! (j + 1) = Some (Z.of_nat i)) then ">>" else ">"
  end.

Definition generateSMILES (p : ParsedSMILES) (showImplicits : bool) : Result string :=
  foldR (λ text im,
           t ←r Molecule_generateSMILES (snd im) showImplicits ;;
           Ok (text +:+ t
                 +:+ (if fst im <? length (molecules p) - 1 then separator p (fst im)
                      else EmptyString)))
        (imap pair (molecules p)) EmptyString.

(** *** [SMILES.parse] and the stored options

    The options are objects in a store: the instance holds a reference to its
    [parseOptions], a parse copies that object into a fresh one, writes the
    overrides of the call into the copy and hands the copy to the result. *)
Abbreviation OptionsObject := (gmap string bool).
Abbreviation Store := (gmap nat (gmap string bool)).

Record SMILES := mkSMILES {
  parseOptionsRef : nat
}.

(** An option read from an options object; a missing key is [undefined]. *)
Definition option_ (o : OptionsObject) (key : string) : bool := default false (o !! key).

Definition readOptions (o : OptionsObject) : IParseOptions :=
  mkParseOptions (option_ o "enableSeperatedStructures") (option_ o "enableReaction")
    (option_ o "enableMultipleReactions") (option_ o "enableAromaticity")
    (option_ o "enableChargeClauses") (option_ o "cumulativeCharge")
    (option_ o "enableInorganicAtoms") (option_ o "enableRadicals")
    (option_ o "showImplcitAtomicMass") (option_ o "enableChains") (option_ o "enableRings")
    (option_ o "addImplicitHydrogens") (option_ o "checkBondCount").

(** [for (let key in parseOptionsOverride) parseOptions[key] = ...] on the
    object at [l]. *)
Definition overrideOptions (st : Store) (l : nat) (override : option OptionsObject) : Store :=
  match override with
  | None => st
  | Some ovr =>
      map_fold (λ key v st', alter (λ o : OptionsObject, <[key := v]> o) l st') st ovr
  end.

Definition SMILES_parse (st : Store) (this : SMILES) (ids : Counters) (s : string)
    (override : option OptionsObject) : Store * Result Env :=
  (* const parseOptions = { ...this.parseOptions } *)
  let l := fresh (dom st) in
  let st1 := <[l := default ∅ (st !! parseOptionsRef this)]> st in
  let st2 := overrideOptions st1 l override in
  (st2, parseWith (readOptions (default ∅ (st2 !! l))) ids s).

(** The molecules of the reagent zone of the first reaction: [render] draws
    the reagent brackets around the molecules from [reactionIndexes[0] + 1] to
    [reactionIndexes[1]], and none when the two indexes are equal. *)
Definition reagentZone (p : ParsedSMILES) : list Molecule :=
  match reactionIndexes p with
  | r0 :: r1 :: _ =>
      map snd (List.filter (λ im, (r0 <? Z.of_nat (fst im))%Z && (Z.of_nat (fst im) <=? r1)%Z)
                 (imap pair (molecules p)))
  | _ => []
  end.

(** ** Bond records as objects

    [getAllBonds] returns copies of the bond records ([{ ...bond }]).  To speak
    about that, bond records live in a store and the [bonds] array of a group
    holds references. *)
Module Refs.
Abbreviation BondStore := (gmap nat IBond).

(** [{ ...bond }] with the destination set by [f]: a new object. *)
Definition copyBond (f : IBond → IBond) (st : BondStore * list nat) (r : nat)
    : option (BondStore * list nat) :=
  b ← fst st !! r;
  let l := fresh (dom (fst st)) in
  Some (<[l := f b]> (fst st), snd st ++ [l]).

Fixpoint foldOpt {A S} (f : S → A → option S) (l : list A) (s : S) : option S :=
  match l with
  | [] => Some s
  | a :: l' => s' ← f s a; foldOpt f l' s'
  end.

(** The body of the loop over the other groups. *)
Definition copyReversed (groupID : nat) (st : BondStore * list nat) (entry : nat * list nat)
    : option (BondStore * list nat) :=
  if fst entry =? groupID then Some st
  else
    foldOpt (λ st' r,
               b ← fst st' !! r;
               if dest b =? groupID
               then copyBond (λ b, mkBond (bond b) (fst entry)) st' r
               else Some st')
            (snd entry) st.

(** [getAllBonds] on a store [h] and the bond arrays [gs] of the groups:
    the store after the call and the references returned. *)
Definition getAllBonds (h : BondStore) (gs : list (nat * list nat)) (groupID : nat)
    : option (BondStore * list nat) :=
  own ← JSObj.get gs groupID;
  st ← foldOpt (copyBond (λ b, b)) own (h, []);
  foldOpt (copyReversed groupID) gs st.

(** The bond arrays read through the store. *)
Definition view (h : BondStore) (gs : list (nat * list nat)) : list (nat * list IBond) :=
  map (λ e, (fst e, omap (λ r, h !! r) (snd e))) gs.

(** Every reference held by a group is a record of the store. *)
Definition allocated (h : BondStore) (gs : list (nat * list nat)) : Prop :=
  ∀ e r, e ∈ gs → r ∈ snd e → is_Some (h !! r).

(** The state [st] of a copying loop started on the store [h]: the store has
    only grown, and the references collected are new, distinct and hold the
    records [bs]. *)
Definition copies (h : BondStore) (st : BondStore * list nat) (bs : list IBond) : Prop :=
  h ⊆ fst st
  ∧ NoDup (snd st)
  ∧ (∀ l, l ∈ snd st → h !! l = None)
  ∧ Forall2 (λ l b, fst st !! l = Some b) (snd st) bs.
End Refs.

(** ** Notions used in the statements *)

(** Every entry of [groups] is stored under the ID of the group. *)
Definition keysMatch (m : Molecule) : Prop :=
  ∀ e, e ∈ groups m → ID (snd e) = fst e.

(** The atoms the valence rules apply to. *)
Definition eligible (tbl : list (string * list nat)) (g : Group) : Prop :=
  charge g = 0%Z ∧ isRadical g = false ∧ inOrganicSubset tbl g = true.

(** The weight of the atom is none of the valences its element allows. *)
Definition violates (tbl : list (string * list nat)) (m : Molecule) (g : Group) : Prop :=
  eligible tbl g ∧
  ∃ el vs w, firstElement g = Some el ∧ assoc tbl el = Some vs
             ∧ getBondCount m (ID g) = Ok w ∧ ∀ n, n ∈ vs → 2 * n ≠ w.

(** The weight the bonds stored on other groups give to the group [k]. *)
Definition incoming (k : nat) (gs : list (nat * Group)) : nat :=
  list_sum (map (λ e, if fst e =? k then 0
                      else sumBonds (List.filter (λ b, dest b =? k) (bonds (snd e))))
                gs).

(** Every group is the value of [groups] at its own ID:
    [this.groups[group.ID] === group]. *)
Definition storedUnderID (m : Molecule) : Prop :=
  ∀ e, e ∈ groups m → JSObj.get (groups m) (ID (snd e)) = Some (snd e).

(** The total bond-count weight of a group, in half units: the weights of
    the bonds stored on the group itself and of the bonds stored on the
    other groups that lead to it. *)
Definition totalWeight (m : Molecule) (g : Group) : nat :=
  sumBonds (bonds g) + incoming (ID g) (groups m).

(** The atom breaks the valence rule: the rules apply to it, its element
    has a first valence ([isNaN(organicSubset[el][0])] is false), and its
    total weight is none of the valences the element allows. *)
Definition breaksValence (tbl : list (string * list nat)) (m : Molecule) (g : Group) : Prop :=
  eligible tbl g ∧
  ∃ el vs, firstElement g = Some el ∧ assoc tbl el = Some vs ∧ vs ≠ []
           ∧ ∀ n, n ∈ vs → 2 * n ≠ totalWeight m g.

(** The groups of a molecule when the counter of the [Group] class is [c]:
    keys ascending, every group stored under its ID, and every ID, stored or
    bonded to, below the counter. *)
Definition wellFormedBelow (c : nat) (gs : list (nat * Group)) : Prop :=
  StronglySorted lt (JSObj.keys gs)
  ∧ (∀ k, c ≤ k → JSObj.get gs k = None)
  ∧ (∀ k g, JSObj.get gs k = Some g → ID g = k ∧ ∀ b, b ∈ bonds g → dest b < c).

(** What [addImplicitHydrogens] does for an atom [g], stored under [gid], that
    the valence rules apply to.  [m] is the molecule the weight is taken in,
    [gs'] the groups afterwards, [first] the counter of the [Group] class when
    the hydrogens of the atom are created and [next] the counter after. *)
Definition hydrogenOutcome (tbl : list (string * list nat)) (m : Molecule) (gid : nat)
    (g : Group) (first next : nat) (gs' : list (nat * Group)) : Prop :=
  ∃ el vs w,
    firstElement g = Some el ∧ assoc tbl el = Some vs ∧ getBondCount m gid = Ok w
    ∧ match List.find (λ n, w <=? 2 * n) vs with
      | Some n =>
          first + hydrogenRuns (2 * n - w) ≤ next
          ∧ JSObj.get gs' gid
            = Some (setBonds g (bonds g ++ map (mkBond Single)
                                            (seq first (hydrogenRuns (2 * n - w)))))
          ∧ ∀ h, h ∈ seq first (hydrogenRuns (2 * n - w)) →
                 JSObj.get gs' h = Some (implicitHydrogen h (chainDepth g + 1))
      | None => JSObj.get gs' gid = Some g
      end.

(** The order of the Hill system on the entries of elements other than carbon
    and hydrogen: by symbol, then by charge. *)
Definition restLe (a b : IAtomCount) : Prop :=
  String.ltb (atom a) (atom b) = true ∨ (atom a = atom b ∧ chargeLe a b).

(** Charges of one kind: all numbers or all [NaN]. *)
Definition uniformCharges (l : list IAtomCount) : Prop :=
  Forall (λ a, is_Some (ac_charge a)) l ∨ Forall (λ a, ac_charge a = None) l.

(** Carbon entries by charge, then hydrogen entries by charge, then the other
    elements by symbol and charge. *)
Definition HillOrdered (l : list IAtomCount) : Prop :=
  ∃ carbons hydrogens rest,
    l = carbons ++ hydrogens ++ rest
    ∧ Forall (λ a, atom a = "C") carbons ∧ StronglySorted chargeLe carbons
    ∧ Forall (λ a, atom a = "H") hydrogens ∧ StronglySorted chargeLe hydrogens
    ∧ Forall (λ a, atom a ≠ "C" ∧ atom a ≠ "H") rest ∧ StronglySorted restLe rest.

(** All stored bond types and all element symbols of a parse result. *)
Definition bondTypes (p : ParsedSMILES) : list BondType :=
  flat_map (λ m, flat_map (λ e, map bond (bonds (snd e))) (groups m)) (molecules p).

Definition atomSymbols (p : ParsedSMILES) : list string :=
  flat_map (λ m, map (λ e, getElementString (snd e)) (groups m)) (molecules p).

(** Options with every feature of the notation enabled, hydrogens added and
    bond counts checked; the counters of a program that has created nothing
    yet. *)
Definition allEnabled : IParseOptions :=
  mkParseOptions true true true true true false true true false true true true true.

Definition freshCounters : Counters := mkCounters 0 0 0.

(** The options of [allEnabled] without the hydrogens and the bond count
    check: the graph as the text gives it. *)
Definition bareGraph : IParseOptions :=
  mkParseOptions true true true true true false true true false true true false false.

(** A bare atom of an element, as the parser builds it at depth 0, with the
    given bonds. *)
Definition atomOf (el : string) (id : nat) (bs : list IBond) : Group :=
  setBonds (addElement (newGroup id 0) el 1) bs.

(** The heavy atoms of ethanol, C-C-O, and two carbons joined by one aromatic
    bond. *)
Definition ethanolSkeleton : Molecule :=
  mkMolecule 0
    [(0, atomOf "C" 0 [mkBond Single 1]); (1, atomOf "C" 1 [mkBond Single 2]);
     (2, atomOf "O" 2 [])] [].

Definition aromaticPair : Molecule :=
  mkMolecule 0 [(0, atomOf "C" 0 [mkBond Aromatic 1]); (1, atomOf "C" 1 [])] [].

(** The state of a parse of [s] when the loop of [_parse] has read the first
    [n] characters, for a prefix the loop reads without error. *)
Definition stateAfter (s : string) (n : nat) : Env :=
  match parseLoop (parseFuel s) (substring 0 n s) None 0 0
          (initialEnv allEnabled freshCounters s) initLocals with
  | Ok env => env
  | Err _ => initialEnv allEnabled freshCounters s
  end.

(** Parse, write the result back as text, parse the text. *)
Definition reparse (opts : IParseOptions) (s : string) : Result (Env * string * Env) :=
  env1 ←r parseWith opts freshCounters s ;;
  text ←r generateSMILES (ps env1) false ;;
  env2 ←r parseWith opts (mkCounters (nextGroupID env1) (nextRingID env1) (nextMolRef env1)) text ;;
  Ok (env1, text, env2).

(** ** More of [Molecule] and [ParsedSMILES] *)

(** The argument of [new Molecule(...)]: nothing, an array of groups, or an
    object of groups by ID. *)
Inductive MoleculeArg :=
| NoGroups
| GroupArray (gs : list Group)
| GroupObject (o : list (nat * Group)).

(** The keys a JavaScript object keeps in ascending order: the array indices,
    the integers below 2^32 - 1. *)
Definition isArrayIndex (k : nat) : bool := (N.of_nat k <? 4294967295)%N.

(** [obj[k] = v] for any key.  A key that exists keeps its place.  A new
    array index goes to its place in the ascending order of the array
    indices, which come first; any other new key goes to the end, after the
    keys created before it.  On array indices this is [JSObj.set]. *)
Fixpoint setProperty {V} (o : list (nat * V)) (k : nat) (v : V) : list (nat * V) :=
  match o with
  | [] => [(k, v)]
  | (k', v') :: o' =>
      if k' =? k then (k, v) :: o'
      else if isArrayIndex k && (negb (isArrayIndex k') || (k <? k'))
      then (k, v) :: (k', v') :: o'
      else (k', v') :: setProperty o' k v
  end.

(** The constructor of [Molecule]; [ref] is the identity of the new object.
    An array is reduced into an object, [obj[group.ID] = group]. *)
Definition newMolecule (ref : nat) (arg : MoleculeArg) : Molecule :=
  mkMolecule ref
    match arg with
    | NoGroups => []
    | GroupArray gs => fold_left (λ obj group, setProperty obj (ID group) group) gs []
    | GroupObject o => o
    end
    [].

(** A carbon whose ID is 7, handed to the constructor in an object under the
    key 5: [new Molecule({ 5: carbon })]. *)
Definition misfiledCarbon : Molecule :=
  newMolecule 0 (GroupObject [(5, atomOf "C" 7 [])]).

(** [getBond]: the record stored on [id1] that leads to [id2], otherwise the
    one stored on [id2] that leads to [id1], otherwise [null]. *)
Definition getBond (m : Molecule) (id1 id2 : nat) : Result (option IBond) :=
  g1 ←r fromOption "this.groups[id1].bonds" (JSObj.get (groups m) id1) ;;
  match List.find (λ b, dest b =? id2) (bonds g1) with
  | Some b => Ok (Some b)
  | None =>
      g2 ←r fromOption "this.groups[id2].bonds" (JSObj.get (groups m) id2) ;;
      Ok (List.find (λ b, dest b =? id1) (bonds g2))
  end.

(** [severBond]: [bonds.splice(i, 1)] on the group that stores the record;
    the molecule afterwards and the value returned. *)
Definition severBond (m : Molecule) (id1 id2 : nat) : Result (Molecule * bool) :=
  g1 ←r fromOption "this.groups[id1].bonds" (JSObj.get (groups m) id1) ;;
  match findIndex (λ b, dest b =? id2) (bonds g1) with
  | Some i =>
      Ok (setGroups m (JSObj.set (groups m) id1 (setBonds g1 (delete i (bonds g1)))), true)
  | None =>
      g2 ←r fromOption "this.groups[id2].bonds" (JSObj.get (groups m) id2) ;;
      match findIndex (λ b, dest b =? id1) (bonds g2) with
      | Some i =>
          Ok (setGroups m (JSObj.set (groups m) id2 (setBonds g2 (delete i (bonds g2)))), true)
      | None => Ok (m, false)
      end
  end.

(** The weight the entry stored under [k'] gives to the group [k]. *)
Definition contribution (k k' : nat) (g : Group) : nat :=
  if k' =? k then 0 else sumBonds (List.filter (λ b, dest b =? k) (bonds g)).

(** *** [removeUnbondedGroups] *)

Record SweepState := mkSweepState {
  sw_stack : list nat;          (* top first *)
  sw_doneGroups : list nat;
  sw_bondedGroups : list nat
}.

(** One turn of the [while] loop of [removeUnbondedGroups]; [None] when the
    stack is empty.  The [for] loop runs from the last bond down, so the
    destination of the first bond not yet done ends on top. *)
Definition sweepStep (m : Molecule) (s : SweepState) : option (Result SweepState) :=
  match sw_stack s with
  | [] => None
  | gid :: below =>
      Some (
        if bool_decide (gid ∈ sw_doneGroups s) then
          Ok (mkSweepState below (sw_doneGroups s) (sw_bondedGroups s))
        else
          bs ←r getAllBonds m gid ;;
          let doneGroups := gid :: sw_doneGroups s in
          let pushed := map dest (filter (λ b, dest b ∉ doneGroups) bs) in
          Ok (mkSweepState (pushed ++ below) doneGroups (sw_bondedGroups s ++ rev pushed)))
  end.

Fixpoint sweepLoop (fuel : nat) (m : Molecule) (s : SweepState) : Result (list nat) :=
  match sweepStep m s with
  | None => Ok (sw_bondedGroups s)
  | Some r =>
      match fuel with
      | 0 => Err OutOfFuel
      | S fuel' => s' ←r r ;; sweepLoop fuel' m s'
      end
  end.

(** A group is explored once and pushes at most one entry for each of its
    bonds; every turn pops one entry. *)
Definition sweepFuel (m : Molecule) : nat :=
  list_sum (map (λ e, length (snd e)) (allBondsMap m)) + 2.

(** [removeUnbondedGroups]: the molecule afterwards and the object of the
    discarded groups. *)
Definition removeUnbondedGroups (m : Molecule) (startID : nat)
    : Result (Molecule * list (nat * Group)) :=
  bondedGroups ←r sweepLoop (sweepFuel m) m (mkSweepState [startID] [] [startID]) ;;
  Ok (setGroups m (filter (λ e, fst e ∈ bondedGroups) (groups m)),
      filter (λ e, fst e ∉ bondedGroups) (groups m)).

(** The groups bonded to [startID], directly or through other groups: the
    closure of [startID] under the bonds [getAllBonds] lists. *)
Inductive connected (m : Molecule) (startID : nat) : nat → Prop :=
| connected_start : connected m startID startID
| connected_bond (a : nat) (bs : list IBond) (b : IBond) :
    connected m startID a → getAllBonds m a = Ok bs → b ∈ bs →
    connected m startID (dest b).

(** The path under construction: the bond indexes pushed so far lead from
    the start through the groups on the stack. *)
Definition onTrack (m : Molecule) (startID : nat) (availableGroups : option (list nat))
    (cur grs : list nat) : Prop :=
  grs = [] ∨
  ∃ rest, traceFrom m startID (rev cur) = Ok rest
          ∧ rev grs = startID :: rest
          ∧ Forall (λ g, isAvailable availableGroups g = true) rest.

(** *** [ParsedSMILES.addMolecule] *)

(** [arr.splice(pos, 0, x)] for an integer [pos]: a negative position counts
    from the end, and the position is clamped to the array. *)
Definition spliceIn {A} (arr : list A) (pos : Z) (x : A) : list A :=
  let len := Z.of_nat (length arr) in
  let at_ := Z.to_nat (if (pos <? 0)%Z then Z.max (len + pos) 0 else Z.min pos len) in
  take at_ arr ++ x :: drop at_ arr.

(** [findIndex] with a callback that reads the index. *)
Fixpoint findIndexFrom {A} (f : nat → A → bool) (i : nat) (l : list A) : option nat :=
  match l with
  | [] => None
  | x :: l' => if f i x then Some i else findIndexFrom f (S i) l'
  end.

(** [addMolecule(mol, pos)]; [molRings] are the [Ring] objects of
    [mol.rings], [pos] an integer when given.  With no markers
    [reactionIndexes[0] + 1] is [NaN] and the comparison fails. *)
Definition addMolecule (p : ParsedSMILES) (mol : Molecule) (molRings : list Ring)
    (pos : option Z) : ParsedSMILES :=
  let pos := default (Z.of_nat (length (molecules p)) - 1)%Z pos in
  let ri := reactionIndexes p in
  let indexes :=
    if match ri with r0 :: _ => (pos <=? r0 + 1)%Z | [] => false end then
      map (λ i, (i + 1)%Z) ri
    else
      let j :=
        match findIndexFrom
                (λ j rj, (rj <=? pos)%Z
                         && match ri !! (j + 1) with
                            | None => true
                            | Some next => (pos <? next)%Z
                            end) 0 ri with
        | Some k => 1 + k
        | None => 0
        end in
      imap (λ i _, if i <=? j then (Z.of_nat i + 1)%Z else Z.of_nat i) ri in
  mkParsedSMILES (smiles p) (parseOptions p) (groupMap p)
    (spliceIn (molecules p) pos mol) (openRings p) (ps_rings p ++ molRings) indexes.

(** A ring of three carbons as the loop of [_parse] and the closing of rings
    leave it: the ring digit 1 opened on group 0 and closed on group 2, the
    members still the groups in the order read. *)
Definition threeRing : ParsedSMILES :=
  mkParsedSMILES "C1CC1" bareGraph [0; 1; 2]
    [mkMolecule 0
       [(0, setRingDigits (atomOf "C" 0 [mkBond Single 1; mkBond Single 2]) [1]);
        (1, atomOf "C" 1 [mkBond Single 2]);
        (2, setRingDigits (atomOf "C" 2 []) [1])]
       [0]]
    [] [mkRing 0 1 0 (Some 2) (Some false) [0; 1; 2]] [].

(** The number of hydrogens [addImplicitHydrogens] creates for the group [g]
    stored under [gid], with the weights of the molecule [m]: none unless the
    valence rules apply to [g] and one of its valences is large enough. *)
Definition hydrogensNeeded (tbl : list (string * list nat)) (m : Molecule) (gid : nat)
    (g : Group) : nat :=
  let w := sumBonds (bonds g) + incoming gid (groups m) in
  if negb (isRadical g) && inOrganicSubset tbl g && (charge g =? 0)%Z then
    match firstElement g ≫= assoc tbl with
    | Some vs =>
        match List.find (λ n, w <=? 2 * n) vs with
        | Some n => hydrogenRuns (2 * n - w)
        | None => 0
        end
    | None => 0
    end
  else 0.

(** A later state of one parse: the text and the options are the same and
    no counter has gone back. *)
Definition laterState (env env' : Env) : Prop :=
  smiles (ps env') = smiles (ps env)
  ∧ parseOptions (ps env') = parseOptions (ps env)
  ∧ nextGroupID env ≤ nextGroupID env'
  ∧ nextRingID env ≤ nextRingID env'
  ∧ nextMolRef env ≤ nextMolRef env'.

(** What the checks of [SMILES.parse] leave as it is in a parse result: the
    text, the options, the group map, the open rings, the reaction markers,
    the number of molecules, and which rings there are and where. *)
Definition sameShape (p p' : ParsedSMILES) : Prop :=
  smiles p' = smiles p
  ∧ parseOptions p' = parseOptions p
  ∧ groupMap p' = groupMap p
  ∧ openRings p' = openRings p
  ∧ reactionIndexes p' = reactionIndexes p
  ∧ map ringID (ps_rings p') = map ringID (ps_rings p)
  ∧ map rings (molecules p') = map rings (molecules p).

(** No ring anywhere in a parse result. *)
Definition noRings (p : ParsedSMILES) : Prop :=
  ps_rings p = [] ∧ openRings p = [] ∧ Forall (λ rs, rs = []) (map rings (molecules p)).

(** What the loop of [_parse] keeps true of the features that are switched
    off: without separated structures there is one molecule and no reaction
    marker, without reactions no reaction marker, without rings no ring. *)
Definition featuresOff (env : Env) : Prop :=
  (enableSeperatedStructures (parseOptions (ps env)) = false →
   length (molecules (ps env)) = 1 ∧ reactionIndexes (ps env) = [])
  ∧ (enableReaction (parseOptions (ps env)) = false → reactionIndexes (ps env) = [])
  ∧ (enableRings (parseOptions (ps env)) = false → noRings (ps env)).

(** The regions of the loop that read atoms, bonds and charges leave the
    number of molecules and the reaction markers alone, and create no ring
    where there is none. *)
Definition sameReaction (env env' : Env) : Prop :=
  length (molecules (ps env')) = length (molecules (ps env))
  ∧ reactionIndexes (ps env') = reactionIndexes (ps env)
  ∧ (noRings (ps env) → noRings (ps env')).

(** Every molecule of a parse in progress is well formed for the counter of
    the [Group] class. *)
Definition wellFormedState (env : Env) : Prop :=
  Forall (wellFormedBelow (nextGroupID env)) (map groups (molecules (ps env))).

(** The items of the stack of [generateSMILES] that are not handled yet. *)
Definition unhandled (stack : list StackItem) : nat :=
  length (List.filter (λ item, negb (si_handled item)) stack).

(** The IDs of the rings of a parse in progress: ascending in the order the
    rings were opened, and below the counter of the [Ring] class. *)
Definition ringIDsFresh (env : Env) : Prop :=
  StronglySorted lt (map ringID (ps_rings (ps env)))
  ∧ Forall (λ id, id < nextRingID env) (map ringID (ps_rings (ps env))).

(** * Properties *)

(** ** Reaction SMILES *)

(** C7. Parsing ["CC>>CCO"] with reactions enabled (the code asks for
    [enableSeperatedStructures] together with [enableReaction]) succeeds,
    records the two boundary markers and leaves the reagent zone between them
    empty.  Molecules without their hydrogens do not pass the bond count
    check, so the check is on only together with the implicit hydrogens. *)
Theorem parse_reaction_CC_CCO (opts : IParseOptions) :
  enableSeperatedStructures opts = true →
  enableReaction opts = true →
  (checkBondCount opts = true → opt_addImplicitHydrogens opts = true) →
  ∃ env, parseWith opts freshCounters "CC>>CCO" = Ok env
         ∧ length (reactionIndexes (ps env)) = 2
         ∧ reagentZone (ps env) = []
         ∧ map (λ m, map (λ e, getElementString (snd e))
                         (List.filter (λ e, negb (isImplicit (snd e))) (groups m)))
               (molecules (ps env)) = [["C"; "C"]; ["C"; "C"; "O"]].
Proof.
  destruct opts as [sep rea multi aro chg cum ino rad mass cha rin hyd chk].
  simpl. intros -> -> Hchk.
  destruct multi, mass, hyd, chk; try (specialize (Hchk eq_refl); discriminate);
    eexists; (split; [vm_compute; reflexivity |]); vm_compute; auto.
Qed.

Lemma parse_reaction_CC_CCO_witness :
  ∃ env, parseWith allEnabled freshCounters "CC>>CCO" = Ok env
         ∧ length (reactionIndexes (ps env)) = 2
         ∧ reagentZone (ps env) = []
         ∧ map (λ m, map (λ e, getElementString (snd e))
                         (List.filter (λ e, negb (isImplicit (snd e))) (groups m)))
               (molecules (ps env)) = [["C"; "C"]; ["C"; "C"; "O"]].
Proof.
  apply (parse_reaction_CC_CCO allEnabled); reflexivity.
Defined.

(** ** Ring resolution *)

(** C2, at the failing input.  For ["C1C2CC2C1"] the resolution pass leaves
    ring 1 (from group 0 to group 4) with the members 0 1 2 3 1 0 4: the walk
    of [pathfind] goes back through the bond 3-1 of ring 2 and visits groups 1
    and 0 twice.  The list is not a simple path, and it is longer than the
    simple path 0 1 2 3 4 through the provisional members. *)
Theorem resolved_ring_not_simple :
  ∃ env ring,
    parseWith allEnabled freshCounters "C1C2CC2C1" = Ok env
    ∧ head (ps_rings (ps env)) = Some ring
    ∧ digit ring = 1 ∧ start ring = 0 ∧ end_ ring = Some 4
    ∧ members ring = [0; 1; 2; 3; 1; 0; 4]
    ∧ ¬ NoDup (members ring).
Proof.
  eexists. eexists. split; [vm_compute; reflexivity |].
  simpl. repeat split.
  intros Hnd. apply NoDup_cons in Hnd as [Hin _]. apply Hin. set_solver.
Qed.

(** ** Round trip *)

(** C1, at the failing input.  ["C(C1)=CC1"] (cyclobutene) is accepted; it is
    written back as ["CC%1C%1C"], where the double bond is gone: the walk of
    [generateSMILES] reaches group 3 over the ring closure bond and leaves the
    bond 0=2 out, and the ring digits still stand where the input had them.
    The text parses again, to a graph without double bond. *)
Theorem roundtrip_loses_double_bond :
  ∃ env1 env2,
    reparse allEnabled "C(C1)=CC1" = Ok (env1, "CC%1C%1C", env2)
    ∧ Double ∈ bondTypes (ps env1)
    ∧ (Double ∉ bondTypes (ps env2))
    ∧ ¬ (bondTypes (ps env1) ≡ₚ bondTypes (ps env2))
    ∧ ¬ (atomSymbols (ps env1) ≡ₚ atomSymbols (ps env2)).
Proof.
  eexists. eexists. split; [vm_compute; reflexivity |].
  assert (Hin : ∀ l : list BondType, bool_decide (Double ∈ l) = true → Double ∈ l)
    by (intros l; apply bool_decide_eq_true_1).
  assert (Hout : ∀ l : list BondType, bool_decide (Double ∈ l) = false → Double ∉ l)
    by (intros l; apply bool_decide_eq_false_1).
  split; [apply Hin; vm_compute; reflexivity |].
  split; [apply Hout; vm_compute; reflexivity |].
  split.
  - intros Hp. apply (Permutation_in Double) in Hp.
    + apply list_elem_of_In in Hp. revert Hp. apply Hout. vm_compute. reflexivity.
    + apply list_elem_of_In, Hin. vm_compute. reflexivity.
  - intros Hp. apply Permutation_length in Hp. vm_compute in Hp. discriminate.
Qed.

(** ** The aromatic bond symbol *)

Lemma findRing_updateRing_ne rs id id' f :
  (∀ r, ringID (f r) = ringID r) → id ≠ id' →
  findRing (updateRing rs id f) id' = findRing rs id'.
Proof.
  intros Hf Hne. induction rs as [| r rs IH]; [done |].
  simpl. destruct (ringID r =? id) eqn:E.
  - rewrite Hf. apply Nat.eqb_eq in E.
    destruct (ringID r =? id') eqn:E'; [apply Nat.eqb_eq in E'; congruence | exact IH].
  - destruct (ringID r =? id'); [done | exact IH].
Qed.

Lemma findRing_updateRing_eq rs id f r :
  (∀ r, ringID (f r) = ringID r) → findRing rs id = Some r →
  findRing (updateRing rs id f) id = Some (f r).
Proof.
  intros Hf. induction rs as [| r0 rs IH]; [done |].
  simpl. destruct (ringID r0 =? id) eqn:E.
  - intros [= ->]. by rewrite Hf, E.
  - intros H. rewrite E. by apply IH.
Qed.

(** The marking loop stops with an error at a ring known not to be
    aromatic. *)
Lemma markAromatic_rejects col open rs :
  (∃ e r, e ∈ open ∧ findRing rs (snd e) = Some r ∧ isAromatic r = Some false) →
  isOk (foldR (markAromatic col) open rs) = false.
Proof.
  revert rs. induction open as [| e0 open IH]; intros rs (e & r & Hin & Hfind & Hflag).
  { by apply elem_of_nil in Hin. }
  simpl. unfold markAromatic at 1.
  destruct (findRing rs (snd e0)) as [r0 |] eqn:E0; simpl; [| done].
  case_bool_decide as Hr0; simpl; [done |].
  apply IH. apply elem_of_cons in Hin as [-> | Hin].
  - congruence.
  - exists e, r. split; [done |]. split; [| done].
    rewrite findRing_updateRing_ne; [done | done |].
    intros Heq. rewrite Heq in E0. congruence.
Qed.

(** Without such a ring the loop ends and every open ring is aromatic. *)
Lemma markAromatic_marks col open rs :
  (∀ e, e ∈ open → ∃ r, findRing rs (snd e) = Some r ∧ isAromatic r ≠ Some false) →
  ∃ rs', foldR (markAromatic col) open rs = Ok rs'
         ∧ (∀ e, e ∈ open → ∃ r', findRing rs' (snd e) = Some r' ∧ isAromatic r' = Some true)
         ∧ (∀ id r, findRing rs id = Some r → isAromatic r = Some true →
                    ∃ r', findRing rs' id = Some r' ∧ isAromatic r' = Some true).
Proof.
  revert rs. induction open as [| e0 open IH]; intros rs Hall.
  { exists rs. split; [done |]. split; [by intros e ?%elem_of_nil | eauto]. }
  simpl. unfold markAromatic at 1.
  destruct (Hall e0) as (r0 & E0 & Hr0); [by left |].
  rewrite E0. simpl. rewrite bool_decide_eq_false_2 by done. simpl.
  set (rs1 := updateRing rs (snd e0) (setAromatic true)).
  assert (Hkeep : ∀ id r, findRing rs id = Some r →
                  ∃ r1, findRing rs1 id = Some r1
                        ∧ (id = snd e0 ∨ isAromatic r = Some true → isAromatic r1 = Some true)
                        ∧ (isAromatic r ≠ Some false → isAromatic r1 ≠ Some false)).
  { intros id r Hr. destruct (decide (snd e0 = id)) as [<- | Hne].
    - exists (setAromatic true r). split; [by apply findRing_updateRing_eq |]. by split.
    - exists r. split; [unfold rs1; by rewrite findRing_updateRing_ne |].
      split; [intros [? | ?]; congruence | done]. }
  destruct (IH rs1) as (rs' & Hfold & Hopen & Htrue).
  { intros e He. destruct (Hall e) as (r & Hr & Hflag); [by right |].
    destruct (Hkeep _ _ Hr) as (r1 & Hr1 & _ & Hne). eauto. }
  exists rs'. split; [done |]. split.
  - intros e [-> | He]%elem_of_cons; [| by apply Hopen].
    destruct (Hkeep _ _ E0) as (r1 & Hr1 & Ht & _). apply (Htrue _ _ Hr1). apply Ht. by left.
  - intros id r Hr Hflag. destruct (Hkeep _ _ Hr) as (r1 & Hr1 & Ht & _).
    apply (Htrue _ _ Hr1). apply Ht. by right.
Qed.

(** C3, as the code has it.  With aromatic bonds enabled, the symbol [":"] at
    the cursor is an error when no ring is open and when an open ring is known
    not to be aromatic (its flag is [false]: an atom was added to it before
    any aromatic bond); when a character follows the symbol, a ring is open
    and no open ring has the flag [false], the symbol becomes the pending bond
    and every open ring is flagged aromatic. *)
Theorem explicitBond_aromatic (env : Env) (s : string) (loc : Locals) :
  charAt s (pos loc) = Some ":"%char →
  enableAromaticity (parseOptions (ps env)) = true →
  (openRings (ps env) = [] → isOk (explicitBond env s loc) = false)
  ∧ ((∃ e r, e ∈ openRings (ps env) ∧ findRing (ps_rings (ps env)) (snd e) = Some r
             ∧ isAromatic r = Some false) →
     isOk (explicitBond env s loc) = false)
  ∧ (pos loc + 1 < String.length s →
     openRings (ps env) ≠ [] →
     (∀ e, e ∈ openRings (ps env) →
           ∃ r, findRing (ps_rings (ps env)) (snd e) = Some r ∧ isAromatic r ≠ Some false) →
     ∃ env',
       explicitBond env s loc
       = Ok (env', mkLocals (pos loc + 1) (groupsChain loc) (Some Aromatic) (Some (pos loc))
                     (dontBondNext loc))
       ∧ openRings (ps env') = openRings (ps env)
       ∧ ∀ e, e ∈ openRings (ps env) →
              ∃ r', findRing (ps_rings (ps env')) (snd e) = Some r'
                    ∧ isAromatic r' = Some true).
Proof.
  intros Hc Haro. unfold explicitBond, charIs. rewrite Hc, Haro. simpl.
  split; [| split].
  - intros ->. by destruct (String.length s <=? pos loc + 1).
  - intros Hbad. destruct (String.length s <=? pos loc + 1); [done |].
    case_bool_decide; [done |].
    pose proof (markAromatic_rejects (pos loc + 1 - 1) _ _ Hbad) as Hrej.
    by destruct (foldR _ _ _).
  - intros Hlen Hopen Hgood.
    destruct (String.length s <=? pos loc + 1) eqn:E; [apply Nat.leb_le in E; lia |].
    rewrite bool_decide_eq_false_2 by done.
    destruct (markAromatic_marks (pos loc + 1 - 1) _ _ Hgood) as (rs' & -> & Hmarked & _).
    simpl. eexists. split; [reflexivity |]. by split.
Qed.

Lemma explicitBond_aromatic_witness :
  isOk (explicitBond (stateAfter "C:C" 1) "C:C" (mkLocals 1 [0] None None false)) = false
  ∧ isOk (explicitBond (stateAfter "C1C:C1" 3) "C1C:C1" (mkLocals 3 [0; 1] None None false)) = false
  ∧ ∃ env',
      explicitBond (stateAfter "C1:C:C1" 2) "C1:C:C1" (mkLocals 2 [0] None None false)
      = Ok (env', mkLocals 3 [0] (Some Aromatic) (Some 2) false)
      ∧ openRings (ps env') = openRings (ps (stateAfter "C1:C:C1" 2))
      ∧ ∀ e, e ∈ openRings (ps (stateAfter "C1:C:C1" 2)) →
             ∃ r', findRing (ps_rings (ps env')) (snd e) = Some r' ∧ isAromatic r' = Some true.
Proof.
  split; [| split].
  - destruct (explicitBond_aromatic (stateAfter "C:C" 1) "C:C" (mkLocals 1 [0] None None false))
      as (Hnone & _ & _); [reflexivity | reflexivity |].
    apply Hnone. reflexivity.
  - destruct (explicitBond_aromatic (stateAfter "C1C:C1" 3) "C1C:C1"
                (mkLocals 3 [0; 1] None None false))
      as (_ & Hfalse & _); [reflexivity | reflexivity |].
    apply Hfalse.
    exists (1, 0), (mkRing 0 1 0 None (Some false) [0; 1]).
    split; [vm_compute; left |]. split; reflexivity.
  - destruct (explicitBond_aromatic (stateAfter "C1:C:C1" 2) "C1:C:C1"
                (mkLocals 2 [0] None None false))
      as (_ & _ & Hmark); [reflexivity | reflexivity |].
    apply Hmark.
    + vm_compute. lia.
    + vm_compute. discriminate.
    + intros e He. vm_compute in He. apply list_elem_of_singleton in He as ->.
      eexists. split; [vm_compute; reflexivity |]. discriminate.
Defined.

(** C3 as stated fails: after ["C1C"] ring 1 is open, and the symbol [":"] is
    an error all the same, because the ring is known not to be aromatic.  The
    input ["C1C:C1"] is rejected as a whole. *)
Lemma aromatic_bond_open_ring_error :
  openRings (ps (stateAfter "C1C:C1" 3)) = [(1, 0)]
  ∧ map isAromatic (ps_rings (ps (stateAfter "C1C:C1" 3))) = [Some false]
  ∧ explicitBond (stateAfter "C1C:C1" 3) "C1C:C1" (mkLocals 3 [0; 1] None None false)
    = throw "Bond Error: aromatic bond ':' only valid in aromatic rings" ":" 3
  ∧ isOk (parseWith allEnabled freshCounters "C1C:C1") = false.
Proof. repeat split; vm_compute; reflexivity. Qed.

(** ** The stored options *)

(** The overrides are written to the object at [l] and nowhere else. *)
Lemma overrideOptions_other (st : Store) (l l' : nat) (override : option OptionsObject) :
  l ≠ l' → overrideOptions st l override !! l' = st !! l'.
Proof.
  intros Hne. destruct override as [ovr |]; [| done]. unfold overrideOptions.
  apply (map_fold_weak_ind (λ (r : Store) (_ : OptionsObject), r !! l' = st !! l')); [done |].
  intros key v m r _ IH. by rewrite lookup_alter_ne.
Qed.

(** C8. A call of [SMILES.parse], with or without overrides and whatever
    its outcome, leaves the options object of the instance as it was: every
    key has the value it had.  (No object that existed before the call
    changes; the overrides go to the copy made for the call.) *)
Theorem parse_keeps_stored_options (st : Store) (this : SMILES) (ids : Counters) (s : string)
    (override : option OptionsObject) (stored : OptionsObject) :
  st !! parseOptionsRef this = Some stored →
  fst (SMILES_parse st this ids s override) !! parseOptionsRef this = Some stored
  ∧ ∀ l o, st !! l = Some o → fst (SMILES_parse st this ids s override) !! l = Some o.
Proof.
  intros Hstored.
  assert (Hframe : ∀ l o, st !! l = Some o →
                          fst (SMILES_parse st this ids s override) !! l = Some o).
  { intros l o Hl. unfold SMILES_parse. simpl.
    assert (Hfresh : fresh (dom st) ≠ l).
    { intros Heq. apply (is_fresh (dom st)). rewrite Heq. apply elem_of_dom. eauto. }
    rewrite overrideOptions_other by done.
    by rewrite lookup_insert_ne. }
  split; [by apply Hframe | exact Hframe].
Qed.

Lemma parse_keeps_stored_options_witness :
  fst (SMILES_parse {[ 0 := {[ "enableRings" := true ]} ]} (mkSMILES 0) freshCounters "C1CC1"
         (Some {[ "enableRings" := false ]})) !! 0
  = Some ({[ "enableRings" := true ]} : OptionsObject).
Proof.
  apply (parse_keeps_stored_options {[ 0 := {[ "enableRings" := true ]} ]} (mkSMILES 0)
           freshCounters "C1CC1" (Some {[ "enableRings" := false ]})).
  reflexivity.
Defined.

(** ** Removing a molecule *)

Lemma findIndex_None {A} (f : A → bool) (l : list A) :
  (∀ x, x ∈ l → f x = false) → findIndex f l = None.
Proof.
  induction l as [| x l IH]; intros H; [done |].
  simpl. rewrite H by left. rewrite IH; [done |]. intros y Hy. apply H. by right.
Qed.

Lemma findIndex_first {A} (f : A → bool) (before after : list A) (x : A) :
  (∀ y, y ∈ before → f y = false) → f x = true →
  findIndex f (before ++ x :: after) = Some (length before).
Proof.
  induction before as [| y before IH]; intros H Hx; simpl.
  - by rewrite Hx.
  - rewrite H by left. rewrite IH; [done | | done]. intros z Hz. apply H. by right.
Qed.

(** C10. [removeMolecule(mol)] returns [false] and changes nothing when no
    molecule of the list is [mol]; when [mol] is in the list it returns
    [true], takes [mol] out at its first position [i], keeps exactly the rings
    that are not rings of [mol], in their order, and lowers by one every
    reaction index that is [i] or more. *)
Theorem removeMolecule_spec (p : ParsedSMILES) (mol : Molecule) :
  ((∀ m, m ∈ molecules p → molRef m ≠ molRef mol) → removeMolecule p mol = (p, false))
  ∧ ∀ before after,
      molecules p = before ++ mol :: after →
      (∀ m, m ∈ before → molRef m ≠ molRef mol) →
      snd (removeMolecule p mol) = true
      ∧ molecules (fst (removeMolecule p mol)) = before ++ after
      ∧ ps_rings (fst (removeMolecule p mol)) `sublist_of` ps_rings p
      ∧ (∀ ring, ring ∈ ps_rings (fst (removeMolecule p mol))
                 ↔ ring ∈ ps_rings p ∧ ringID ring ∉ rings mol)
      ∧ length (reactionIndexes (fst (removeMolecule p mol))) = length (reactionIndexes p)
      ∧ ∀ k ri, reactionIndexes p !! k = Some ri →
                reactionIndexes (fst (removeMolecule p mol)) !! k
                = Some (if decide (Z.of_nat (length before) ≤ ri)%Z then (ri - 1)%Z else ri).
Proof.
  split.
  - intros Hall. unfold removeMolecule. rewrite findIndex_None; [done |].
    intros m Hm. apply Nat.eqb_neq. by apply Hall.
  - intros before after Hmols Hbefore. unfold removeMolecule.
    rewrite Hmols, (findIndex_first _ before after mol).
    2: { intros m Hm. apply Nat.eqb_neq. by apply Hbefore. }
    2: { apply Nat.eqb_refl. }
    simpl. split; [done |]. split.
    { rewrite delete_middle. done. }
    split.
    { induction (ps_rings p) as [| r rs IH]; simpl; [done |].
      destruct (negb _); [by apply sublist_skip | by apply sublist_cons]. }
    split.
    { intros ring. rewrite list_elem_of_In, List.filter_In, <- list_elem_of_In.
      rewrite negb_true_iff, bool_decide_eq_false. done. }
    split.
    { by rewrite length_map. }
    intros k ri Hk. rewrite list_lookup_fmap, Hk. simpl. f_equal.
    destruct (Z.leb_spec (Z.of_nat (length before)) ri); case_decide; (done || lia).
Qed.

Lemma removeMolecule_spec_witness :
  removeMolecule
    (mkParsedSMILES "CC>>CCO" allEnabled [] [mkMolecule 0 [] [7]; mkMolecule 1 [] []] []
       [newRing 7 1 0] [0; 0]%Z)
    (mkMolecule 5 [] [])
  = (mkParsedSMILES "CC>>CCO" allEnabled [] [mkMolecule 0 [] [7]; mkMolecule 1 [] []] []
       [newRing 7 1 0] [0; 0]%Z, false)
  ∧ molecules (fst (removeMolecule
                      (mkParsedSMILES "CC>>CCO" allEnabled []
                         [mkMolecule 0 [] [7]; mkMolecule 1 [] []] [] [newRing 7 1 0] [0; 0]%Z)
                      (mkMolecule 0 [] [7])))
    = [] ++ [mkMolecule 1 [] []].
Proof.
  split.
  - apply (removeMolecule_spec
             (mkParsedSMILES "CC>>CCO" allEnabled [] [mkMolecule 0 [] [7]; mkMolecule 1 [] []] []
                [newRing 7 1 0] [0; 0]%Z) (mkMolecule 5 [] [])).
    intros m Hm. vm_compute in Hm.
    apply elem_of_cons in Hm as [-> | Hm]; [discriminate |].
    apply list_elem_of_singleton in Hm as ->. discriminate.
  - apply (removeMolecule_spec
             (mkParsedSMILES "CC>>CCO" allEnabled [] [mkMolecule 0 [] [7]; mkMolecule 1 [] []] []
                [newRing 7 1 0] [0; 0]%Z) (mkMolecule 0 [] [7])).
    + reflexivity.
    + intros m Hm. by apply elem_of_nil in Hm.
Defined.

(** ** Bond lookup *)

Lemma copyBond_copies (h : gmap nat IBond) st bs f r b :
  Refs.copies h st bs → h !! r = Some b →
  ∃ st', Refs.copyBond f st r = Some st' ∧ Refs.copies h st' (bs ++ [f b]).
Proof.
  intros (Hsub & Hnd & Hnew & Hall) Hr.
  unfold Refs.copyBond. rewrite (lookup_weaken _ _ _ _ Hr Hsub). simpl.
  eexists. split; [reflexivity |].
  pose proof (is_fresh (dom (fst st))) as Hfresh.
  set (l := fresh (dom (fst st))) in *.
  assert (Hl : fst st !! l = None) by by apply not_elem_of_dom.
  assert (Hhl : h !! l = None).
  { destruct (h !! l) eqn:E; [| done].
    rewrite (lookup_weaken _ _ _ _ E Hsub) in Hl. done. }
  assert (Hnotin : l ∉ snd st).
  { intros Hin. apply list_elem_of_lookup in Hin as [i Hi].
    destruct (Forall2_lookup_l _ _ _ _ _ Hall Hi) as (b' & _ & Hb'). congruence. }
  repeat split; simpl.
  - by apply insert_subseteq_r.
  - apply NoDup_app. split; [done |]. split; [| apply NoDup_singleton].
    intros x Hx ->%list_elem_of_singleton. done.
  - intros x [Hx | ->%list_elem_of_singleton]%elem_of_app; [by apply Hnew | done].
  - apply Forall2_app.
    + eapply Forall2_impl; [exact Hall |]. intros x y Hxy. simpl.
      rewrite lookup_insert_ne; [done |]. intros <-. congruence.
    + constructor; [| constructor]. apply lookup_insert_eq.
Qed.

Lemma copyOwn_copies (h : gmap nat IBond) refs :
  ∀ st bs, Refs.copies h st bs → (∀ r, r ∈ refs → is_Some (h !! r)) →
  ∃ st', Refs.foldOpt (Refs.copyBond (λ b, b)) refs st = Some st'
         ∧ Refs.copies h st' (bs ++ omap (λ r, h !! r) refs).
Proof.
  induction refs as [| r refs IH]; intros st bs Hst Halloc; simpl.
  - exists st. by rewrite app_nil_r.
  - destruct (Halloc r) as [b Hb]; [by left |].
    destruct (copyBond_copies h st bs (λ b, b) r b Hst Hb) as (st1 & -> & Hst1). simpl.
    destruct (IH st1 (bs ++ [b]) Hst1) as (st' & Hfold & Hst'); [intros; apply Halloc; by right |].
    exists st'. split; [done |]. rewrite Hb. by rewrite <- app_assoc in Hst'.
Qed.

Lemma copyReversed_copies (h : gmap nat IBond) groupID entry :
  ∀ st bs, Refs.copies h st bs → (∀ r, r ∈ snd entry → is_Some (h !! r)) →
  ∃ st', Refs.copyReversed groupID st entry = Some st'
         ∧ Refs.copies h st'
             (bs ++ reversedBonds groupID (fst entry, omap (λ r, h !! r) (snd entry))).
Proof.
  intros st bs Hst Halloc. unfold Refs.copyReversed, reversedBonds. simpl.
  destruct (fst entry =? groupID); [exists st; by rewrite app_nil_r |].
  revert st bs Hst. induction (snd entry) as [| r refs IH]; intros st bs Hst; simpl.
  - exists st. by rewrite app_nil_r.
  - destruct (Halloc r) as [b Hb]; [by left |].
    rewrite Hb. destruct Hst as (Hsub & Hrest).
    rewrite (lookup_weaken _ _ _ _ Hb Hsub). simpl.
    assert (Hst : Refs.copies h st bs) by by split.
    destruct (Nat.eqb_spec (dest b) groupID) as [Hd | Hd].
    + destruct (copyBond_copies h st bs (λ b, mkBond (bond b) (fst entry)) r b Hst Hb)
        as (st1 & -> & Hst1). simpl.
      destruct (IH (λ r' Hr', Halloc r' (list_elem_of_further _ _ _ Hr')) st1 _ Hst1)
        as (st' & Hfold & Hst').
      exists st'. split; [done |].
      rewrite filter_cons_True by done. simpl. by rewrite <- app_assoc in Hst'.
    + destruct (IH (λ r' Hr', Halloc r' (list_elem_of_further _ _ _ Hr')) st bs Hst)
        as (st' & Hfold & Hst').
      exists st'. split; [done |]. by rewrite filter_cons_False by done.
Qed.

Lemma copyOthers_copies (h : gmap nat IBond) groupID gs :
  ∀ st bs, Refs.copies h st bs → Refs.allocated h gs →
  ∃ st', Refs.foldOpt (Refs.copyReversed groupID) gs st = Some st'
         ∧ Refs.copies h st' (bs ++ flat_map (reversedBonds groupID) (Refs.view h gs)).
Proof.
  induction gs as [| entry gs IH]; intros st bs Hst Halloc; simpl.
  - exists st. by rewrite app_nil_r.
  - destruct (copyReversed_copies h groupID entry st bs Hst) as (st1 & -> & Hst1).
    { intros r Hr. apply (Halloc entry); [by left | done]. }
    simpl. destruct (IH st1 _ Hst1) as (st' & Hfold & Hst').
    { intros e r He Hr. apply (Halloc e); [by right | done]. }
    exists st'. split; [done |]. by rewrite <- app_assoc in Hst'.
Qed.

Lemma get_view (h : gmap nat IBond) gs groupID own :
  JSObj.get gs groupID = Some own →
  JSObj.get (Refs.view h gs) groupID = Some (omap (λ r, h !! r) own)
  ∧ ∃ e, e ∈ gs ∧ snd e = own.
Proof.
  induction gs as [| [k refs] gs IH]; [done |]. simpl.
  destruct (k =? groupID).
  - intros [= <-]. split; [done |]. exists (k, refs). split; [by left | done].
  - intros H. destruct (IH H) as (Hv & e & He & Hown).
    split; [done |]. exists e. split; [by right | done].
Qed.

(** C9. For a group ID of the molecule, [getAllBonds] returns one record
    for every bond the group stores, followed, for every other group in key
    order, by one record for every bond of that group which leads to the group
    asked for, with [dest] set to the key of the other group.  The records
    returned are new objects, distinct from one another and from every record
    stored before: the stored records are as they were after the call, and
    still are after a write to a returned record. *)
Theorem getAllBonds_fresh_copies (h : gmap nat IBond) (gs : list (nat * list nat))
    (groupID : nat) :
  Refs.allocated h gs →
  is_Some (JSObj.get gs groupID) →
  ∃ h' ls own,
    Refs.getAllBonds h gs groupID = Some (h', ls)
    ∧ JSObj.get (Refs.view h gs) groupID = Some own
    ∧ allBondsOf (Refs.view h gs) groupID
      = Some (own ++ flat_map (λ e, if fst e =? groupID then []
                                    else map (λ b, mkBond (bond b) (fst e))
                                             (filter (λ b, dest b = groupID) (snd e)))
                              (Refs.view h gs))
    ∧ Forall2 (λ l b, h' !! l = Some b) ls (default [] (allBondsOf (Refs.view h gs) groupID))
    ∧ NoDup ls
    ∧ (∀ l, l ∈ ls → h !! l = None)
    ∧ (∀ r b, h !! r = Some b → h' !! r = Some b)
    ∧ (∀ l b' r b, l ∈ ls → h !! r = Some b → <[l := b']> h' !! r = Some b).
Proof.
  intros Halloc [own Hown].
  destruct (get_view h gs groupID own Hown) as (Hview & e & He & Hsnd).
  assert (Hinit : Refs.copies h (h, []) []).
  { repeat split; simpl; [done | apply NoDup_nil_2 | by intros l ?%elem_of_nil | constructor]. }
  destruct (copyOwn_copies h own (h, []) [] Hinit) as (st1 & Hfold1 & Hst1).
  { intros r Hr. apply (Halloc e); [done | by rewrite Hsnd]. }
  destruct (copyOthers_copies h groupID gs st1 _ Hst1 Halloc) as ([h' ls] & Hfold2 & Hst2).
  destruct Hst2 as (Hsub & Hnd & Hnew & Hall). simpl in *.
  exists h', ls, (omap (λ r, h !! r) own).
  assert (Hval : allBondsOf (Refs.view h gs) groupID
                 = Some (omap (λ r, h !! r) own
                           ++ flat_map (reversedBonds groupID) (Refs.view h gs))).
  { unfold allBondsOf. by rewrite Hview. }
  split. { unfold Refs.getAllBonds. rewrite Hown. simpl. rewrite Hfold1. simpl. exact Hfold2. }
  split; [done |]. split; [exact Hval |].
  split; [by rewrite Hval |]. split; [done |]. split; [done |].
  split. { intros r b Hr. by apply (lookup_weaken _ _ _ _ Hr Hsub). }
  intros l b' r b Hl Hr. rewrite lookup_insert_ne.
  - by apply (lookup_weaken _ _ _ _ Hr Hsub).
  - intros <-. rewrite (Hnew _ Hl) in Hr. done.
Qed.

Lemma getAllBonds_fresh_copies_witness :
  ∃ h' ls own,
    Refs.getAllBonds {[ 0 := mkBond Single 1; 1 := mkBond Double 2; 2 := mkBond Aromatic 1 ]}
      [(0, [0]); (1, [1]); (2, [2])] 1
    = Some (h', ls)
    ∧ JSObj.get (Refs.view {[ 0 := mkBond Single 1; 1 := mkBond Double 2; 2 := mkBond Aromatic 1 ]}
                   [(0, [0]); (1, [1]); (2, [2])]) 1 = Some own
    ∧ Forall2 (λ l b, h' !! l = Some b) ls
        [mkBond Double 2; mkBond Single 0; mkBond Aromatic 2]
    ∧ NoDup ls.
Proof.
  destruct (getAllBonds_fresh_copies
              {[ 0 := mkBond Single 1; 1 := mkBond Double 2; 2 := mkBond Aromatic 1 ]}
              [(0, [0]); (1, [1]); (2, [2])] 1)
    as (h' & ls & own & H1 & H2 & H3 & H4 & H5 & _).
  - intros e r He Hr.
    repeat (apply elem_of_cons in He as [-> | He];
            [apply list_elem_of_singleton in Hr as ->; vm_compute; eauto |]).
    by apply elem_of_nil in He.
  - vm_compute. eauto.
  - exists h', ls, own. split; [exact H1 |]. split; [exact H2 |]. split; [| exact H5].
    rewrite H3 in H4. vm_compute in H2. injection H2 as <-. exact H4.
Defined.

(** ** Valence check *)

Lemma get_of_elem {V} (o : list (nat * V)) (e : nat * V) :
  e ∈ o → is_Some (JSObj.get o (fst e)).
Proof.
  induction o as [| [k v] o IH]; [by intros ?%elem_of_nil |].
  intros [-> | He]%elem_of_cons; simpl.
  - rewrite Nat.eqb_refl. eauto.
  - destruct (k =? fst e); [eauto | by apply IH].
Qed.

Lemma getBondCount_Ok (m : Molecule) (e : nat * Group) :
  keysMatch m → e ∈ groups m → ∃ w, getBondCount m (ID (snd e)) = Ok w.
Proof.
  intros Hkeys He. unfold getBondCount. rewrite (Hkeys e He).
  destruct (get_of_elem _ _ He) as [g ->]. simpl. eauto.
Qed.

Lemma inOrganicSubset_valences tbl (g : Group) :
  inOrganicSubset tbl g = true →
  ∃ el vs, firstElement g = Some el ∧ assoc tbl el = Some vs ∧ valencesOf tbl g = Ok (el, vs).
Proof.
  unfold inOrganicSubset, valencesOf, firstElement.
  destruct (elements g) as [| [el n] rest]; [done |].
  destruct n as [| [| n]], rest; try done.
  intros [vs Hvs]%bool_decide_eq_true. exists el, vs. simpl. rewrite Hvs. done.
Qed.

Lemma existsb_valence (vs : list nat) (w : nat) :
  existsb (λ n, 2 * n =? w) vs = false ↔ ∀ n, n ∈ vs → 2 * n ≠ w.
Proof.
  induction vs as [| v vs IH]; simpl.
  - split; [by intros _ n ?%elem_of_nil | done].
  - rewrite orb_false_iff, IH. split.
    + intros [Hv Hvs] n [-> | Hn]%elem_of_cons; [by apply Nat.eqb_neq | by apply Hvs].
    + intros H. split; [apply Nat.eqb_neq, H; by left | intros n Hn; apply H; by right].
Qed.

Lemma checkBondCountsFrom_cons tbl (m : Molecule) k group todo :
  checkBondCountsFrom tbl m ((k, group) :: todo)
  = (w ←r getBondCount m (ID group) ;;
     if (charge group =? 0)%Z && negb (isRadical group) && inOrganicSubset tbl group then
       x ←r valencesOf tbl group ;;
       if negb (bool_decide (snd x = [])) && negb (existsb (λ n, 2 * n =? w) (snd x))
       then Ok (BondsInvalid group (fst x) (bondCountError group (fst x) w (snd x)))
       else checkBondCountsFrom tbl m todo
     else checkBondCountsFrom tbl m todo).
Proof. reflexivity. Qed.

(** The weight other groups give to the group [k]. *)
Lemma sumBonds_from (bs : list IBond) (n : nat) :
  fold_left (λ count b, count + getBondNumber (bond b)) bs n = n + sumBonds bs.
Proof.
  unfold sumBonds. revert n. induction bs as [| b bs IH]; intros n; simpl; [lia |].
  rewrite (IH (n + _)), (IH (getBondNumber _)). lia.
Qed.

Lemma sumBonds_app (bs bs' : list IBond) : sumBonds (bs ++ bs') = sumBonds bs + sumBonds bs'.
Proof.
  unfold sumBonds at 1. rewrite fold_left_app, sumBonds_from.
  fold (sumBonds bs). lia.
Qed.

Lemma sumBonds_cons (b : IBond) (bs : list IBond) :
  sumBonds (b :: bs) = getBondNumber (bond b) + sumBonds bs.
Proof. unfold sumBonds at 1. simpl. apply sumBonds_from. Qed.

Lemma incoming_fold (k : nat) (bs : list IBond) (n : nat) :
  fold_left (λ c b, if dest b =? k then c + getBondNumber (bond b) else c) bs n
  = n + sumBonds (List.filter (λ b, dest b =? k) bs).
Proof.
  revert n. induction bs as [| b bs IH]; intros n; simpl; [unfold sumBonds; simpl; lia |].
  rewrite IH. destruct (dest b =? k); [| done].
  rewrite sumBonds_cons. lia.
Qed.

Lemma getBondCount_sum (m : Molecule) (k : nat) (g : Group) :
  JSObj.get (groups m) k = Some g →
  getBondCount m k = Ok (sumBonds (bonds g) + incoming k (groups m)).
Proof.
  intros Hg. unfold getBondCount, incoming. rewrite Hg. simpl. f_equal. clear Hg.
  generalize (sumBonds (bonds g)). induction (groups m) as [| e gs IH]; intros n; simpl; [lia |].
  rewrite IH. destruct (fst e =? k); [lia |]. rewrite incoming_fold. lia.
Qed.

(** The loop of the check over a part of the groups. *)
Lemma checkBondCountsFrom_spec tbl (m : Molecule) (todo : list (nat * Group)) :
  (∀ el vs, assoc tbl el = Some vs → vs ≠ []) →
  (∀ e, e ∈ todo → ∃ w, getBondCount m (ID (snd e)) = Ok w) →
  (checkBondCountsFrom tbl m todo = Ok BondsValid
   ∧ ∀ e, e ∈ todo → ¬ violates tbl m (snd e))
  ∨ ∃ before e after el w vs,
      todo = before ++ e :: after
      ∧ (∀ x, x ∈ before → ¬ violates tbl m (snd x))
      ∧ violates tbl m (snd e)
      ∧ firstElement (snd e) = Some el
      ∧ checkBondCountsFrom tbl m todo
        = Ok (BondsInvalid (snd e) el (bondCountError (snd e) el w vs)).
Proof.
  intros Htbl. induction todo as [| [k g] todo IH]; intros Hw.
  { left. split; [done | by intros e ?%elem_of_nil]. }
  destruct (Hw (k, g)) as [w Hwg]; [by left |]. simpl in Hwg.
  assert (Hrest : ¬ violates tbl m g →
    (checkBondCountsFrom tbl m todo = Ok BondsValid
     ∧ ∀ e, e ∈ (k, g) :: todo → ¬ violates tbl m (snd e))
    ∨ ∃ before e after el w vs,
        (k, g) :: todo = before ++ e :: after
        ∧ (∀ x, x ∈ before → ¬ violates tbl m (snd x))
        ∧ violates tbl m (snd e)
        ∧ firstElement (snd e) = Some el
        ∧ checkBondCountsFrom tbl m todo
          = Ok (BondsInvalid (snd e) el (bondCountError (snd e) el w vs))).
  { intros Hno. destruct IH as [[Hok Hnone] | (before & e & after & el & w' & vs & -> & Hb & He & Hel & Hres)].
    - intros e He. apply Hw. by right.
    - left. split; [done |]. intros e [-> | He]%elem_of_cons; [done | by apply Hnone].
    - right. exists ((k, g) :: before), e, after, el, w', vs.
      split; [done |]. split; [| done].
      intros x [-> | Hx]%elem_of_cons; [done | by apply Hb]. }
  rewrite checkBondCountsFrom_cons, Hwg. cbn [rbind].
  destruct ((charge g =? 0)%Z && negb (isRadical g) && inOrganicSubset tbl g) eqn:Hcond.
  - apply andb_true_iff in Hcond as [[Hc Hr]%andb_true_iff Ho].
    apply Z.eqb_eq in Hc. apply negb_true_iff in Hr.
    destruct (inOrganicSubset_valences tbl g Ho) as (el & vs & Hel & Hvs & ->). cbn [rbind fst snd].
    rewrite (bool_decide_eq_false_2 _ (Htbl _ _ Hvs)). cbn [negb andb].
    destruct (existsb (λ n, 2 * n =? w) vs) eqn:Hex; cbn [negb].
    + apply Hrest. intros (_ & el' & vs' & w' & Hel' & Hvs' & Hw' & Hnone).
      assert (el' = el) as -> by congruence.
      assert (vs' = vs) as -> by congruence.
      assert (w' = w) as -> by congruence.
      apply existsb_valence in Hnone. congruence.
    + right. exists [], (k, g), todo, el, w, vs. simpl.
      split; [done |]. split; [by intros x ?%elem_of_nil |].
      split; [| done]. split; [done |].
      exists el, vs, w. repeat split; try done. by apply existsb_valence.
  - apply Hrest. intros ((Hc & Hr & Ho) & _).
    rewrite Hc, Hr, Ho in Hcond. done.
Qed.

(** The loop of the check over a part of the groups, with the weight every
    atom has in the molecule. *)
Lemma checkBondCountsFrom_first tbl (m : Molecule) (todo : list (nat * Group)) :
  (∀ e, e ∈ todo → JSObj.get (groups m) (ID (snd e)) = Some (snd e)) →
  (checkBondCountsFrom tbl m todo = Ok BondsValid
   ∧ ∀ e, e ∈ todo → ¬ breaksValence tbl m (snd e))
  ∨ ∃ before e after el vs,
      todo = before ++ e :: after
      ∧ (∀ x, x ∈ before → ¬ breaksValence tbl m (snd x))
      ∧ breaksValence tbl m (snd e)
      ∧ firstElement (snd e) = Some el
      ∧ assoc tbl el = Some vs
      ∧ checkBondCountsFrom tbl m todo
        = Ok (BondsInvalid (snd e) el
                (bondCountError (snd e) el (totalWeight m (snd e)) vs)).
Proof.
  induction todo as [| [k g] todo IH]; intros Hstored.
  { left. split; [done | by intros e ?%elem_of_nil]. }
  assert (Hw : getBondCount m (ID g) = Ok (totalWeight m g)).
  { apply getBondCount_sum, (Hstored (k, g)). by left. }
  assert (Hrest : ¬ breaksValence tbl m g →
    (checkBondCountsFrom tbl m todo = Ok BondsValid
     ∧ ∀ e, e ∈ (k, g) :: todo → ¬ breaksValence tbl m (snd e))
    ∨ ∃ before e after el vs,
        (k, g) :: todo = before ++ e :: after
        ∧ (∀ x, x ∈ before → ¬ breaksValence tbl m (snd x))
        ∧ breaksValence tbl m (snd e)
        ∧ firstElement (snd e) = Some el
        ∧ assoc tbl el = Some vs
        ∧ checkBondCountsFrom tbl m todo
          = Ok (BondsInvalid (snd e) el
                  (bondCountError (snd e) el (totalWeight m (snd e)) vs))).
  { intros Hno.
    destruct IH as [[Hok Hnone] | (before & e & after & el & vs & -> & Hb & He & Hel & Htbl & Hres)].
    - intros e He. apply Hstored. by right.
    - left. split; [done |]. intros e [-> | He]%elem_of_cons; [done | by apply Hnone].
    - right. exists ((k, g) :: before), e, after, el, vs.
      split; [done |]. split; [| done].
      intros x [-> | Hx]%elem_of_cons; [done | by apply Hb]. }
  rewrite checkBondCountsFrom_cons, Hw. cbn [rbind].
  destruct ((charge g =? 0)%Z && negb (isRadical g) && inOrganicSubset tbl g) eqn:Hcond.
  - apply andb_true_iff in Hcond as [[Hc Hr]%andb_true_iff Ho].
    apply Z.eqb_eq in Hc. apply negb_true_iff in Hr.
    destruct (inOrganicSubset_valences tbl g Ho) as (el & vs & Hel & Hvs & ->).
    cbn [rbind fst snd].
    destruct (decide (vs = [])) as [Hnil | Hsome].
    { rewrite (bool_decide_eq_true_2 _ Hnil). cbn [negb andb].
      apply Hrest. intros (_ & el' & vs' & Hel' & Hvs' & Hne & _). congruence. }
    rewrite (bool_decide_eq_false_2 _ Hsome). cbn [negb andb].
    destruct (existsb (λ n, 2 * n =? totalWeight m g) vs) eqn:Hex; cbn [negb].
    + apply Hrest. intros (_ & el' & vs' & Hel' & Hvs' & _ & Hnone).
      assert (el' = el) as -> by congruence.
      assert (vs' = vs) as -> by congruence.
      apply existsb_valence in Hnone. congruence.
    + right. exists [], (k, g), todo, el, vs. simpl.
      split; [done |]. split; [by intros x ?%elem_of_nil |].
      split; [| done]. split; [done |].
      exists el, vs. repeat split; try done. by apply existsb_valence.
  - apply Hrest. intros ((Hc & Hr & Ho) & _).
    rewrite Hc, Hr, Ho in Hcond. done.
Qed.

(** C4. On a molecule in which every group is stored under its own ID,
    [checkBondCounts] does not throw.  It returns [true] when no atom breaks
    the valence rule, and otherwise the information object of the first
    atom, in key order, that is neutral, not a radical, in the organic
    subset, whose element has a first valence, and whose total weight (the
    bonds stored on the atom and the bonds of other groups that lead to it)
    is none of the valences of its element; the object names the group and
    its element, and the error carries the element, the weight, the valences
    and the position of the group in the text. *)
Theorem checkBondCounts_spec tbl (m : Molecule) :
  storedUnderID m →
  (checkBondCounts tbl m = Ok BondsValid
   ∧ ∀ e, e ∈ groups m → ¬ breaksValence tbl m (snd e))
  ∨ ∃ before e after el vs error,
      groups m = before ++ e :: after
      ∧ (∀ x, x ∈ before → ¬ breaksValence tbl m (snd x))
      ∧ breaksValence tbl m (snd e)
      ∧ checkBondCounts tbl m = Ok (BondsInvalid (snd e) el error)
      ∧ firstElement (snd e) = Some el
      ∧ assoc tbl el = Some vs
      ∧ error = bondCountError (snd e) el (totalWeight m (snd e)) vs
      ∧ errSource error = el
      ∧ columnNumber error = Z.of_nat <$> smilesStringPosition (snd e).
Proof.
  intros Hstored. unfold checkBondCounts.
  destruct (checkBondCountsFrom_first tbl m (groups m) Hstored)
    as [H | (before & e & after & el & vs & Hsplit & Hb & He & Hel & Htbl & Hres)].
  - by left.
  - right.
    exists before, e, after, el, vs, (bondCountError (snd e) el (totalWeight m (snd e)) vs).
    done.
Qed.

(** C4, the claim as it was stated.  [new Molecule({ 5: carbon })] with a
    carbon whose ID is 7: [checkBondCounts] reads [this.groups[7].bonds] in
    [getBondCount] and throws a TypeError, neither [true] nor an information
    object. *)
Lemma checkBondCounts_throws :
  checkBondCounts data_vars.organicSubset misfiledCarbon
  = Err (TypeError "this.groups[groupID].bonds").
Proof. reflexivity. Qed.

(** ** Implicit hydrogens *)

Section JSObjFacts.
Context {V : Type}.
Implicit Types (o : list (nat * V)) (k : nat) (v : V).

Lemma get_set_eq o k v : JSObj.get (JSObj.set o k v) k = Some v.
Proof.
  induction o as [| [k' v'] o IH]; simpl.
  - by rewrite Nat.eqb_refl.
  - destruct (k' =? k) eqn:E; simpl.
    + by rewrite Nat.eqb_refl.
    + destruct (k <? k'); simpl; [by rewrite Nat.eqb_refl | by rewrite E].
Qed.

Lemma get_set_ne o k k' v : k ≠ k' → JSObj.get (JSObj.set o k v) k' = JSObj.get o k'.
Proof.
  intros Hne. induction o as [| [k0 v0] o IH]; simpl.
  - by rewrite (proj2 (Nat.eqb_neq k k')).
  - destruct (k0 =? k) eqn:E; simpl.
    + apply Nat.eqb_eq in E as ->. by rewrite !(proj2 (Nat.eqb_neq k k')).
    + destruct (k <? k0); simpl.
      * by rewrite (proj2 (Nat.eqb_neq k k')).
      * by rewrite IH.
Qed.

Lemma Forall_keys (P : nat → Prop) o :
  Forall P (JSObj.keys o) ↔ Forall (λ e, P (fst e)) o.
Proof.
  induction o as [| e o IH]; simpl; [done |]. by rewrite !Forall_cons, IH.
Qed.

Lemma get_above o k : Forall (λ e, k < fst e) o → JSObj.get o k = None.
Proof.
  induction 1 as [| [k' v'] o Hk _ IH]; [done |]. simpl in *.
  rewrite (proj2 (Nat.eqb_neq k' k)) by lia. done.
Qed.

Lemma keys_set_bound o k v (P : nat → Prop) :
  P k → Forall P (JSObj.keys o) → Forall P (JSObj.keys (JSObj.set o k v)).
Proof.
  intros Hk. induction o as [| [k' v'] o IH]; simpl; intros Ho.
  - by constructor.
  - apply Forall_cons in Ho as [Hk' Ho].
    destruct (k' =? k); [by constructor |].
    destruct (k <? k'); constructor; try done.
    + by constructor.
    + by apply IH.
Qed.

Lemma keys_set_sorted o k v :
  StronglySorted lt (JSObj.keys o) → StronglySorted lt (JSObj.keys (JSObj.set o k v)).
Proof.
  induction o as [| [k' v'] o IH]; simpl; intros Ho.
  - repeat constructor.
  - apply StronglySorted_inv in Ho as [Ho Hk'].
    destruct (Nat.eqb_spec k' k) as [-> | Hne]; [by constructor |].
    destruct (Nat.ltb_spec k k').
    + constructor; [by constructor |]. constructor; [done |].
      eapply Forall_impl; [exact Hk' |]. simpl. intros x Hx. lia.
    + constructor; [by apply IH |]. apply keys_set_bound; [simpl; lia | done].
Qed.
End JSObjFacts.

(** Storing a group that gives [k] the weight the old entry gave does not
    change the weight [k] gets. *)
Lemma incoming_set (gs : list (nat * Group)) (k k' : nat) (g' : Group) :
  StronglySorted lt (JSObj.keys gs) →
  (if k' =? k then 0 else sumBonds (List.filter (λ b, dest b =? k) (bonds g')))
  = match JSObj.get gs k' with
    | Some old => if k' =? k then 0 else sumBonds (List.filter (λ b, dest b =? k) (bonds old))
    | None => 0
    end →
  incoming k (JSObj.set gs k' g') = incoming k gs.
Proof.
  unfold incoming. induction gs as [| [k0 g0] gs IH]; simpl; intros Hs Hsame.
  - rewrite Hsame. done.
  - apply StronglySorted_inv in Hs as [Hs Hk0].
    destruct (Nat.eqb_spec k0 k') as [-> | Hne]; simpl.
    + rewrite Hsame. done.
    + destruct (Nat.ltb_spec k' k0); simpl.
      * rewrite get_above in Hsame.
        { rewrite Hsame. lia. }
        apply Forall_keys in Hk0. eapply Forall_impl; [exact Hk0 |].
        simpl. intros e He. lia.
      * rewrite IH; done.
Qed.

Lemma setBonds_setBonds (g : Group) (bs bs' : list IBond) :
  setBonds (setBonds g bs) bs' = setBonds g bs'.
Proof. reflexivity. Qed.

Lemma setBonds_same (g : Group) : setBonds g (bonds g) = g.
Proof. by destruct g. Qed.

Lemma bondedTo_fresh (g : Group) (c : nat) :
  (∀ b, b ∈ bonds g → dest b < c) → bondedTo g c = false.
Proof.
  unfold bondedTo. induction (bonds g) as [| b bs IH]; intros H; simpl; [done |].
  rewrite IH by (intros; apply H; by right).
  rewrite (proj2 (Nat.eqb_neq (dest b) c)); [done |].
  assert (dest b < c) by (apply H; by left). lia.
Qed.

Lemma wellFormedBelow_key c gs k g :
  wellFormedBelow c gs → JSObj.get gs k = Some g → k < c.
Proof.
  intros (_ & Habove & _) Hk. destruct (Nat.lt_ge_cases k c) as [| Hge]; [done |].
  rewrite (Habove k Hge) in Hk. done.
Qed.

(** The loop that creates the hydrogens of one atom. *)
Lemma addHydrogens_spec (runs : nat) :
  ∀ c gs gid group,
    wellFormedBelow c gs → JSObj.get gs gid = Some group →
    ∃ gs',
      addHydrogens runs c gs gid group = (c + runs, gs')
      ∧ wellFormedBelow (c + runs) gs'
      ∧ JSObj.get gs' gid
        = Some (setBonds group (bonds group ++ map (mkBond Single) (seq c runs)))
      ∧ (∀ h, h ∈ seq c runs →
              JSObj.get gs' h = Some (implicitHydrogen h (chainDepth group + 1)))
      ∧ (∀ k, k ≠ gid → k < c → JSObj.get gs' k = JSObj.get gs k)
      ∧ (∀ k, k < c → incoming k gs' = incoming k gs).
Proof.
  induction runs as [| runs IH]; intros c gs gid group Hwf Hgid.
  { exists gs. simpl. rewrite Nat.add_0_r, app_nil_r, setBonds_same.
    split; [done |]. split; [done |]. split; [done |].
    split; [by intros h ?%elem_of_nil |]. split; done. }
  pose proof (wellFormedBelow_key _ _ _ _ Hwf Hgid) as Hlt.
  destruct Hwf as (Hsorted & Habove & Hgroups).
  destruct (Hgroups _ _ Hgid) as [HID Hdests].
  set (H := implicitHydrogen c (chainDepth group + 1)).
  set (group' := setBonds group (bonds group ++ [mkBond Single c])).
  assert (Hadd : addBond group Single H = (group', true)).
  { unfold addBond. change (ID H) with c.
    rewrite (bondedTo_fresh group c Hdests). done. }
  set (gs1 := JSObj.set (JSObj.set gs gid group') c H).
  assert (Hstep : addHydrogens (S runs) c gs gid group = addHydrogens runs (S c) gs1 gid group').
  { simpl. fold H. rewrite Hadd. done. }
  assert (Hc1 : ∀ k, k ≠ c → JSObj.get gs1 k = JSObj.get (JSObj.set gs gid group') k).
  { intros k Hk. unfold gs1. by rewrite get_set_ne. }
  assert (Hgid1 : JSObj.get gs1 gid = Some group').
  { rewrite Hc1 by lia. apply get_set_eq. }
  assert (Hwf1 : wellFormedBelow (S c) gs1).
  { split; [by do 2 apply keys_set_sorted |]. split.
    - intros k Hk. rewrite Hc1 by lia. rewrite get_set_ne by lia. apply Habove. lia.
    - intros k g Hk. destruct (decide (k = c)) as [-> | Hkc].
      + unfold gs1 in Hk. rewrite get_set_eq in Hk. injection Hk as <-.
        split; [done |]. by intros b ?%elem_of_nil.
      + rewrite Hc1 in Hk by done. destruct (decide (k = gid)) as [-> | Hkg].
        * rewrite get_set_eq in Hk. injection Hk as <-. split; [done |].
          simpl. intros b [Hb | ->%list_elem_of_singleton]%elem_of_app; [| simpl; lia].
          specialize (Hdests b Hb). lia.
        * rewrite get_set_ne in Hk by done. destruct (Hgroups _ _ Hk) as [? Hd].
          split; [done |]. intros b Hb. specialize (Hd b Hb). lia. }
  destruct (IH (S c) gs1 gid group' Hwf1 Hgid1) as (gs' & Hrun & Hwf' & Hg' & Hhs & Hframe & Hin).
  exists gs'. rewrite Hstep, Hrun.
  replace (c + S runs) with (S c + runs) by lia.
  split; [done |]. split; [done |]. split.
  { rewrite Hg'. unfold group'. rewrite setBonds_setBonds. simpl.
    by rewrite <- app_assoc. }
  split.
  { intros h [-> | Hh]%elem_of_cons.
    - rewrite Hframe by lia. unfold gs1. by rewrite get_set_eq.
    - by apply Hhs. }
  split.
  { intros k Hk Hkc. rewrite Hframe by lia. rewrite Hc1 by lia. by rewrite get_set_ne. }
  intros k Hk. rewrite Hin by lia. unfold gs1.
  rewrite incoming_set.
  - rewrite incoming_set; [done | done |]. rewrite Hgid. unfold group'. simpl.
    destruct (gid =? k); [done |].
    rewrite List.filter_app. simpl. rewrite (proj2 (Nat.eqb_neq c k)) by lia.
    by rewrite app_nil_r.
  - by apply keys_set_sorted.
  - rewrite get_set_ne by lia. rewrite (Habove c) by lia.
    simpl. by destruct (c =? k).
Qed.

(** One turn of the loop of [addImplicitHydrogens]. *)
Lemma addImplicitHydrogensTo_spec tbl (c : nat) (m : Molecule) (gid : nat) (g : Group) :
  wellFormedBelow c (groups m) → JSObj.get (groups m) gid = Some g →
  ∃ c' m',
    addImplicitHydrogensTo tbl (c, m) gid = Ok (c', m')
    ∧ c ≤ c'
    ∧ wellFormedBelow c' (groups m')
    ∧ is_Some (JSObj.get (groups m') gid)
    ∧ (∀ k, k ≠ gid → k < c → JSObj.get (groups m') k = JSObj.get (groups m) k)
    ∧ (∀ k, k < c → incoming k (groups m') = incoming k (groups m))
    ∧ (eligible tbl g → hydrogenOutcome tbl m gid g c c' (groups m'))
    ∧ (¬ eligible tbl g → JSObj.get (groups m') gid = Some g).
Proof.
  intros Hwf Hgid.
  assert (Hsame : ∀ P : Prop, P →
            (eligible tbl g → hydrogenOutcome tbl m gid g c c (groups m)) →
            ∃ c' m', Ok (c, m) = Ok (c', m') ∧ c ≤ c' ∧ wellFormedBelow c' (groups m')
              ∧ is_Some (JSObj.get (groups m') gid)
              ∧ (∀ k, k ≠ gid → k < c → JSObj.get (groups m') k = JSObj.get (groups m) k)
              ∧ (∀ k, k < c → incoming k (groups m') = incoming k (groups m))
              ∧ (eligible tbl g → hydrogenOutcome tbl m gid g c c' (groups m'))
              ∧ (¬ eligible tbl g → JSObj.get (groups m') gid = Some g)).
  { intros _ _ Hout. exists c, m.
    split; [done |]. split; [done |]. split; [done |]. split; [by eauto |].
    split; [done |]. split; [done |]. split; [done |]. done. }
  destruct Hwf as (Hsorted & Habove & Hgroups).
  destruct (Hgroups _ _ Hgid) as [HID Hdests].
  unfold addImplicitHydrogensTo. cbn [fst snd]. rewrite Hgid. cbn [fromOption rbind].
  destruct (negb (isRadical g) && inOrganicSubset tbl g) eqn:E1.
  2: { apply (Hsame True I). intros (_ & Hr & Ho). rewrite Hr, Ho in E1. done. }
  apply andb_true_iff in E1 as [Hr%negb_true_iff Ho].
  rewrite HID, (getBondCount_sum m gid g Hgid). cbn [rbind].
  set (w := sumBonds (bonds g) + incoming gid (groups m)).
  destruct (charge g =? 0)%Z eqn:E2.
  2: { apply (Hsame True I). intros (Hc & _). rewrite Hc in E2. done. }
  destruct (inOrganicSubset_valences tbl g Ho) as (el & vs & Hel & Hvs & ->). cbn [rbind fst snd].
  destruct (List.find (λ n, w <=? 2 * n) vs) as [n |] eqn:Efind.
  2: { apply (Hsame True I). intros _. exists el, vs, w.
       rewrite (getBondCount_sum m gid g Hgid). fold w. rewrite Efind. done. }
  destruct (addHydrogens_spec (hydrogenRuns (2 * n - w)) c (groups m) gid g)
    as (gs' & Hrun & Hwf' & Hg' & Hhs & Hframe & Hin); [done | done |].
  rewrite Hrun. cbn [fst snd].
  exists (c + hydrogenRuns (2 * n - w)), (setGroups m gs'). cbn [groups setGroups].
  split; [done |]. split; [lia |]. split; [done |]. split; [by rewrite Hg' |].
  split; [done |]. split; [done |]. split.
  - intros _. exists el, vs, w. rewrite (getBondCount_sum m gid g Hgid). fold w.
    rewrite Efind. done.
  - intros Hne. exfalso. apply Hne. split; [by apply Z.eqb_eq |]. done.
Qed.

Lemma foldR_app {A S} (f : S → A → Result S) (l1 l2 : list A) (s : S) :
  foldR f (l1 ++ l2) s = (s' ←r foldR f l1 s ;; foldR f l2 s').
Proof.
  revert s. induction l1 as [| a l1 IH]; intros s; simpl; [done |].
  destruct (f s a); simpl; [apply IH | done].
Qed.

(** The loop over a list of keys of the molecule. *)
Lemma addImplicitHydrogens_loop tbl (keys : list nat) :
  ∀ c m,
    wellFormedBelow c (groups m) →
    (∀ k, k ∈ keys → is_Some (JSObj.get (groups m) k)) →
    ∃ c' m',
      foldR (addImplicitHydrogensTo tbl) keys (c, m) = Ok (c', m')
      ∧ c ≤ c'
      ∧ wellFormedBelow c' (groups m')
      ∧ (∀ k, k ∉ keys → k < c → JSObj.get (groups m') k = JSObj.get (groups m) k)
      ∧ (∀ k, k < c → incoming k (groups m') = incoming k (groups m)).
Proof.
  induction keys as [| gid keys IH]; intros c m Hwf Hkeys.
  { exists c, m. split; [done |]. split; [done |]. split; [done |]. split; done. }
  destruct (Hkeys gid) as [g Hg]; [by left |].
  destruct (addImplicitHydrogensTo_spec tbl c m gid g Hwf Hg)
    as (c1 & m1 & Hstep & Hc1 & Hwf1 & Hgid1 & Hframe1 & Hin1 & _).
  destruct (IH c1 m1 Hwf1) as (c' & m' & Hfold & Hc' & Hwf' & Hframe & Hin).
  { intros k Hk. destruct (decide (k = gid)) as [-> | Hne]; [done |].
    destruct (Hkeys k) as [gk Hgk]; [by right |].
    rewrite Hframe1; [eauto | done |]. by eapply wellFormedBelow_key. }
  exists c', m'. simpl. rewrite Hstep. simpl. split; [done |]. split; [lia |].
  split; [done |]. split.
  - intros k Hk Hkc. apply not_elem_of_cons in Hk as [Hne Hk].
    rewrite Hframe by (done || lia). by apply Hframe1.
  - intros k Hk. rewrite Hin by lia. by apply Hin1.
Qed.

Lemma hydrogenRuns_bounds (h : nat) : h ≤ 2 * hydrogenRuns h ≤ h + 1.
Proof.
  unfold hydrogenRuns. pose proof (Nat.div_mod_eq (h + 1) 2) as Hdiv.
  pose proof (Nat.mod_upper_bound (h + 1) 2). lia.
Qed.

Lemma hydrogenRuns_even (h : nat) : Nat.Even h → 2 * hydrogenRuns h = h.
Proof.
  intros [j ->]. unfold hydrogenRuns. f_equal.
  symmetry. apply (Nat.div_unique _ 2 j 1); lia.
Qed.

Lemma find_first_valence (vs : list nat) (w n : nat) :
  List.find (λ n, w <=? 2 * n) vs = Some n →
  n ∈ vs ∧ w ≤ 2 * n
  ∧ (StronglySorted le vs → ∀ n', n' ∈ vs → w ≤ 2 * n' → n ≤ n').
Proof.
  induction vs as [| v vs IH]; cbn [List.find]; [done |].
  destruct (Nat.leb_spec w (2 * v)) as [Hle | Hgt].
  - intros [= ->]. split; [by left |]. split; [done |].
    intros [_ Hall]%StronglySorted_inv n' Hn' _.
    apply elem_of_cons in Hn' as [-> | Hn']; [lia |].
    rewrite Forall_forall in Hall. by apply Hall.
  - intros Hfind. destruct (IH Hfind) as (Hin & Hw & Hmin).
    split; [by right |]. split; [done |].
    intros [Hs _]%StronglySorted_inv n' Hn' Hn'w.
    apply elem_of_cons in Hn' as [-> | Hn']; [lia | by apply Hmin].
Qed.

Lemma get_key_elem {V} (o : list (nat * V)) (k : nat) (v : V) :
  JSObj.get o k = Some v → k ∈ JSObj.keys o.
Proof.
  induction o as [| [k' v'] o IH]; simpl; [done |].
  destruct (Nat.eqb_spec k' k) as [-> | Hne]; [by left | right; by apply IH].
Qed.

Lemma key_elem_get {V} (o : list (nat * V)) (k : nat) :
  k ∈ JSObj.keys o → is_Some (JSObj.get o k).
Proof.
  induction o as [| [k' v'] o IH]; simpl; [by intros ?%elem_of_nil |].
  intros Hk. destruct (Nat.eqb_spec k' k) as [-> | Hne]; [eauto |].
  apply elem_of_cons in Hk as [-> | Hk]; [done | by apply IH].
Qed.

Lemma sorted_NoDup (l : list nat) : StronglySorted lt l → NoDup l.
Proof.
  induction 1 as [| a l _ IH Hall]; constructor; [| done].
  rewrite Forall_forall in Hall. intros Hin. specialize (Hall a Hin). lia.
Qed.

Lemma sorted_split (l : list nat) (k : nat) :
  StronglySorted lt l → k ∈ l →
  ∃ pre post, l = pre ++ k :: post ∧ (k ∉ pre) ∧ (k ∉ post)
              ∧ ∀ x, x ∈ post → x ∉ pre.
Proof.
  intros Hs%sorted_NoDup Hk. apply list_elem_of_split in Hk as (pre & post & ->).
  exists pre, post. split; [done |].
  apply NoDup_app in Hs as (_ & Hdisj & Hpost%NoDup_cons).
  split; [intros Hin; apply (Hdisj k Hin); by left |].
  split; [apply Hpost |].
  intros x Hx Hpre. apply (Hdisj x Hpre). by right.
Qed.

(** C5, as the code has it.  On a molecule with ascending keys, every group
    under its ID and every ID below the counter of the [Group] class,
    [addImplicitHydrogens] ends without error.  An atom that is charged, a
    radical or outside the organic subset stays as it is.  For a neutral,
    non-radical atom of the organic subset with weight [w], the valence picked
    is the first valence [n] of its element with [w <= n], the smallest such
    valence when the table lists the valences in ascending order; the atom
    then gets one single bond to each of the new hydrogens [hs], which are
    implicit, and their number is [n - w] rounded up to a whole number ([n -
    w] itself when the weight is whole; weights are counted in halves).  When
    no valence is large enough the atom stays as it is. *)
Theorem addImplicitHydrogens_spec tbl (c : nat) (m : Molecule) :
  wellFormedBelow c (groups m) →
  ∃ c' m',
    addImplicitHydrogens tbl c m = Ok (c', m')
    ∧ ∀ gid g, JSObj.get (groups m) gid = Some g →
        (¬ eligible tbl g → JSObj.get (groups m') gid = Some g)
        ∧ (eligible tbl g →
           ∃ el vs w,
             firstElement g = Some el ∧ assoc tbl el = Some vs ∧ getBondCount m gid = Ok w
             ∧ match List.find (λ n, w <=? 2 * n) vs with
               | None => JSObj.get (groups m') gid = Some g
               | Some n =>
                   n ∈ vs ∧ w ≤ 2 * n
                   ∧ (StronglySorted le vs → ∀ n', n' ∈ vs → w ≤ 2 * n' → n ≤ n')
                   ∧ ∃ hs,
                       JSObj.get (groups m') gid
                       = Some (setBonds g (bonds g ++ map (mkBond Single) hs))
                       ∧ NoDup hs
                       ∧ (∀ h, h ∈ hs →
                               JSObj.get (groups m) h = None
                               ∧ JSObj.get (groups m') h
                                 = Some (implicitHydrogen h (chainDepth g + 1)))
                       ∧ 2 * n - w ≤ 2 * length hs ≤ 2 * n - w + 1
                       ∧ (Nat.Even w → 2 * length hs = 2 * n - w)
               end).
Proof.
  intros Hwf. unfold addImplicitHydrogens.
  destruct (addImplicitHydrogens_loop tbl (JSObj.keys (groups m)) c m Hwf)
    as (c' & m' & Hfold & _); [apply key_elem_get |].
  exists c', m'. split; [done |]. intros gid g Hg.
  pose proof (wellFormedBelow_key _ _ _ _ Hwf Hg) as Hgid.
  destruct (sorted_split (JSObj.keys (groups m)) gid)
    as (pre & post & Hkeys & Hpre & Hpost & Hdisj);
    [apply Hwf | by eapply get_key_elem |].
  assert (Hin : ∀ k, k ∈ pre ∨ k ∈ post → k ∈ JSObj.keys (groups m)).
  { intros k Hk. rewrite Hkeys. apply elem_of_app. destruct Hk; [by left | right; by right]. }
  rewrite Hkeys, foldR_app in Hfold. simpl in Hfold.
  destruct (addImplicitHydrogens_loop tbl pre c m Hwf)
    as (c1 & m1 & Hfold1 & Hc1 & Hwf1 & Hframe1 & Hin1).
  { intros k Hk. apply key_elem_get, Hin. by left. }
  rewrite Hfold1 in Hfold. simpl in Hfold.
  assert (Hg1 : JSObj.get (groups m1) gid = Some g) by (rewrite Hframe1; done).
  destruct (addImplicitHydrogensTo_spec tbl c1 m1 gid g Hwf1 Hg1)
    as (c2 & m2 & Hstep & Hc2 & Hwf2 & _ & Hframe2 & _ & Hyes & Hno).
  rewrite Hstep in Hfold. simpl in Hfold.
  destruct (addImplicitHydrogens_loop tbl post c2 m2 Hwf2)
    as (c3 & m3 & Hfold3 & Hc3 & Hwf3 & Hframe3 & _).
  { intros k Hk. assert (Hkm : is_Some (JSObj.get (groups m) k)).
    { apply key_elem_get, Hin. by right. }
    destruct Hkm as [gk Hgk].
    pose proof (wellFormedBelow_key _ _ _ _ Hwf Hgk) as Hkc.
    assert (k ≠ gid) by (intros ->; done).
    rewrite Hframe2 by (done || lia).
    rewrite Hframe1; [eauto | by apply Hdisj | done]. }
  rewrite Hfold3 in Hfold. injection Hfold as <- <-.
  assert (Hlast : ∀ k, k < c2 → k ∉ post → JSObj.get (groups m3) k = JSObj.get (groups m2) k).
  { intros k Hk Hkpost. by apply Hframe3. }
  assert (Hw : getBondCount m1 gid = getBondCount m gid).
  { rewrite (getBondCount_sum m1 gid g Hg1), (getBondCount_sum m gid g Hg).
    by rewrite Hin1. }
  split.
  - intros Hne. rewrite Hlast by (done || lia). by apply Hno.
  - intros Hel. destruct (Hyes Hel) as (el & vs & w & Hfirst & Hvs & Hweight & Hout).
    exists el, vs, w. rewrite <- Hw. split; [done |]. split; [done |]. split; [done |].
    destruct (List.find (λ n, w <=? 2 * n) vs) as [n |] eqn:Efind.
    + destruct (find_first_valence vs w n Efind) as (Hn & Hwn & Hmin).
      destruct Hout as (Hnext & Hbonds & Hhs).
      split; [done |]. split; [done |]. split; [done |].
      exists (seq c1 (hydrogenRuns (2 * n - w))).
      assert (Hnew : ∀ h, h ∈ seq c1 (hydrogenRuns (2 * n - w)) → c ≤ h < c2).
      { intros h Hh%elem_of_seq. lia. }
      split; [rewrite Hlast by (done || lia); done |].
      split; [apply NoDup_seq |]. split.
      { intros h Hh. destruct (Hnew h Hh) as [Hlo Hhi]. split.
        - apply Hwf. done.
        - rewrite Hlast; [by apply Hhs | done |].
          intros Hpost'. assert (Hkm : is_Some (JSObj.get (groups m) h)).
          { apply key_elem_get, Hin. by right. }
          destruct Hkm as [gh Hgh].
          pose proof (wellFormedBelow_key _ _ _ _ Hwf Hgh). lia. }
      rewrite length_seq. split; [apply hydrogenRuns_bounds |].
      intros [j ->]. apply hydrogenRuns_even. exists (n - j). lia.
    + rewrite Hlast by (done || lia). done.
Qed.

(** The groups [addImplicitHydrogens] creates are single hydrogen atoms,
    flagged implicit, without bonds of their own. *)
Lemma implicitHydrogen_fields (id depth : nat) :
  ID (implicitHydrogen id depth) = id
  ∧ elements (implicitHydrogen id depth) = [("H", 1)]
  ∧ isImplicit (implicitHydrogen id depth) = true
  ∧ bonds (implicitHydrogen id depth) = []
  ∧ chainDepth (implicitHydrogen id depth) = depth.
Proof. repeat split. Qed.

Lemma organicSubset_valences :
  ∀ el vs, assoc data_vars.organicSubset el = Some vs → vs ≠ [] ∧ StronglySorted le vs.
Proof.
  intros el vs. unfold data_vars.organicSubset. cbn [assoc].
  repeat (destruct (String.eqb _ el);
          [intros [= <-]; split; [discriminate | repeat constructor; lia] |]).
  discriminate.
Qed.

Lemma get_not_key {V} (o : list (nat * V)) (k : nat) :
  Forall (λ e, fst e ≠ k) o → JSObj.get o k = None.
Proof.
  induction 1 as [| [k' v'] o Hk _ IH]; [done |]. simpl in *.
  by rewrite (proj2 (Nat.eqb_neq k' k)).
Qed.

Lemma wellFormedBelow_small (c : nat) (gs : list (nat * Group)) :
  StronglySorted lt (JSObj.keys gs) →
  Forall (λ e, fst e < c ∧ ID (snd e) = fst e ∧ Forall (λ b, dest b < c) (bonds (snd e))) gs →
  wellFormedBelow c gs.
Proof.
  intros Hs Hall. split; [done |]. split.
  - intros k Hk. apply get_not_key. eapply Forall_impl; [exact Hall |].
    simpl. intros e (He & _). lia.
  - intros k g Hg. induction gs as [| [k' g'] gs IH]; [done |].
    apply Forall_cons in Hall as [(Hk' & HID & Hb) Hall]. simpl in *.
    destruct (Nat.eqb_spec k' k) as [-> | Hne].
    + injection Hg as <-. split; [done |]. by apply Forall_forall.
    + apply IH; [by apply StronglySorted_inv in Hs as [Hs _] | done | done].
Qed.

Lemma checkBondCounts_spec_witness :
  (checkBondCounts data_vars.organicSubset ethanolSkeleton = Ok BondsValid
   ∧ ∀ e, e ∈ groups ethanolSkeleton
          → ¬ breaksValence data_vars.organicSubset ethanolSkeleton (snd e))
  ∨ ∃ before e after el vs error,
      groups ethanolSkeleton = before ++ e :: after
      ∧ (∀ x, x ∈ before → ¬ breaksValence data_vars.organicSubset ethanolSkeleton (snd x))
      ∧ breaksValence data_vars.organicSubset ethanolSkeleton (snd e)
      ∧ checkBondCounts data_vars.organicSubset ethanolSkeleton
        = Ok (BondsInvalid (snd e) el error)
      ∧ firstElement (snd e) = Some el
      ∧ assoc data_vars.organicSubset el = Some vs
      ∧ error = bondCountError (snd e) el (totalWeight ethanolSkeleton (snd e)) vs
      ∧ errSource error = el
      ∧ columnNumber error = Z.of_nat <$> smilesStringPosition (snd e).
Proof.
  apply (checkBondCounts_spec data_vars.organicSubset ethanolSkeleton).
  intros e He. vm_compute in He.
  repeat (apply elem_of_cons in He as [-> | He]; [reflexivity |]).
  by apply elem_of_nil in He.
Defined.

Lemma addImplicitHydrogens_spec_witness :
  ∃ c' m',
    addImplicitHydrogens data_vars.organicSubset 3 ethanolSkeleton = Ok (c', m')
    ∧ ∃ hs, JSObj.get (groups m') 2
            = Some (setBonds (atomOf "O" 2 []) (map (mkBond Single) hs))
            ∧ length hs = 1.
Proof.
  destruct (addImplicitHydrogens_spec data_vars.organicSubset 3 ethanolSkeleton)
    as (c' & m' & Hrun & Hall).
  - apply wellFormedBelow_small.
    + vm_compute. repeat constructor; lia.
    + vm_compute. repeat constructor; lia.
  - exists c', m'. split; [exact Hrun |].
    destruct (Hall 2 (atomOf "O" 2 [])) as [_ Hyes]; [reflexivity |].
    destruct Hyes as (el & vs & w & Hel & Hvs & Hw & Hout).
    { repeat split. }
    vm_compute in Hel. injection Hel as <-.
    vm_compute in Hvs. injection Hvs as <-.
    vm_compute in Hw. injection Hw as <-.
    cbn [List.find Nat.leb Nat.mul Nat.add] in Hout.
    destruct Hout as (_ & _ & _ & hs & Hget & _ & _ & Hlen & _).
    exists hs. split; [exact Hget |]. simpl in Hlen. lia.
Defined.

(** C5 as stated fails where the weight is not whole.  In ["c1ccn2cccc2c1"]
    the nitrogen (group 3) has three aromatic bonds, weight 4.5; the valence
    picked is 5 and one hydrogen is added, not 5 - 4.5.  A carbon with one
    aromatic bond, weight 1.5, gets three hydrogens, not 4 - 1.5. *)
Lemma hydrogens_rounded_up :
  (∃ env m c' m' g',
     parseWith bareGraph freshCounters "c1ccn2cccc2c1" = Ok env
     ∧ molecules (ps env) = [m]
     ∧ getBondCount m 3 = Ok 9
     ∧ List.find (λ n, 9 <=? 2 * n) [3; 5] = Some 5
     ∧ addImplicitHydrogens data_vars.organicSubset (nextGroupID env) m = Ok (c', m')
     ∧ JSObj.get (groups m') 3 = Some g'
     ∧ (bonds <$> JSObj.get (groups m) 3)
       = Some [mkBond Aromatic 4; mkBond Aromatic 7]
     ∧ bonds g' = [mkBond Aromatic 4; mkBond Aromatic 7; mkBond Single 12]
     ∧ 2 * 1 ≠ 2 * 5 - 9)
  ∧ ∃ c' m' g',
      getBondCount aromaticPair 0 = Ok 3
      ∧ addImplicitHydrogens data_vars.organicSubset 2 aromaticPair = Ok (c', m')
      ∧ JSObj.get (groups m') 0 = Some g'
      ∧ bonds g' = [mkBond Aromatic 1; mkBond Single 2; mkBond Single 3; mkBond Single 4]
      ∧ 2 * 3 ≠ 2 * 4 - 3.
Proof.
  split.
  - do 5 eexists. split; [vm_compute; reflexivity |].
    split; [reflexivity |].
    split; [vm_compute; reflexivity |]. split; [reflexivity |].
    split; [vm_compute; reflexivity |]. split; [vm_compute; reflexivity |].
    split; [vm_compute; reflexivity |]. split; [vm_compute; reflexivity |]. simpl. lia.
  - do 3 eexists. split; [vm_compute; reflexivity |].
    split; [vm_compute; reflexivity |]. split; [vm_compute; reflexivity |].
    split; [vm_compute; reflexivity |]. simpl. lia.
Qed.

(** ** Hill system *)

Lemma ascii_compare_refl (a : ascii) : Ascii.compare a a = Eq.
Proof. unfold Ascii.compare. apply N.compare_refl. Qed.

Lemma ascii_compare_lt_trans (a b c : ascii) :
  Ascii.compare a b = Lt → Ascii.compare b c = Lt → Ascii.compare a c = Lt.
Proof. unfold Ascii.compare. rewrite !N.compare_lt_iff. apply N.lt_trans. Qed.

Lemma string_compare_lt_trans (s1 : string) :
  ∀ s2 s3, String.compare s1 s2 = Lt → String.compare s2 s3 = Lt → String.compare s1 s3 = Lt.
Proof.
  induction s1 as [| a s1 IH]; intros [| b s2] [| c s3]; simpl; try done.
  destruct (Ascii.compare a b) eqn:E1; try done;
    destruct (Ascii.compare b c) eqn:E2; try done; intros H1 H2.
  - apply Ascii.compare_eq_iff in E1 as ->. apply Ascii.compare_eq_iff in E2 as ->.
    rewrite ascii_compare_refl. by eapply IH.
  - apply Ascii.compare_eq_iff in E1 as ->. by rewrite E2.
  - apply Ascii.compare_eq_iff in E2 as <-. by rewrite E1.
  - by rewrite (ascii_compare_lt_trans a b c).
Qed.

Lemma string_compare_refl (s : string) : String.compare s s = Eq.
Proof. induction s as [| a s IH]; simpl; [done |]. by rewrite ascii_compare_refl. Qed.

Lemma strLe_cases (s1 s2 : string) : strLe s1 s2 ↔ String.ltb s1 s2 = true ∨ s1 = s2.
Proof.
  unfold strLe, String.leb, String.ltb. split.
  - destruct (String.compare s1 s2) eqn:E; try done; [| by left].
    right. by apply String.compare_eq_iff.
  - intros [H | ->]; [by destruct (String.compare s1 s2) | by rewrite string_compare_refl].
Qed.

Lemma ltb_trans (s1 s2 s3 : string) :
  String.ltb s1 s2 = true → String.ltb s2 s3 = true → String.ltb s1 s3 = true.
Proof.
  unfold String.ltb. intros H1 H2.
  rewrite (string_compare_lt_trans s1 s2 s3); [done | |].
  - by destruct (String.compare s1 s2).
  - by destruct (String.compare s2 s3).
Qed.

Global Instance strLe_total : Total strLe.
Proof. intros s1 s2. apply String.leb_total. Qed.

Global Instance strLe_trans : Transitive strLe.
Proof.
  intros s1 s2 s3 [H1 | ->]%strLe_cases [H2 | ->]%strLe_cases; apply strLe_cases; eauto.
  left. by eapply ltb_trans.
Qed.

Global Instance chargeLe_total : Total chargeLe.
Proof.
  intros a b. unfold chargeLe. destruct (ac_charge a), (ac_charge b); try (by left). lia.
Qed.

(** A list sorted between neighbours is sorted throughout when the order is
    transitive on its elements. *)
Lemma Sorted_StronglySorted_on {A} (R : A → A → Prop) (l : list A) :
  (∀ x y z, x ∈ l → y ∈ l → z ∈ l → R x y → R y z → R x z) →
  Sorted R l → StronglySorted R l.
Proof.
  induction l as [| a l IH]; intros Htrans Hs; [constructor |].
  apply Sorted_inv in Hs as [Hs Hhd].
  assert (Hl : StronglySorted R l).
  { apply IH; [| done]. intros x y z Hx Hy Hz. apply Htrans; by right. }
  constructor; [done |].
  destruct Hhd as [| b l' Hab]; [constructor |].
  apply StronglySorted_inv in Hl as [_ Hall]. constructor; [done |].
  apply Forall_forall. intros z Hz. rewrite Forall_forall in Hall.
  apply (Htrans a b z); [by left | right; by left | right; by right | done | by apply Hall].
Qed.

Lemma chargeLe_trans_on (l : list IAtomCount) :
  uniformCharges l →
  ∀ x y z, x ∈ l → y ∈ l → z ∈ l → chargeLe x y → chargeLe y z → chargeLe x z.
Proof.
  intros [Hsome | Hnone] x y z Hx Hy Hz; rewrite Forall_forall in *; unfold chargeLe.
  - destruct (Hsome x Hx) as [cx ->], (Hsome y Hy) as [cy ->], (Hsome z Hz) as [cz ->]. lia.
  - rewrite (Hnone x Hx). done.
Qed.

Lemma Forall_sortByCharge (P : IAtomCount → Prop) (l : list IAtomCount) :
  Forall P l → Forall P (sortByCharge l).
Proof.
  intros H. unfold sortByCharge. rewrite Forall_forall in *. intros x Hx.
  apply H. by rewrite <- (merge_sort_Permutation chargeLe l).
Qed.

Lemma uniformCharges_sortByCharge (l : list IAtomCount) :
  uniformCharges l → uniformCharges (sortByCharge l).
Proof. intros [H | H]; [left | right]; by apply Forall_sortByCharge. Qed.

Lemma sortByCharge_sorted (l : list IAtomCount) :
  uniformCharges l → StronglySorted chargeLe (sortByCharge l).
Proof.
  intros Hu. apply Sorted_StronglySorted_on.
  - apply chargeLe_trans_on. by apply uniformCharges_sortByCharge.
  - apply Sorted_merge_sort. apply _.
Qed.

Lemma Forall_filter_bool {A} (P : A → Prop) (f : A → bool) (l : list A) :
  Forall P l → Forall P (List.filter f l).
Proof.
  intros H. rewrite Forall_forall in *. intros x Hx. apply H.
  apply list_elem_of_In in Hx. apply List.filter_In in Hx as [Hx _]. by apply list_elem_of_In.
Qed.

Lemma Forall_filter_true {A} (f : A → bool) (l : list A) :
  Forall (λ x, f x = true) (List.filter f l).
Proof.
  rewrite Forall_forall. intros x Hx.
  apply list_elem_of_In in Hx. by apply List.filter_In in Hx as [_ Hx].
Qed.

Lemma uniformCharges_sub (l l' : list IAtomCount) :
  (∀ x, x ∈ l' → x ∈ l) → uniformCharges l → uniformCharges l'.
Proof.
  intros Hsub [H | H]; [left | right]; rewrite Forall_forall in *; intros x Hx; by apply H, Hsub.
Qed.

(** The entries [pushIon] collects: one list for each element, under its
    symbol. *)
Lemma pushIon_keys (els : list (string * list IAtomCount)) (a : IAtomCount) (k : string) :
  k ∈ map fst (pushIon els a) → k ∈ map fst els ∨ k = atom a.
Proof.
  induction els as [| [k' l] els IH]; simpl.
  - intros ->%list_elem_of_singleton. by right.
  - destruct (String.eqb k' (atom a)); simpl.
    + intros H. by left.
    + intros [-> | H]%elem_of_cons; [left; by left |].
      destruct (IH H) as [? | ?]; [left; by right | by right].
Qed.

Lemma pushIon_inv (P : IAtomCount → Prop) (els : list (string * list IAtomCount))
    (a : IAtomCount) :
  P a →
  NoDup (map fst els) ∧ Forall (λ e, Forall (λ x, atom x = fst e ∧ P x) (snd e)) els →
  NoDup (map fst (pushIon els a))
  ∧ Forall (λ e, Forall (λ x, atom x = fst e ∧ P x) (snd e)) (pushIon els a).
Proof.
  intros Ha. induction els as [| [k l] els IH]; simpl; intros [Hnd Hall].
  - split; [apply NoDup_singleton | by repeat constructor].
  - apply NoDup_cons in Hnd as [Hk Hnd]. apply Forall_cons in Hall as [Hl Hall].
    destruct (String.eqb_spec k (atom a)) as [-> | Hne]; simpl.
    + split; [by apply NoDup_cons |]. constructor; [| done].
      simpl. apply Forall_app. split; [done | by repeat constructor].
    + destruct IH as [Hnd' Hall']; [done |].
      split; [| by constructor]. apply NoDup_cons. split; [| done].
      intros [H | H]%pushIon_keys; [done | congruence].
Qed.

Lemma pushIon_fold_inv (P : IAtomCount → Prop) (atoms : list IAtomCount) :
  ∀ els,
    Forall P atoms →
    NoDup (map fst els) ∧ Forall (λ e, Forall (λ x, atom x = fst e ∧ P x) (snd e)) els →
    NoDup (map fst (fold_left pushIon atoms els))
    ∧ Forall (λ e, Forall (λ x, atom x = fst e ∧ P x) (snd e)) (fold_left pushIon atoms els).
Proof.
  induction atoms as [| a atoms IH]; intros els Hall Hinv; simpl; [done |].
  apply Forall_cons in Hall as [Ha Hall]. apply IH; [done |]. by apply pushIon_inv.
Qed.

Lemma assoc_key {V} (t : list (string * V)) (k : string) :
  k ∈ map fst t → ∃ v, assoc t k = Some v ∧ (k, v) ∈ t.
Proof.
  induction t as [| [k' v'] t IH]; simpl; [by intros ?%elem_of_nil |].
  intros Hk. destruct (String.eqb_spec k' k) as [-> | Hne].
  - exists v'. split; [done | by left].
  - apply elem_of_cons in Hk as [-> | Hk]; [done |].
    destruct (IH Hk) as (v & Hv & Hin). exists v. split; [done | by right].
Qed.

Lemma StronglySorted_app_cross {A} (R : A → A → Prop) (l1 l2 : list A) :
  StronglySorted R l1 → StronglySorted R l2 →
  (∀ x y, x ∈ l1 → y ∈ l2 → R x y) → StronglySorted R (l1 ++ l2).
Proof.
  induction l1 as [| a l1 IH]; intros H1 H2 Hcross; simpl; [done |].
  apply StronglySorted_inv in H1 as [H1 Ha].
  constructor.
  - apply IH; [done | done |]. intros x y Hx Hy. apply Hcross; [by right | done].
  - apply Forall_app. split; [done |].
    apply Forall_forall. intros y Hy. apply Hcross; [by left | done].
Qed.

Lemma StronglySorted_weaken {A} (R R' : A → A → Prop) (l : list A) :
  (∀ x y, x ∈ l → y ∈ l → R x y → R' x y) → StronglySorted R l → StronglySorted R' l.
Proof.
  induction l as [| a l IH]; intros Himpl Hs; [constructor |].
  apply StronglySorted_inv in Hs as [Hs Ha].
  constructor.
  - apply IH; [| done]. intros x y Hx Hy. apply Himpl; by right.
  - apply Forall_forall. intros y Hy. rewrite Forall_forall in Ha.
    apply Himpl; [by left | by right | by apply Ha].
Qed.

(** The entries of the remaining elements, element after element. *)
Lemma rest_sorted (f : string → list IAtomCount) (keys : list string) :
  StronglySorted (λ a b, String.ltb a b = true) keys →
  (∀ k, k ∈ keys → Forall (λ x, atom x = k) (f k) ∧ StronglySorted chargeLe (f k)) →
  StronglySorted restLe (flat_map f keys).
Proof.
  induction keys as [| k keys IH]; intros Hs Hf; simpl; [constructor |].
  apply StronglySorted_inv in Hs as [Hs Hk].
  destruct (Hf k) as [Hatoms Hsorted]; [by left |].
  rewrite Forall_forall in Hatoms.
  apply StronglySorted_app_cross.
  - eapply StronglySorted_weaken; [| exact Hsorted].
    intros x y Hx Hy Hxy. right. split; [| done].
    by rewrite (Hatoms x Hx), (Hatoms y Hy).
  - apply IH; [done |]. intros k' Hk'. apply Hf. by right.
  - intros x y Hx Hy. left.
    apply list_elem_of_In, in_flat_map in Hy as (k' & Hk' & Hy).
    apply list_elem_of_In in Hk', Hy.
    destruct (Hf k') as [Hatoms' _]; [by right |].
    rewrite Forall_forall in Hatoms'. rewrite Forall_forall in Hk.
    rewrite (Hatoms x Hx), (Hatoms' y Hy). by apply Hk.
Qed.

Lemma sorted_keys_strict (keys : list string) :
  NoDup keys → StronglySorted strLe keys →
  StronglySorted (λ a b, String.ltb a b = true) keys.
Proof.
  induction keys as [| k keys IH]; intros Hnd Hs; [constructor |].
  apply NoDup_cons in Hnd as [Hk Hnd]. apply StronglySorted_inv in Hs as [Hs Hall].
  constructor; [by apply IH |].
  apply Forall_forall. intros k' Hk'. rewrite Forall_forall in Hall.
  destruct (proj1 (strLe_cases k k') (Hall k' Hk')) as [? | ->]; done.
Qed.

Lemma Forall_rev_list {A} (P : A → Prop) (l : list A) : Forall P l → Forall P (rev l).
Proof.
  intros H. rewrite Forall_forall in *. intros x Hx. apply H.
  apply list_elem_of_In. apply in_rev. by apply list_elem_of_In.
Qed.

Lemma isAtom_true (el : string) (a : IAtomCount) : isAtom el a = true ↔ atom a = el.
Proof. unfold isAtom. apply String.eqb_eq. Qed.

Lemma isAtom_false (el : string) (a : IAtomCount) : negb (isAtom el a) = true ↔ atom a ≠ el.
Proof. unfold isAtom. rewrite negb_true_iff. apply String.eqb_neq. Qed.

(** The third part of [countAtoms]: the Hill order of the entries. *)
Lemma hillSystem_ordered (atoms : list IAtomCount) :
  uniformCharges atoms → HillOrdered (hillSystem atoms).
Proof.
  intros Hu. unfold hillSystem.
  set (atoms1 := List.filter (λ a, negb (isAtom "C" a)) atoms).
  set (atoms2 := List.filter (λ a, negb (isAtom "H" a)) atoms1).
  set (G := fold_left pushIon atoms2 []).
  set (elements := map (λ e, (fst e, sortByCharge (snd e))) G).
  assert (Hsub1 : ∀ x, x ∈ atoms1 → x ∈ atoms).
  { intros x Hx%list_elem_of_In. apply List.filter_In in Hx as [Hx _]. by apply list_elem_of_In. }
  assert (Hsub2 : ∀ x, x ∈ atoms2 → x ∈ atoms1).
  { intros x Hx%list_elem_of_In. apply List.filter_In in Hx as [Hx _]. by apply list_elem_of_In. }
  pose (P := λ a : IAtomCount, (atom a ≠ "C" ∧ atom a ≠ "H") ∧ a ∈ atoms).
  assert (HP : Forall P atoms2).
  { apply Forall_forall. intros x Hx. split; [| by apply Hsub1, Hsub2].
    pose proof (Hsub2 x Hx) as Hx1.
    apply list_elem_of_In, List.filter_In in Hx as [_ Hx].
    apply list_elem_of_In, List.filter_In in Hx1 as [_ Hx1].
    split; by apply isAtom_false. }
  destruct (pushIon_fold_inv P atoms2 [] HP) as [Hnd HG].
  { split; [apply NoDup_nil_2 | constructor]. }
  fold G in Hnd, HG.
  assert (Hkeys : map fst elements = map fst G).
  { unfold elements. rewrite map_map. done. }
  assert (Hentry : ∀ k, k ∈ merge_sort strLe (map fst elements) →
            ∃ l0, default [] (assoc elements k) = sortByCharge l0
                  ∧ Forall (λ x, atom x = k ∧ P x) l0).
  { intros k Hk. rewrite merge_sort_Permutation in Hk.
    destruct (assoc_key elements k Hk) as (l & -> & Hin). simpl.
    apply list_elem_of_In, in_map_iff in Hin as ([k0 l0] & [= -> <-] & Hin0).
    exists l0. split; [done |].
    rewrite Forall_forall in HG. apply (HG (k, l0)). by apply list_elem_of_In. }
  exists (sortByCharge (rev (List.filter (isAtom "C") atoms))),
         (sortByCharge (rev (List.filter (isAtom "H") atoms1))),
         (flat_map (λ e, default [] (assoc elements e)) (merge_sort strLe (map fst elements))).
  split; [done |]. split.
  { apply Forall_sortByCharge, Forall_rev_list.
    eapply Forall_impl; [apply Forall_filter_true |]. intros a. apply isAtom_true. }
  split.
  { apply sortByCharge_sorted. eapply uniformCharges_sub; [| exact Hu].
    intros x Hx%list_elem_of_In%in_rev%List.filter_In. apply list_elem_of_In, Hx. }
  split.
  { apply Forall_sortByCharge, Forall_rev_list.
    eapply Forall_impl; [apply Forall_filter_true |]. intros a. apply isAtom_true. }
  split.
  { apply sortByCharge_sorted. eapply uniformCharges_sub; [| exact Hu].
    intros x Hx%list_elem_of_In%in_rev%List.filter_In. apply Hsub1, list_elem_of_In, Hx. }
  split.
  - apply Forall_forall. intros x Hx.
    apply list_elem_of_In, in_flat_map in Hx as (k & Hk & Hx).
    apply list_elem_of_In in Hk, Hx.
    destruct (Hentry k Hk) as (l0 & Heq & Hl0). rewrite Heq in Hx.
    pose proof (Forall_sortByCharge _ _ Hl0) as Hall. rewrite Forall_forall in Hall.
    apply (Hall x Hx).
  - apply rest_sorted.
    + apply sorted_keys_strict.
      * rewrite merge_sort_Permutation, Hkeys. done.
      * apply StronglySorted_merge_sort; apply _.
    + intros k Hk. destruct (Hentry k Hk) as (l0 & -> & Hl0). split.
      * apply Forall_sortByCharge. eapply Forall_impl; [exact Hl0 |]. by intros x [? _].
      * apply sortByCharge_sorted. eapply uniformCharges_sub; [| exact Hu].
        intros x Hx. rewrite Forall_forall in Hl0. apply (Hl0 x Hx).
Qed.

(** The charges of the entries tallied: numbers when whole groups are
    counted, [NaN] when the groups are split. *)
Lemma tally_charges (P : IAtomCount → Prop) (t : Tally) key fresh n :
  (∀ a k, P a → P (addToCount k a)) → P fresh → Forall P (fst t) →
  Forall P (fst (tally t key fresh n)).
Proof.
  intros Hadd Hfresh Ht. unfold tally. destruct (indexOf (snd t) key); simpl.
  - apply Forall_alter; [done |]. intros x _. apply Hadd.
  - apply Forall_app. split; [done |]. constructor; [by apply Hadd | constructor].
Qed.

Lemma tallyGroup_charges ignore (gs : list (nat * Group)) :
  ∀ t, Forall (λ a, is_Some (ac_charge a)) (fst t) →
       Forall (λ a, is_Some (ac_charge a)) (fst (fold_left (tallyGroup ignore) gs t)).
Proof.
  induction gs as [| e gs IH]; intros t Ht; simpl; [done |].
  apply IH. unfold tallyGroup. apply tally_charges; [done | by eexists | done].
Qed.

Lemma tallyElements_charges ignore (gs : list (nat * Group)) :
  ∀ t, Forall (λ a, ac_charge a = None) (fst t) →
       Forall (λ a, ac_charge a = None) (fst (fold_left (tallyElements ignore) gs t)).
Proof.
  induction gs as [| e gs IH]; intros t Ht; simpl; [done |].
  apply IH. unfold tallyElements.
  generalize dependent t. induction (elements (snd e)) as [| el els IHe]; intros t Ht; simpl.
  - done.
  - apply IHe. simpl. apply Forall_app. split; [done | by repeat constructor].
Qed.

Lemma regroup_charges (atoms : list IAtomCount) :
  ∀ t t', Forall (λ a, ac_charge a = None) atoms →
          Forall (λ a, ac_charge a = None) (fst t) →
          foldR regroup atoms t = Ok t' →
          Forall (λ a, ac_charge a = None) (fst t').
Proof.
  induction atoms as [| a atoms IH]; intros t t' Hatoms Ht; simpl.
  - by intros [= <-].
  - apply Forall_cons in Hatoms as [Ha Hatoms].
    destruct (regroup t a) as [t1 |] eqn:E; simpl; [| done].
    apply IH; [done |]. unfold regroup in E.
    destruct (utils.regexNumTest (atom a)).
    + destruct (utils.extractElement (atom a)) as [el |]; simpl in E; [| done].
      injection E as <-. by apply tally_charges.
    + injection E as <-. destruct (indexOf _ _); simpl.
      * apply Forall_alter; [done |]. by intros x _.
      * apply Forall_app. split; [done | by repeat constructor].
Qed.

(** Splitting the groups throws only on a symbol with a digit in it. *)
Lemma regroup_total (atoms : list IAtomCount) :
  ∀ t, Forall (λ a, utils.regexNumTest (atom a) = false) atoms →
       ∃ t', foldR regroup atoms t = Ok t'.
Proof.
  induction atoms as [| a atoms IH]; intros t Hatoms; simpl; [eauto |].
  apply Forall_cons in Hatoms as [Ha Hatoms].
  unfold regroup at 1. rewrite Ha. simpl. by apply IH.
Qed.

Lemma tallyElements_atoms ignore (P : string → Prop) (gs : list (nat * Group)) :
  ∀ t, Forall (λ e, Forall (λ el, P (fst el)) (elements (snd e))) gs →
       Forall (λ a, P (atom a)) (fst t) →
       Forall (λ a, P (atom a)) (fst (fold_left (tallyElements ignore) gs t)).
Proof.
  induction gs as [| e gs IH]; intros t Hgs Ht; simpl; [done |].
  apply Forall_cons in Hgs as [He Hgs]. apply IH; [done |]. unfold tallyElements.
  generalize dependent t. induction He as [| el els Hel _ IHe]; intros t Ht; simpl.
  - done.
  - apply IHe. simpl. apply Forall_app. split; [done | by repeat constructor].
Qed.

(** C6. With the Hill order on (the default), the list [countAtoms]
    returns has the carbon entries first, in ascending order of charge, then
    the hydrogen entries, in ascending order of charge, then the entries of
    the other elements in the order of their symbols (the order of [sort()] on
    strings, by character code), those of one symbol in ascending order of
    charge.  Counting whole groups always returns a list; counting split
    groups does when no element symbol of the molecule has a digit in it.
    (Entries of split groups carry no charge.) *)
Theorem countAtoms_hill_order (m : Molecule) (opts : ICountAtoms) :
  hillSystemOrder opts ≠ Some false →
  (∀ l, countAtoms m opts = Ok l → HillOrdered l)
  ∧ (splitGroups opts ≠ Some true
     ∨ Forall (λ e, Forall (λ el, utils.regexNumTest (fst el) = false) (elements (snd e)))
              (groups m) →
     ∃ l, countAtoms m opts = Ok l ∧ HillOrdered l).
Proof.
  intros Hhill.
  assert (Hh : default true (hillSystemOrder opts) = true).
  { destruct (hillSystemOrder opts) as [[|] |]; done. }
  assert (Hordered : ∀ l, countAtoms m opts = Ok l → HillOrdered l).
  { intros l. unfold countAtoms. rewrite Hh.
    destruct (default false (splitGroups opts)).
    - destruct (foldR regroup _ _) as [atoms |] eqn:E; simpl; [| done].
      intros [= <-]. apply hillSystem_ordered. right.
      eapply regroup_charges; [| | exact E]; [| constructor].
      apply tallyElements_charges. constructor.
    - simpl. intros [= <-]. apply hillSystem_ordered. left.
      apply tallyGroup_charges. constructor. }
  split; [exact Hordered |].
  intros Htotal.
  assert (Hok : ∃ l, countAtoms m opts = Ok l).
  { unfold countAtoms. destruct (default false (splitGroups opts)) eqn:Hsplit.
    - destruct Htotal as [Hne | Hdigits].
      { destruct (splitGroups opts) as [[|] |]; done. }
      destruct (regroup_total
                  (fst (fold_left (tallyElements (default false (ignoreCharge opts)))
                          (groups m) ([], []))) ([], [])) as [t' ->].
      { apply (tallyElements_atoms _ (λ s, utils.regexNumTest s = false)); [done | constructor]. }
      simpl. eauto.
    - simpl. eauto. }
  destruct Hok as [l Hl]. exists l. split; [done | by apply Hordered].
Qed.

Lemma countAtoms_hill_order_witness :
  ∃ l, countAtoms ethanolSkeleton (mkCountAtoms None None None) = Ok l ∧ HillOrdered l.
Proof.
  destruct (countAtoms_hill_order ethanolSkeleton (mkCountAtoms None None None)) as [_ Htotal].
  - discriminate.
  - apply Htotal. left. discriminate.
Defined.

(** * Further properties of the code *)

(** ** Bonds of a group: [getAllBonds], [getBondCount], [getBond], [severBond] *)

Lemma get_bondArrays (m : Molecule) (k : nat) :
  JSObj.get (bondArrays m) k = bonds <$> JSObj.get (groups m) k.
Proof.
  unfold bondArrays. induction (groups m) as [| [k' g] gs IH]; simpl; [done |].
  destruct (k' =? k); [done | apply IH].
Qed.

Lemma filter_dest (bs : list IBond) (k : nat) :
  filter (λ b, dest b = k) bs = List.filter (λ b, dest b =? k) bs.
Proof.
  induction bs as [| b bs IH]; [done |].
  rewrite filter_cons. simpl. rewrite IH.
  destruct (Nat.eqb_spec (dest b) k), (decide (dest b = k)); done.
Qed.

Lemma sumBonds_retarget (bs : list IBond) (k : nat) :
  sumBonds (map (λ b, mkBond (bond b) k) bs) = sumBonds bs.
Proof.
  induction bs as [| b bs IH]; [done |].
  simpl map. by rewrite !sumBonds_cons, IH.
Qed.

Lemma sumBonds_reversed (m : Molecule) (k : nat) :
  sumBonds (flat_map (reversedBonds k) (bondArrays m)) = incoming k (groups m).
Proof.
  unfold incoming, bondArrays. induction (groups m) as [| [k' g] gs IH]; [done |].
  simpl. rewrite sumBonds_app, IH. f_equal.
  unfold reversedBonds. simpl. destruct (k' =? k); [done |].
  by rewrite sumBonds_retarget, filter_dest.
Qed.

(** X1. [getBondCount] is the sum of the weights of the bonds [getAllBonds]
    returns, and throws when [getAllBonds] throws. *)
Theorem getBondCount_getAllBonds (m : Molecule) (k : nat) :
  getBondCount m k = (bs ←r getAllBonds m k ;; Ok (sumBonds bs)).
Proof.
  unfold getAllBonds, allBondsOf. rewrite get_bondArrays.
  destruct (JSObj.get (groups m) k) as [g |] eqn:Hg.
  - rewrite (getBondCount_sum m k g Hg). simpl.
    by rewrite sumBonds_app, sumBonds_reversed.
  - unfold getBondCount. rewrite Hg. done.
Qed.

Lemma find_app_list {A} (f : A → bool) (l1 l2 : list A) :
  List.find f (l1 ++ l2)
  = match List.find f l1 with Some x => Some x | None => List.find f l2 end.
Proof.
  induction l1 as [| x l1 IH]; simpl; [done |]. destruct (f x); [done | apply IH].
Qed.

Lemma find_reversedBonds (a b k : nat) (bs : list IBond) :
  List.find (λ x, dest x =? b) (reversedBonds a (k, bs))
  = if k =? a then None
    else if k =? b then (λ x, mkBond (bond x) k) <$> List.find (λ x, dest x =? a) bs
    else None.
Proof.
  unfold reversedBonds. simpl. destruct (k =? a); [done |].
  rewrite filter_dest. induction bs as [| x bs IH]; simpl.
  - by destruct (k =? b).
  - destruct (dest x =? a); simpl; [| apply IH].
    destruct (k =? b); [done | apply IH].
Qed.

Lemma find_reversed_none (a b : nat) (gs : list (nat * Group)) :
  Forall (λ e, fst e ≠ b) gs →
  List.find (λ x, dest x =? b)
    (flat_map (reversedBonds a) (map (λ e, (fst e, bonds (snd e))) gs)) = None.
Proof.
  induction 1 as [| [k g] gs Hk _ IH]; simpl; [done |].
  rewrite find_app_list, find_reversedBonds, IH.
  destruct (k =? a); [done |]. simpl in Hk.
  by rewrite (proj2 (Nat.eqb_neq k b)).
Qed.

Lemma find_reversed (a b : nat) (gs : list (nat * Group)) :
  StronglySorted lt (JSObj.keys gs) →
  List.find (λ x, dest x =? b)
    (flat_map (reversedBonds a) (map (λ e, (fst e, bonds (snd e))) gs))
  = if b =? a then None
    else g ← JSObj.get gs b;
         (λ x, mkBond (bond x) b) <$> List.find (λ x, dest x =? a) (bonds g).
Proof.
  induction gs as [| [k g] gs IH]; simpl.
  { intros _. by destruct (b =? a). }
  intros [Hs Hall]%StronglySorted_inv. rewrite find_app_list, find_reversedBonds.
  assert (Hrest : k = b →
            List.find (λ x, dest x =? b)
              (flat_map (reversedBonds a) (map (λ e, (fst e, bonds (snd e))) gs)) = None).
  { intros ->. apply find_reversed_none.
    apply (proj1 (Forall_keys (λ k, k ≠ b) gs)).
    eapply Forall_impl; [exact Hall |]. simpl. lia. }
  rewrite (IH Hs) in *.
  destruct (Nat.eqb_spec k a) as [-> | Hka].
  - destruct (Nat.eqb_spec b a) as [-> | Hba]; [done |].
    by rewrite (proj2 (Nat.eqb_neq a b)).
  - destruct (Nat.eqb_spec k b) as [-> | Hkb]; [| done].
    rewrite (proj2 (Nat.eqb_neq b a)) in * by done. simpl.
    destruct (List.find (λ x, dest x =? a) (bonds g)); simpl; [done |].
    by apply Hrest.
Qed.

(** X2. [getBond(a, b)] agrees with [getAllBonds(a)]: on a molecule whose
    two groups exist it finds a bond exactly when [getAllBonds(a)] holds a
    bond that leads to [b], the first such bond has the type of the record
    found, and a bond is found from [a] exactly when one is found from [b]. *)
Theorem getBond_getAllBonds (m : Molecule) (a b : nat) (ga gb : Group) :
  StronglySorted lt (JSObj.keys (groups m)) →
  JSObj.get (groups m) a = Some ga →
  JSObj.get (groups m) b = Some gb →
  ∃ bs r r',
    getAllBonds m a = Ok bs ∧ getBond m a b = Ok r ∧ getBond m b a = Ok r'
    ∧ bond <$> r = bond <$> List.find (λ x, dest x =? b) bs
    ∧ (is_Some r ↔ is_Some r').
Proof.
  intros Hs Ha Hb. unfold getAllBonds, allBondsOf, getBond.
  rewrite get_bondArrays, Ha, Hb. simpl.
  assert (Hfind : ∀ bs,
            bs = bonds ga ++ flat_map (reversedBonds a) (bondArrays m) →
            List.find (λ x, dest x =? b) bs
            = match List.find (λ x, dest x =? b) (bonds ga) with
              | Some x => Some x
              | None =>
                  if b =? a then None
                  else (λ x, mkBond (bond x) b) <$> List.find (λ x, dest x =? a) (bonds gb)
              end).
  { intros bs ->. rewrite find_app_list. unfold bondArrays.
    rewrite (find_reversed a b (groups m) Hs), Hb. done. }
  destruct (List.find (λ x, dest x =? b) (bonds ga)) as [x |] eqn:Ea;
    destruct (List.find (λ x, dest x =? a) (bonds gb)) as [y |] eqn:Eb; simpl;
    eexists _, _, _; (split; [done |]); (split; [done |]); (split; [done |]);
    rewrite (Hfind _ eq_refl).
  - split; [done |]. split; eauto.
  - split; [done |]. split; eauto.
  - destruct (Nat.eqb_spec b a) as [-> | Hne].
    + rewrite Ha in Hb. injection Hb as ->. congruence.
    + split; [done |]. split; eauto.
  - destruct (b =? a); split; try done; split; intros [? ?]; done.
Qed.

Lemma getBond_getAllBonds_witness :
  ∃ bs r r',
    getAllBonds ethanolSkeleton 2 = Ok bs ∧ getBond ethanolSkeleton 2 1 = Ok r
    ∧ getBond ethanolSkeleton 1 2 = Ok r'
    ∧ bond <$> r = bond <$> List.find (λ x, dest x =? 1) bs
    ∧ (is_Some r ↔ is_Some r').
Proof.
  apply (getBond_getAllBonds ethanolSkeleton 2 1 (atomOf "O" 2 []) (atomOf "C" 1 [mkBond Single 2])).
  - repeat constructor; lia.
  - reflexivity.
  - reflexivity.
Defined.

Lemma find_findIndex {A} (f : A → bool) (l : list A) :
  match List.find f l with
  | Some x => ∃ i, findIndex f l = Some i ∧ l !! i = Some x ∧ f x = true
  | None => findIndex f l = None
  end.
Proof.
  induction l as [| y l IH]; simpl; [done |].
  destruct (f y) eqn:E; [by exists 0 |].
  destruct (List.find f l) as [x |].
  - destruct IH as (i & -> & Hi & Hx). by exists (S i).
  - by rewrite IH.
Qed.

Lemma incoming_replace (gs : list (nat * Group)) (k k' : nat) (old g' : Group) :
  StronglySorted lt (JSObj.keys gs) →
  JSObj.get gs k' = Some old →
  incoming k (JSObj.set gs k' g') + contribution k k' old
  = incoming k gs + contribution k k' g'.
Proof.
  unfold incoming, contribution.
  induction gs as [| [k0 g0] gs IH]; simpl; intros Hs Hget; [done |].
  apply StronglySorted_inv in Hs as [Hs Hk0].
  destruct (Nat.eqb_spec k0 k') as [-> | Hne]; simpl.
  - injection Hget as ->. lia.
  - destruct (Nat.ltb_spec k' k0); simpl.
    + rewrite get_above in Hget; [done |].
      apply Forall_keys in Hk0. eapply Forall_impl; [exact Hk0 |]. simpl. lia.
    + specialize (IH Hs Hget). lia.
Qed.

Lemma keys_set_present {V} (o : list (nat * V)) (k : nat) (v v' : V) :
  StronglySorted lt (JSObj.keys o) → JSObj.get o k = Some v →
  JSObj.keys (JSObj.set o k v') = JSObj.keys o.
Proof.
  induction o as [| [k0 v0] o IH]; simpl; [done |].
  intros [Hs Hk0]%StronglySorted_inv Hget.
  destruct (Nat.eqb_spec k0 k) as [-> | Hne]; [done |].
  destruct (Nat.ltb_spec k k0); simpl.
  - rewrite get_above in Hget; [done |].
    apply Forall_keys in Hk0. eapply Forall_impl; [exact Hk0 |]. simpl. lia.
  - f_equal. by apply IH.
Qed.

(** Removing the record [bd] from the bonds of the group [g] stored under
    [owner], a record that leads to [other]. *)
Lemma sever_at (m : Molecule) (owner other : nat) (g : Group) (i : nat) (bd : IBond) :
  StronglySorted lt (JSObj.keys (groups m)) →
  JSObj.get (groups m) owner = Some g →
  bonds g !! i = Some bd → dest bd = other →
  let m' := setGroups m (JSObj.set (groups m) owner (setBonds g (delete i (bonds g)))) in
  bonds g = take i (bonds g) ++ bd :: drop (S i) (bonds g)
  ∧ JSObj.get (groups m') owner = Some (setBonds g (take i (bonds g) ++ drop (S i) (bonds g)))
  ∧ (∀ k, k ≠ owner → JSObj.get (groups m') k = JSObj.get (groups m) k)
  ∧ JSObj.keys (groups m') = JSObj.keys (groups m)
  ∧ (∀ k gk, (k = owner ∨ k = other) → JSObj.get (groups m) k = Some gk →
       ∃ w, getBondCount m' k = Ok w
            ∧ getBondCount m k = Ok (w + getBondNumber (bond bd))).
Proof.
  intros Hs Hg Hi Hd m'. subst m' other. rewrite delete_take_drop.
  pose proof (take_drop_middle _ _ _ Hi) as Hsplit. symmetry in Hsplit.
  generalize dependent (take i (bonds g)). intros pre.
  generalize dependent (drop (S i) (bonds g)). intros post Hsplit.
  set (g' := setBonds g (pre ++ post)).
  set (m' := setGroups m (JSObj.set (groups m) owner g')).
  assert (Hg' : JSObj.get (groups m') owner = Some g') by apply get_set_eq.
  assert (Hframe : ∀ k, k ≠ owner → JSObj.get (groups m') k = JSObj.get (groups m) k).
  { intros k Hk. unfold m'. simpl. by rewrite get_set_ne. }
  split; [done |]. split; [done |]. split; [done |].
  split; [unfold m'; simpl; by eapply keys_set_present |].
  intros k gk Hk Hgk.
  pose proof (incoming_replace (groups m) k owner g g' Hs Hg) as Hin.
  change (JSObj.set (groups m) owner g') with (groups m') in Hin.
  unfold contribution in Hin. simpl in Hin. rewrite Hsplit in Hin.
  rewrite !List.filter_app in Hin. simpl in Hin.
  destruct (decide (k = owner)) as [-> | Hne].
  - rewrite Hg in Hgk. injection Hgk as <-.
    rewrite (getBondCount_sum m' owner _ Hg'), (getBondCount_sum m owner _ Hg).
    rewrite Nat.eqb_refl in Hin. eexists. split; [done |]. f_equal.
    change (groups m') with (JSObj.set (groups m) owner g').
    simpl. rewrite Hsplit, !sumBonds_app, sumBonds_cons. lia.
  - destruct Hk as [-> | ->]; [done |].
    rewrite (getBondCount_sum m' (dest bd) gk), (getBondCount_sum m (dest bd) gk Hgk)
      by (rewrite Hframe; done).
    rewrite (proj2 (Nat.eqb_neq owner (dest bd))) in Hin by done.
    rewrite Nat.eqb_refl in Hin. rewrite !sumBonds_app, sumBonds_cons in Hin.
    change (groups m') with (JSObj.set (groups m) owner g').
    eexists. split; [done |]. f_equal. lia.
Qed.

(** X3. [severBond(a, b)] on two groups of a molecule.  When [getBond(a, b)]
    finds nothing, nothing changes and [false] is returned.  Otherwise [true]
    is returned and exactly the record [getBond] finds is taken out of the
    bonds of the group that stores it; every other group, and the keys, stay
    as they are, and the bond counts of [a] and of [b] drop by the weight of
    that bond. *)
Theorem severBond_spec (m : Molecule) (a b : nat) (ga gb : Group) :
  StronglySorted lt (JSObj.keys (groups m)) →
  JSObj.get (groups m) a = Some ga →
  JSObj.get (groups m) b = Some gb →
  (getBond m a b = Ok None → severBond m a b = Ok (m, false))
  ∧ ∀ bd, getBond m a b = Ok (Some bd) →
      ∃ m' owner g pre post,
        severBond m a b = Ok (m', true)
        ∧ (owner = a ∨ owner = b)
        ∧ JSObj.get (groups m) owner = Some g
        ∧ bonds g = pre ++ bd :: post
        ∧ JSObj.get (groups m') owner = Some (setBonds g (pre ++ post))
        ∧ (∀ k, k ≠ owner → JSObj.get (groups m') k = JSObj.get (groups m) k)
        ∧ JSObj.keys (groups m') = JSObj.keys (groups m)
        ∧ ∀ k gk, (k = a ∨ k = b) → JSObj.get (groups m) k = Some gk →
            ∃ w, getBondCount m' k = Ok w
                 ∧ getBondCount m k = Ok (w + getBondNumber (bond bd)).
Proof.
  intros Hs Ha Hb. unfold getBond, severBond. rewrite Ha, Hb. simpl.
  pose proof (find_findIndex (λ x, dest x =? b) (bonds ga)) as Hfa.
  pose proof (find_findIndex (λ x, dest x =? a) (bonds gb)) as Hfb.
  destruct (List.find (λ x, dest x =? b) (bonds ga)) as [x |].
  - destruct Hfa as (i & -> & Hi & Hx%Nat.eqb_eq). split; [done |].
    intros bd [= <-].
    destruct (sever_at m a b ga i x Hs Ha Hi Hx) as (Hsplit & Hg' & Hframe & Hkeys & Hw).
    eexists _, a, ga, _, _. split; [done |]. split; [by left |]. split; [done |].
    split; [exact Hsplit |]. split; [exact Hg' |]. split; [done |]. split; [done |].
    intros k gk Hk. by apply Hw.
  - rewrite Hfa. destruct (List.find (λ x, dest x =? a) (bonds gb)) as [y |].
    + destruct Hfb as (i & -> & Hi & Hy%Nat.eqb_eq). split; [done |].
      intros bd [= <-].
      destruct (sever_at m b a gb i y Hs Hb Hi Hy) as (Hsplit & Hg' & Hframe & Hkeys & Hw).
      eexists _, b, gb, _, _. split; [done |]. split; [by right |]. split; [done |].
      split; [exact Hsplit |]. split; [exact Hg' |]. split; [done |]. split; [done |].
      intros k gk Hk. apply Hw. destruct Hk; [by right | by left].
    + rewrite Hfb. split; [done |]. intros bd [=].
Qed.

Lemma severBond_spec_witness :
  ∃ m' owner g pre post,
    severBond ethanolSkeleton 2 1 = Ok (m', true)
    ∧ (owner = 2 ∨ owner = 1)
    ∧ JSObj.get (groups ethanolSkeleton) owner = Some g
    ∧ bonds g = pre ++ mkBond Single 2 :: post
    ∧ JSObj.get (groups m') owner = Some (setBonds g (pre ++ post))
    ∧ (∀ k, k ≠ owner → JSObj.get (groups m') k = JSObj.get (groups ethanolSkeleton) k)
    ∧ JSObj.keys (groups m') = JSObj.keys (groups ethanolSkeleton)
    ∧ ∀ k gk, (k = 2 ∨ k = 1) → JSObj.get (groups ethanolSkeleton) k = Some gk →
        ∃ w, getBondCount m' k = Ok w
             ∧ getBondCount ethanolSkeleton k = Ok (w + getBondNumber (bond (mkBond Single 2))).
Proof.
  apply (severBond_spec ethanolSkeleton 2 1 (atomOf "O" 2 []) (atomOf "C" 1 [mkBond Single 2])).
  - repeat constructor; lia.
  - reflexivity.
  - reflexivity.
  - reflexivity.
Defined.

(** ** The constructor of [Molecule] *)

Lemma elem_get_sorted {V} (o : list (nat * V)) (e : nat * V) :
  StronglySorted lt (JSObj.keys o) → e ∈ o → JSObj.get o (fst e) = Some (snd e).
Proof.
  induction o as [| [k v] o IH]; simpl; [by intros _ ?%elem_of_nil |].
  intros [Hs Hall]%StronglySorted_inv He.
  apply elem_of_cons in He as [-> | He]; simpl; [by rewrite Nat.eqb_refl |].
  destruct (Nat.eqb_spec k (fst e)) as [-> | Hne]; [| by apply IH].
  rewrite Forall_forall in Hall. specialize (Hall (fst e)).
  assert (fst e ∈ JSObj.keys o) as Hin%Hall; [| lia].
  unfold JSObj.keys. apply list_elem_of_In, in_map, list_elem_of_In, He.
Qed.

Lemma reduce_groups (gs : list Group) :
  let obj := fold_left (λ obj group, JSObj.set obj (ID group) group) gs [] in
  StronglySorted lt (JSObj.keys obj)
  ∧ ∀ id, JSObj.get obj id = last (filter (λ g, ID g = id) gs).
Proof.
  induction gs as [| g gs IH] using rev_ind; simpl.
  { split; [constructor | done]. }
  rewrite fold_left_app. simpl. destruct IH as [Hs Hget].
  split; [by apply keys_set_sorted |].
  intros id. rewrite filter_app, filter_cons, filter_nil.
  destruct (decide (ID g = id)) as [<- | Hne].
  - by rewrite get_set_eq, last_snoc.
  - by rewrite get_set_ne, app_nil_r.
Qed.

Lemma setProperty_elem {V} (o : list (nat * V)) (k : nat) (v : V) (e : nat * V) :
  e ∈ setProperty o k v → e = (k, v) ∨ e ∈ o.
Proof.
  induction o as [| [k' v'] o IH]; simpl.
  { intros ?%list_elem_of_singleton. by left. }
  destruct (k' =? k).
  { intros [-> | He]%elem_of_cons; [by left | right; by right]. }
  destruct (isArrayIndex k && (negb (isArrayIndex k') || (k <? k'))).
  { intros [-> | He]%elem_of_cons; [by left | by right]. }
  intros [-> | He]%elem_of_cons; [right; by left |].
  destruct (IH He) as [-> | Ho]; [by left | right; by right].
Qed.

Lemma get_setProperty_eq {V} (o : list (nat * V)) (k : nat) (v : V) :
  JSObj.get (setProperty o k v) k = Some v.
Proof.
  induction o as [| [k' v'] o IH]; simpl; [by rewrite Nat.eqb_refl |].
  destruct (k' =? k) eqn:E; simpl; [by rewrite Nat.eqb_refl |].
  destruct (isArrayIndex k && (negb (isArrayIndex k') || (k <? k'))); simpl.
  - by rewrite Nat.eqb_refl.
  - by rewrite E.
Qed.

Lemma get_setProperty_ne {V} (o : list (nat * V)) (k j : nat) (v : V) :
  k ≠ j → JSObj.get (setProperty o k v) j = JSObj.get o j.
Proof.
  intros Hne. apply Nat.eqb_neq in Hne.
  induction o as [| [k' v'] o IH]; simpl; [by rewrite Hne |].
  destruct (Nat.eqb_spec k' k) as [-> | Hk]; simpl; [by rewrite Hne |].
  destruct (isArrayIndex k && (negb (isArrayIndex k') || (k <? k'))); simpl.
  - by rewrite Hne.
  - by rewrite IH.
Qed.

(** On array indices [setProperty] is [JSObj.set]. *)
Lemma setProperty_set {V} (o : list (nat * V)) (k : nat) (v : V) :
  isArrayIndex k = true → Forall (λ e, isArrayIndex (fst e) = true) o →
  setProperty o k v = JSObj.set o k v.
Proof.
  intros Hk. induction 1 as [| [k' v'] o Hk' _ IH]; simpl; [done |].
  simpl in Hk'. rewrite Hk, Hk', IH. simpl. done.
Qed.

Lemma reduce_any_groups (gs : list Group) :
  let obj := fold_left (λ obj group, setProperty obj (ID group) group) gs [] in
  (∀ e, e ∈ obj → e.2 ∈ gs ∧ ID e.2 = e.1)
  ∧ ∀ id, JSObj.get obj id = last (filter (λ g, ID g = id) gs).
Proof.
  induction gs as [| g gs IH] using rev_ind; simpl.
  { split; [by intros e ?%elem_of_nil | done]. }
  rewrite fold_left_app. simpl. destruct IH as [Hin Hget]. split.
  - intros e [-> | He]%setProperty_elem; simpl.
    + split; [| done]. apply elem_of_app. right. by left.
    + destruct (Hin e He) as [Hg HID]. split; [| done]. apply elem_of_app. by left.
  - intros id. rewrite filter_app, filter_cons, filter_nil.
    destruct (decide (ID g = id)) as [<- | Hne].
    + by rewrite get_setProperty_eq, last_snoc.
    + by rewrite get_setProperty_ne, app_nil_r.
Qed.

Lemma reduce_index_groups (gs : list Group) :
  Forall (λ g, isArrayIndex (ID g) = true) gs →
  fold_left (λ obj group, setProperty obj (ID group) group) gs []
  = fold_left (λ obj group, JSObj.set obj (ID group) group) gs [].
Proof.
  induction gs as [| g gs IH] using rev_ind; [done |].
  intros [Hgs Hg%Forall_inv]%Forall_app. rewrite !fold_left_app. simpl.
  rewrite <- (IH Hgs). apply setProperty_set; [done |].
  apply Forall_forall. intros e He.
  destruct (proj1 (reduce_any_groups gs) e He) as [Hin <-].
  rewrite Forall_forall in Hgs. by apply Hgs.
Qed.

(** X4. [new Molecule(groups)] on an array: every group of the object built
    is stored under its own ID, the group found under an ID is the last
    group of the array with that ID, and the molecule has no rings.  When
    every ID is an array index (below 2^32 - 1), the keys of the object are
    ascending. *)
Theorem newMolecule_array (ref : nat) (gs : list Group) :
  keysMatch (newMolecule ref (GroupArray gs))
  ∧ (∀ id, JSObj.get (groups (newMolecule ref (GroupArray gs))) id
           = last (filter (λ g, ID g = id) gs))
  ∧ rings (newMolecule ref (GroupArray gs)) = []
  ∧ (Forall (λ g, isArrayIndex (ID g) = true) gs →
     StronglySorted lt (JSObj.keys (groups (newMolecule ref (GroupArray gs))))).
Proof.
  destruct (reduce_any_groups gs) as [Hin Hget]. simpl.
  split; [intros e He; by apply Hin |]. split; [done |]. split; [done |].
  intros Hgs. rewrite (reduce_index_groups gs Hgs). apply reduce_groups.
Qed.

Lemma newMolecule_array_witness :
  StronglySorted lt
    (JSObj.keys (groups (newMolecule 0
       (GroupArray [atomOf "C" 3 []; atomOf "O" 1 []; atomOf "N" 3 []])))).
Proof.
  apply (newMolecule_array 0 [atomOf "C" 3 []; atomOf "O" 1 []; atomOf "N" 3 []]).
  repeat constructor.
Defined.

(** ** [removeUnbondedGroups] *)

(** The number of bonds [getAllBonds] lists for a key; 0 where it throws. *)
Lemma getAllBonds_key (m : Molecule) (k : nat) (bs : list IBond) :
  getAllBonds m k = Ok bs →
  k ∈ JSObj.keys (groups m) ∧ allBondsOf (bondArrays m) k = Some bs.
Proof.
  unfold getAllBonds. destruct (allBondsOf (bondArrays m) k) as [bs' |] eqn:E; [| done].
  intros [= ->]. split; [| done].
  unfold allBondsOf in E. rewrite get_bondArrays in E.
  destruct (JSObj.get (groups m) k) as [g |] eqn:Hg; [| done].
  by eapply get_key_elem.
Qed.

Lemma sum_allBondsMap (F : nat → option (list IBond)) (K : list nat) :
  list_sum (map (λ e, length (snd e)) (omap (λ gid, pair gid <$> F gid) K))
  = list_sum (map (λ k, length (default [] (F k))) K).
Proof.
  induction K as [| k K IH]; simpl; [done |].
  destruct (F k); simpl; [f_equal |]; exact IH.
Qed.

Lemma sum_filter_out (L : nat → nat) (K done : list nat) (k : nat) :
  k ∈ K → k ∉ done →
  list_sum (map L (filter (λ x, x ∉ k :: done) K)) + L k
  ≤ list_sum (map L (filter (λ x, x ∉ done) K)).
Proof.
  intros Hk Hdone. induction K as [| x K IH]; [by apply elem_of_nil in Hk |].
  rewrite !filter_cons.
  assert (Hweak : list_sum (map L (filter (λ x, x ∉ k :: done) K))
                  ≤ list_sum (map L (filter (λ x, x ∉ done) K))).
  { clear. induction K as [| y K IH]; [done |]. rewrite !filter_cons.
    destruct (decide (y ∉ k :: done)) as [Hy | Hy].
    - rewrite decide_True by (intros ?; apply Hy; by right). simpl. lia.
    - destruct (decide (y ∉ done)); simpl; lia. }
  destruct (decide (x = k)) as [-> | Hne].
  - rewrite decide_False by (intros Hn; apply Hn; by left).
    rewrite decide_True by done. simpl. lia.
  - apply elem_of_cons in Hk as [-> | Hk]; [done |]. specialize (IH Hk).
    destruct (decide (x ∉ done)) as [Hx | Hx].
    + rewrite decide_True by (by intros [? | ?]%elem_of_cons). simpl. lia.
    + rewrite decide_False by (intros Hn; apply Hx; intros ?; apply Hn; by right). lia.
Qed.

Lemma filter_notin_nil (K : list nat) : filter (λ k, k ∉ []) K = K.
Proof.
  induction K as [| k K IH]; [done |].
  rewrite filter_cons_True by apply not_elem_of_nil. by rewrite IH.
Qed.

Lemma sweepLoop_fuel (m : Molecule) (fuel : nat) :
  ∀ s,
    length (sw_stack s)
    + list_sum (map (λ k, length (default [] (allBondsOf (bondArrays m) k)))
                  (filter (λ k, k ∉ sw_doneGroups s) (JSObj.keys (groups m)))) ≤ fuel →
    sweepLoop fuel m s ≠ Err OutOfFuel.
Proof.
  induction fuel as [| fuel IH]; intros [stack done bonded]; simpl; intros Hfuel.
  { destruct stack; [done | simpl in Hfuel; lia]. }
  unfold sweepStep. simpl. destruct stack as [| gid below]; [done |]. simpl in Hfuel.
  case_bool_decide as Hdone; simpl.
  { apply IH. simpl. lia. }
  destruct (getAllBonds m gid) as [bs | e] eqn:Hbs; simpl.
  2: { unfold getAllBonds in Hbs. destruct (allBondsOf _ _); [done |]. by injection Hbs as <-. }
  apply IH. simpl. apply getAllBonds_key in Hbs as [Hkey Hall].
  pose proof (sum_filter_out (λ k, length (default [] (allBondsOf (bondArrays m) k)))
                (JSObj.keys (groups m)) done gid Hkey Hdone) as Hsum.
  simpl in Hsum. rewrite Hall in Hsum. simpl in Hsum.
  rewrite length_app, length_map.
  pose proof (length_filter (λ b, dest b ∉ gid :: done) bs). lia.
Qed.

(** X5. [removeUnbondedGroups] ends: every group is explored once, so the
    loop takes at most one turn for the start and one for each bond. *)
Theorem removeUnbondedGroups_terminates (m : Molecule) (startID : nat) :
  removeUnbondedGroups m startID ≠ Err OutOfFuel.
Proof.
  unfold removeUnbondedGroups.
  pose proof (sweepLoop_fuel m (sweepFuel m) (mkSweepState [startID] [] [startID])) as H.
  destruct (sweepLoop _ _ _) as [bonded | e]; simpl; [done |].
  intros [= ->]. apply H; [| done]. simpl. unfold sweepFuel, allBondsMap.
  rewrite sum_allBondsMap.
  rewrite filter_notin_nil. lia.
Qed.

Lemma get_filter_keys {V} (Q : nat → Prop) `{∀ k, Decision (Q k)} (o : list (nat * V))
    (k : nat) :
  JSObj.get (filter (λ e, Q (fst e)) o) k = if decide (Q k) then JSObj.get o k else None.
Proof.
  induction o as [| [k' v] o IH]; simpl; [by destruct (decide (Q k)) |].
  rewrite filter_cons. simpl. destruct (decide (Q k')) as [Hk' | Hk']; simpl.
  - destruct (Nat.eqb_spec k' k) as [-> | Hne]; [by rewrite decide_True | done].
  - destruct (Nat.eqb_spec k' k) as [-> | Hne]; [| done].
    rewrite IH. by destruct (decide (Q k)).
Qed.

Lemma elem_of_rev {A} (l : list A) (x : A) : x ∈ rev l ↔ x ∈ l.
Proof. rewrite !list_elem_of_In. symmetry. apply in_rev. Qed.

Lemma elem_of_map {A B} (f : A → B) (l : list A) (y : B) :
  y ∈ map f l ↔ ∃ x, y = f x ∧ x ∈ l.
Proof.
  rewrite list_elem_of_In, in_map_iff. split; intros (x & Hx & Hin); exists x.
  - by rewrite list_elem_of_In.
  - by rewrite <- list_elem_of_In.
Qed.

(** When the stack is empty the bonded groups are closed under bonds. *)
Lemma sweep_closed (m : Molecule) (startID : nat) (done bonded : list nat) :
  startID ∈ bonded →
  (∀ k, k ∈ bonded → connected m startID k) →
  (∀ k, k ∈ bonded → k ∈ done ∨ k ∈ []) →
  (∀ k, k ∈ done → ∃ bs, getAllBonds m k = Ok bs ∧ ∀ b, b ∈ bs → dest b ∈ bonded) →
  (∀ k, k ∈ bonded ↔ connected m startID k)
  ∧ ∃ bs, getAllBonds m startID = Ok bs.
Proof.
  intros Hstart Hconn Hcover Hclosed.
  assert (Hall : ∀ k, k ∈ bonded → k ∈ done).
  { intros k [? | ?%elem_of_nil]%Hcover; done. }
  split.
  - intros k. split; [apply Hconn |].
    induction 1 as [| a bs b _ IHa Hbs Hb]; [done |].
    destruct (Hclosed a (Hall _ IHa)) as (bs' & Hbs' & Hin).
    rewrite Hbs in Hbs'. injection Hbs' as <-. by apply Hin.
  - destruct (Hclosed startID (Hall _ Hstart)) as (bs & ? & _). eauto.
Qed.

(** What the loop of [removeUnbondedGroups] keeps true of its three
    collections. *)
Lemma sweepLoop_connected (m : Molecule) (startID : nat) (fuel : nat) :
  ∀ s bonded,
    startID ∈ sw_bondedGroups s →
    (∀ k, k ∈ sw_bondedGroups s → connected m startID k) →
    (∀ k, k ∈ sw_stack s → k ∈ sw_bondedGroups s) →
    (∀ k, k ∈ sw_doneGroups s → k ∈ sw_bondedGroups s) →
    (∀ k, k ∈ sw_bondedGroups s → k ∈ sw_doneGroups s ∨ k ∈ sw_stack s) →
    (∀ k, k ∈ sw_doneGroups s →
          ∃ bs, getAllBonds m k = Ok bs ∧ ∀ b, b ∈ bs → dest b ∈ sw_bondedGroups s) →
    sweepLoop fuel m s = Ok bonded →
    (∀ k, k ∈ bonded ↔ connected m startID k)
    ∧ ∃ bs, getAllBonds m startID = Ok bs.
Proof.
  induction fuel as [| fuel IH]; intros [stack done bonded0] bonded; simpl;
    intros Hstart Hconn Hstack Hdone Hcover Hclosed;
    unfold sweepStep; simpl; destruct stack as [| gid below].
  - intros [= <-]. by eapply sweep_closed.
  - done.
  - intros [= <-]. by eapply sweep_closed.
  - case_bool_decide as Hgid; simpl.
    { apply IH; simpl; try done.
      - intros k Hk. apply Hstack. by right.
      - intros k [Hk | [-> | Hk]%elem_of_cons]%Hcover; auto. }
    destruct (getAllBonds m gid) as [bs | e] eqn:Hbs; simpl; [| done].
    assert (Hg : gid ∈ bonded0) by (apply Hstack; by left).
    apply IH; simpl.
    + apply elem_of_app. by left.
    + intros k [Hk | Hk%(proj1 (elem_of_rev _ _))]%elem_of_app; [by apply Hconn |].
      apply elem_of_map in Hk as (b & -> & [_ Hb]%list_elem_of_filter).
      eapply connected_bond; [by apply Hconn | done | done].
    + intros k [Hk | Hk]%elem_of_app; apply elem_of_app.
      * right. by apply elem_of_rev.
      * left. apply Hstack. by right.
    + intros k [-> | Hk]%elem_of_cons; apply elem_of_app; left; auto.
    + intros k [Hk | Hk%(proj1 (elem_of_rev _ _))]%elem_of_app.
      * destruct (Hcover k Hk) as [? | [-> | ?]%elem_of_cons].
        -- left. by right.
        -- left. by left.
        -- right. apply elem_of_app. by right.
      * right. apply elem_of_app. by left.
    + intros k [-> | Hk]%elem_of_cons.
      * exists bs. split; [done |]. intros b Hb. apply elem_of_app.
        destruct (decide (dest b ∈ gid :: done)) as [[-> | Hd]%elem_of_cons | Hn].
        -- by left.
        -- left. by apply Hdone.
        -- right. apply elem_of_rev, elem_of_map. exists b. split; [done |].
           by apply list_elem_of_filter.
      * destruct (Hclosed k Hk) as (bs' & Hbs' & Hin). exists bs'. split; [done |].
        intros b Hb. apply elem_of_app. left. by apply Hin.
Qed.

(** X6. What [removeUnbondedGroups(startID)] keeps and what it discards,
    when it returns: the start group exists; the groups kept are exactly the
    groups bonded to the start, directly or through other groups, each under
    its key as before; all other groups are returned in the discarded object;
    the rings of the molecule are left as they are. *)
Theorem removeUnbondedGroups_spec (m m' : Molecule) (startID : nat)
    (discarded : list (nat * Group)) :
  removeUnbondedGroups m startID = Ok (m', discarded) →
  is_Some (JSObj.get (groups m') startID)
  ∧ (∀ k, connected m startID k →
          JSObj.get (groups m') k = JSObj.get (groups m) k ∧ JSObj.get discarded k = None)
  ∧ (∀ k, ¬ connected m startID k →
          JSObj.get (groups m') k = None ∧ JSObj.get discarded k = JSObj.get (groups m) k)
  ∧ groups m' `sublist_of` groups m
  ∧ discarded `sublist_of` groups m
  ∧ length (groups m') + length discarded = length (groups m)
  ∧ rings m' = rings m ∧ molRef m' = molRef m.
Proof.
  unfold removeUnbondedGroups.
  destruct (sweepLoop _ _ _) as [bonded | e] eqn:Hloop; simpl; [| done].
  intros [= <- <-]. simpl.
  pose proof (sweepLoop_connected m startID (sweepFuel m)
                (mkSweepState [startID] [] [startID]) bonded) as H.
  simpl in H. destruct H as [Hiff [bs Hbs]];
    [by left | intros k ->%list_elem_of_singleton; constructor | done
    | by intros k ?%elem_of_nil | by right | by intros k ?%elem_of_nil | done |].
  assert (Hkept : ∀ k, JSObj.get (filter (λ e, fst e ∈ bonded) (groups m)) k
                       = if decide (k ∈ bonded) then JSObj.get (groups m) k else None).
  { intros k. exact (get_filter_keys (λ k, k ∈ bonded) (groups m) k). }
  assert (Hdisc : ∀ k, JSObj.get (filter (λ e, fst e ∉ bonded) (groups m)) k
                       = if decide (k ∉ bonded) then JSObj.get (groups m) k else None).
  { intros k. exact (get_filter_keys (λ k, k ∉ bonded) (groups m) k). }
  split.
  { rewrite Hkept, decide_True by (apply Hiff; constructor).
    apply key_elem_get. by apply getAllBonds_key in Hbs as [? _]. }
  split.
  { intros k Hk%Hiff. rewrite Hkept, Hdisc, decide_True, decide_False by auto. done. }
  split.
  { intros k Hk. assert (k ∉ bonded) by (by intros ?%Hiff).
    rewrite Hkept, Hdisc, decide_False, decide_True by auto. done. }
  split; [apply sublist_filter |]. split; [apply sublist_filter |].
  split; [| done].
  clear. induction (groups m) as [| e gs IH]; [done |].
  rewrite !filter_cons. destruct (decide (fst e ∈ bonded)).
  - rewrite decide_False by auto. simpl. lia.
  - rewrite decide_True by auto. simpl. lia.
Qed.

Lemma removeUnbondedGroups_spec_witness :
  is_Some (JSObj.get (groups (mkMolecule 0 [(0, atomOf "C" 0 [mkBond Single 1]); (1, atomOf "C" 1 [])] [])) 0)
  ∧ length (groups (mkMolecule 0 [(0, atomOf "C" 0 [mkBond Single 1]); (1, atomOf "C" 1 [])] []))
    + length [(2, atomOf "O" 2 [])]
    = length (groups (mkMolecule 0 [(0, atomOf "C" 0 [mkBond Single 1]);
                                     (1, atomOf "C" 1 []); (2, atomOf "O" 2 [])] [])).
Proof.
  destruct (removeUnbondedGroups_spec
              (mkMolecule 0 [(0, atomOf "C" 0 [mkBond Single 1]);
                             (1, atomOf "C" 1 []); (2, atomOf "O" 2 [])] [])
              (mkMolecule 0 [(0, atomOf "C" 0 [mkBond Single 1]); (1, atomOf "C" 1 [])] [])
              0 [(2, atomOf "O" 2 [])])
    as (H1 & _ & _ & _ & _ & H2 & _); [vm_compute; reflexivity |].
  split; [exact H1 | exact H2].
Defined.

(** ** [ParsedSMILES.addMolecule] *)

Lemma delete_app_middle {A} (l1 l2 : list A) (x : A) :
  delete (length l1) (l1 ++ x :: l2) = l1 ++ l2.
Proof. induction l1 as [| y l1 IH]; simpl; [done | by rewrite IH]. Qed.

Lemma filter_all {A} (f : A → bool) (l : list A) :
  (∀ x, x ∈ l → f x = true) → List.filter f l = l.
Proof.
  induction l as [| x l IH]; intros H; simpl; [done |].
  rewrite (H x) by (by left). rewrite IH; [done |]. intros y Hy. apply H. by right.
Qed.

Lemma filter_none {A} (f : A → bool) (l : list A) :
  (∀ x, x ∈ l → f x = false) → List.filter f l = [].
Proof.
  induction l as [| x l IH]; intros H; simpl; [done |].
  rewrite (H x) by (by left). apply IH. intros y Hy. apply H. by right.
Qed.

Lemma spliceIn_inside {A} (arr : list A) (pos : Z) (x : A) :
  (0 ≤ pos ≤ Z.of_nat (length arr))%Z →
  spliceIn arr pos x = take (Z.to_nat pos) arr ++ x :: drop (Z.to_nat pos) arr
  ∧ length (take (Z.to_nat pos) arr) = Z.to_nat pos.
Proof.
  intros Hpos. unfold spliceIn.
  rewrite (proj2 (Z.ltb_ge pos 0)) by lia. rewrite Z.min_l by lia.
  split; [done |]. rewrite length_take. lia.
Qed.

(** X7. A molecule added with [addMolecule] at a position up to the first
    reaction marker plus one, and up to every later marker plus one, is
    taken out again by [removeMolecule], which gives back the parse result
    as it was: the molecules, the rings and the reaction markers. *)
Theorem addMolecule_removeMolecule (p : ParsedSMILES) (mol : Molecule) (molRings : list Ring)
    (pos : Z) :
  (∀ m, m ∈ molecules p → molRef m ≠ molRef mol) →
  map ringID molRings = rings mol →
  (∀ r, r ∈ ps_rings p → ringID r ∉ rings mol) →
  (0 ≤ pos ≤ Z.of_nat (length (molecules p)))%Z →
  (∀ r, r ∈ reactionIndexes p → (pos ≤ r + 1)%Z) →
  removeMolecule (addMolecule p mol molRings (Some pos)) mol = (p, true).
Proof.
  intros Hfresh Hrings Hold Hpos Hri.
  destruct (spliceIn_inside (molecules p) pos mol Hpos) as [Hsplice Hlen].
  assert (Hri' : reactionIndexes (addMolecule p mol molRings (Some pos))
                 = map (λ i, (i + 1)%Z) (reactionIndexes p)).
  { unfold addMolecule. cbn [reactionIndexes default].
    destruct (reactionIndexes p) as [| r0 ri] eqn:E; [done |]. unfold id.
    rewrite (proj2 (Z.leb_le pos (r0 + 1))) by (apply Hri; by left). done. }
  assert (Hms : molecules (addMolecule p mol molRings (Some pos))
                = take (Z.to_nat pos) (molecules p) ++ mol :: drop (Z.to_nat pos) (molecules p)).
  { rewrite <- Hsplice. done. }
  assert (Hrs : ps_rings (addMolecule p mol molRings (Some pos)) = ps_rings p ++ molRings)
    by done.
  unfold removeMolecule. rewrite Hms, Hrs, Hri', findIndex_first; first last.
  - by rewrite Nat.eqb_refl.
  - intros y Hy. apply Nat.eqb_neq, Hfresh.
    rewrite <- (take_drop (Z.to_nat pos) (molecules p)). apply elem_of_app. by left.
  - rewrite delete_app_middle, take_drop.
    rewrite Hlen, List.filter_app, filter_all, filter_none, app_nil_r; first last.
    + intros r Hr. apply negb_true_iff, bool_decide_eq_false. by apply Hold.
    + intros r Hr. apply negb_false_iff, bool_decide_eq_true.
      rewrite <- Hrings. apply elem_of_map. by exists r.
    + destruct p as [s o gm ms opn rs ri]. simpl in *. f_equal. f_equal.
      rewrite map_map. rewrite <- (map_id ri) at 2. apply map_ext_in.
      intros r Hr%list_elem_of_In. specialize (Hri r Hr).
      rewrite (proj2 (Z.leb_le _ _)) by lia. lia.
Qed.

Lemma addMolecule_removeMolecule_witness :
  removeMolecule
    (addMolecule
       (mkParsedSMILES "C>>O" allEnabled [] [mkMolecule 0 [] [7]; mkMolecule 1 [] []] []
          [newRing 7 1 0] [0; 0]%Z)
       (mkMolecule 5 [] [9]) [newRing 9 2 4] (Some 1%Z))
    (mkMolecule 5 [] [9])
  = (mkParsedSMILES "C>>O" allEnabled [] [mkMolecule 0 [] [7]; mkMolecule 1 [] []] []
       [newRing 7 1 0] [0; 0]%Z, true).
Proof.
  apply addMolecule_removeMolecule.
  - intros m Hm. apply list_elem_of_In in Hm. simpl in Hm.
    destruct Hm as [<- | [<- | []]]; simpl; lia.
  - reflexivity.
  - intros r Hr Hin. apply list_elem_of_In in Hr. simpl in Hr.
    destruct Hr as [<- | []]. apply list_elem_of_In in Hin. simpl in Hin.
    destruct Hin as [Hin | []]. discriminate Hin.
  - simpl. lia.
  - intros r Hr. apply list_elem_of_In in Hr. simpl in Hr.
    destruct Hr as [<- | [<- | []]]; lia.
Defined.

(** X8. [addMolecule] without a position puts the molecule before the last
    molecule of the result, not after it. *)
Theorem addMolecule_default_position (p : ParsedSMILES) (mol : Molecule) (molRings : list Ring)
    (init : list Molecule) (lastMol : Molecule) :
  molecules p = init ++ [lastMol] →
  molecules (addMolecule p mol molRings None) = init ++ [mol; lastMol].
Proof.
  intros Hms. unfold addMolecule. cbn [molecules default]. rewrite Hms.
  destruct (spliceIn_inside (init ++ [lastMol])
              (Z.of_nat (length (init ++ [lastMol])) - 1) mol) as [-> _].
  { rewrite length_app. simpl. lia. }
  replace (Z.to_nat (Z.of_nat (length (init ++ [lastMol])) - 1)) with (length init)
    by (rewrite length_app; simpl; lia).
  by rewrite take_app_length, drop_app_length.
Qed.

Lemma addMolecule_default_position_witness :
  molecules (addMolecule (newParsedSMILES "C" allEnabled 0) (mkMolecule 1 [] []) [] None)
  = [] ++ [mkMolecule 1 [] []; mkMolecule 0 [] []].
Proof. apply addMolecule_default_position. reflexivity. Defined.

(** X9. [addMolecule] at a position past the first reaction marker plus one
    keeps the number of markers but not their values: every marker becomes
    its own index in the array or that index plus one, and the first marker
    becomes 1. *)
Theorem addMolecule_past_first_marker (p : ParsedSMILES) (mol : Molecule)
    (molRings : list Ring) (pos r0 : Z) (rest : list Z) :
  reactionIndexes p = r0 :: rest →
  (r0 + 1 < pos)%Z →
  length (reactionIndexes (addMolecule p mol molRings (Some pos)))
  = length (reactionIndexes p)
  ∧ reactionIndexes (addMolecule p mol molRings (Some pos)) !! 0 = Some 1%Z
  ∧ ∀ i r, reactionIndexes (addMolecule p mol molRings (Some pos)) !! i = Some r →
           r = Z.of_nat i ∨ r = (Z.of_nat i + 1)%Z.
Proof.
  intros Hri Hpos. unfold addMolecule. cbn [reactionIndexes default]. rewrite Hri.
  unfold id. rewrite (proj2 (Z.leb_gt pos (r0 + 1))) by lia.
  split; [by rewrite length_imap |]. split; [done |].
  intros i r. rewrite list_lookup_imap.
  destruct ((r0 :: rest) !! i); simpl; [| done].
  intros [= <-]. destruct (i <=? _); auto.
Qed.

Lemma addMolecule_past_first_marker_witness :
  reactionIndexes
    (addMolecule
       (mkParsedSMILES "C>>O.N" allEnabled []
          [mkMolecule 0 [] []; mkMolecule 1 [] []; mkMolecule 2 [] []] [] [] [0; 0]%Z)
       (mkMolecule 5 [] []) [] (Some 3%Z)) !! 0 = Some 1%Z.
Proof.
  apply (addMolecule_past_first_marker
           (mkParsedSMILES "C>>O.N" allEnabled []
              [mkMolecule 0 [] []; mkMolecule 1 [] []; mkMolecule 2 [] []] [] [] [0; 0]%Z)
           (mkMolecule 5 [] []) [] 3 0 [0%Z]); [reflexivity | lia].
Defined.

(** ** [pathfind] and [traceBondPath] *)

Lemma get_allBondsMap (m : Molecule) (gid : nat) (bs : list IBond) :
  JSObj.get (allBondsMap m) gid = Some bs →
  gid ∈ JSObj.keys (groups m) ∧ getAllBonds m gid = Ok bs.
Proof.
  unfold allBondsMap, getAllBonds.
  induction (JSObj.keys (groups m)) as [| k K IH]; simpl; [done |].
  destruct (allBondsOf (bondArrays m) k) as [bs' |] eqn:E; simpl.
  - destruct (Nat.eqb_spec k gid) as [-> | Hne].
    + intros [= ->]. rewrite E. split; [by left | done].
    + intros [? ?]%IH. split; [by right | done].
  - intros [? ?]%IH. split; [by right | done].
Qed.

Lemma sum_decrease (f f' : nat → nat) (K : list nat) (x : nat) :
  x ∈ K → f' x < f x → (∀ k, k ≠ x → f' k = f k) →
  list_sum (map f' K) + 1 ≤ list_sum (map f K).
Proof.
  intros Hx Hlt Hsame.
  assert (Hle : ∀ l, list_sum (map f' l) ≤ list_sum (map f l)).
  { induction l as [| k l IH]; simpl; [done |].
    destruct (decide (k = x)) as [-> | Hne]; [lia | rewrite Hsame by done; lia]. }
  induction K as [| k K IH]; [by apply elem_of_nil in Hx |]. simpl.
  destruct (decide (k = x)) as [-> | Hne].
  - specialize (Hle K). lia.
  - apply elem_of_cons in Hx as [-> | Hx]; [done |].
    specialize (IH Hx). rewrite Hsame by done. lia.
Qed.

(** The turns [pathfind] has left: two for every bond index not yet tried,
    one for every group on the stack. *)
Lemma pathfindLoop_fuel (allBonds : list (nat * list IBond)) (endID : nat)
    (availableGroups : option (list nat)) (K : list nat) (fuel : nat) :
  (∀ gid bs, JSObj.get allBonds gid = Some bs → gid ∈ K) →
  ∀ s,
    2 * list_sum (map (λ k, length (default [] (JSObj.get allBonds k))
                            - default 0 (JSObj.get (explored s) k)) K)
    + length (currGroups s) ≤ fuel →
    pathfindLoop fuel allBonds endID availableGroups s ≠ Err OutOfFuel.
Proof.
  intros HK. induction fuel as [| fuel IH]; intros [ps cur grs ex]; simpl; intros Hfuel.
  { destruct grs; [done | simpl in Hfuel; lia]. }
  unfold pathfindStep. simpl. destruct grs as [| gid below]; [done |]. simpl in Hfuel.
  destruct (gid =? endID); simpl.
  { apply IH. simpl. lia. }
  destruct (JSObj.get allBonds gid) as [bs |] eqn:Hbs; simpl; [| done].
  destruct (JSObj.get ex gid) as [bi |] eqn:Hbi; simpl; [| done].
  destruct (bs !! bi) as [b |] eqn:Hb; simpl.
  2: { apply IH. simpl. lia. }
  apply lookup_lt_Some in Hb.
  pose proof (sum_decrease
                (λ k, length (default [] (JSObj.get allBonds k)) - default 0 (JSObj.get ex k))
                (λ k, length (default [] (JSObj.get allBonds k))
                      - default 0 (JSObj.get (JSObj.set ex gid (bi + 1)) k))
                K gid (HK _ _ Hbs)) as Hdec.
  simpl in Hdec. rewrite get_set_eq, Hbs, Hbi in Hdec. simpl in Hdec.
  specialize (Hdec ltac:(lia)).
  assert (Hsame : ∀ k, k ≠ gid →
            length (default [] (JSObj.get allBonds k))
            - default 0 (JSObj.get (JSObj.set ex gid (bi + 1)) k)
            = length (default [] (JSObj.get allBonds k)) - default 0 (JSObj.get ex k)).
  { intros k Hk. by rewrite get_set_ne. }
  specialize (Hdec Hsame).
  destruct (bool_decide _ || negb _); simpl; apply IH; simpl; lia.
Qed.

Lemma get_zeroes (K : list nat) (k : nat) :
  default 0 (JSObj.get (map (λ gid, (gid, 0)) K) k) = 0.
Proof.
  induction K as [| x K IH]; simpl; [done |]. by destruct (x =? k).
Qed.

(** X10. [pathfind] ends, whatever the bonds are: an index of a bond of a
    group is tried once in the whole search, so the loop takes at most two
    turns for every entry of the bond lists, plus one. *)
Theorem pathfind_terminates (m : Molecule) (startID endID : nat)
    (availableGroups : option (list nat)) :
  pathfind m startID endID availableGroups ≠ Err OutOfFuel.
Proof.
  unfold pathfind.
  apply (pathfindLoop_fuel _ _ _ (JSObj.keys (groups m))).
  { intros gid bs Hbs. by apply get_allBondsMap in Hbs as [? _]. }
  simpl. unfold pathfindFuel.
  assert (Hle : list_sum (map (λ k, length (default [] (JSObj.get (allBondsMap m) k))
                                    - default 0 (JSObj.get (map (λ gid, (gid, 0))
                                                              (JSObj.keys (groups m))) k))
                            (JSObj.keys (groups m)))
                ≤ list_sum (map (λ e, length (snd e)) (allBondsMap m))).
  { unfold allBondsMap at 2. rewrite sum_allBondsMap.
    generalize (JSObj.keys (groups m)) at 2 3. intros K.
    induction K as [| k K IH]; simpl; [done |].
    rewrite get_zeroes. destruct (JSObj.get (allBondsMap m) k) as [bs |] eqn:E; simpl.
    - apply get_allBondsMap in E as [_ E]. unfold getAllBonds in E.
      destruct (allBondsOf (bondArrays m) k); [| done]. injection E as ->. simpl. lia.
    - lia. }
  lia.
Qed.

Lemma traceFrom_snoc (m : Molecule) (path : list nat) :
  ∀ at_ rest x bs c b,
    traceFrom m at_ path = Ok rest →
    last (at_ :: rest) = Some x →
    getAllBonds m x = Ok bs → bs !! c = Some b →
    traceFrom m at_ (path ++ [c]) = Ok (rest ++ [dest b]).
Proof.
  induction path as [| c0 path IH]; intros at_ rest x bs c b; simpl.
  - intros [= <-] [= <-] -> Hb. simpl. by rewrite Hb.
  - destruct (getAllBonds m at_) as [bs0 |]; simpl; [| done].
    destruct (bs0 !! c0) as [b0 |]; simpl; [| done].
    destruct (traceFrom m (dest b0) path) as [rest0 |] eqn:Hrest; simpl; [| done].
    intros [= <-] Hlast Hbs Hb.
    rewrite (IH (dest b0) rest0 x bs c b Hrest); [done | | done | done].
    by rewrite last_cons_cons in Hlast.
Qed.

Lemma traceFrom_unsnoc (m : Molecule) (path : list nat) :
  ∀ at_ c rest',
    traceFrom m at_ (path ++ [c]) = Ok rest' →
    ∃ rest g, rest' = rest ++ [g] ∧ traceFrom m at_ path = Ok rest.
Proof.
  induction path as [| c0 path IH]; intros at_ c rest'; simpl.
  - destruct (getAllBonds m at_) as [bs |]; simpl; [| done].
    destruct (bs !! c) as [b |]; simpl; [| done].
    intros [= <-]. by exists [], (dest b).
  - destruct (getAllBonds m at_) as [bs0 |]; simpl; [| done].
    destruct (bs0 !! c0) as [b0 |]; simpl; [| done].
    destruct (traceFrom m (dest b0) (path ++ [c])) as [rest0 |] eqn:Hrest; simpl; [| done].
    intros [= <-]. destruct (IH _ _ _ Hrest) as (rest & g & -> & ->).
    by exists (dest b0 :: rest), g.
Qed.

Lemma traceFrom_length (m : Molecule) (path : list nat) :
  ∀ at_ rest, traceFrom m at_ path = Ok rest → length rest = length path.
Proof.
  induction path as [| c path IH]; intros at_ rest; simpl; [by intros [= <-] |].
  destruct (getAllBonds m at_) as [bs |]; simpl; [| done].
  destruct (bs !! c) as [b |]; simpl; [| done].
  destruct (traceFrom m (dest b) path) as [rest0 |] eqn:Hrest; simpl; [| done].
  intros [= <-]. simpl. f_equal. by eapply IH.
Qed.

Lemma onTrack_pop (m : Molecule) (startID : nat) (availableGroups : option (list nat))
    (cur below : list nat) (gid : nat) :
  onTrack m startID availableGroups cur (gid :: below) →
  onTrack m startID availableGroups (tail cur) below.
Proof.
  intros [? | (rest & Htrace & Hgrs & Hav)]; [done |].
  destruct cur as [| c cur]; simpl in *.
  - injection Htrace as <-. left.
    apply (f_equal length) in Hgrs. rewrite length_app, length_rev in Hgrs.
    simpl in Hgrs. destruct below; [done | simpl in Hgrs; lia].
  - apply traceFrom_unsnoc in Htrace as (rest0 & g & -> & Htrace).
    destruct (decide (below = [])) as [-> | Hne]; [by left |]. right.
    exists rest0. split; [done |].
    change (startID :: rest0 ++ [g]) with ((startID :: rest0) ++ [g]) in Hgrs.
    apply app_inj_tail in Hgrs as [Hgrs _]. split; [done |].
    apply Forall_app in Hav as [? _]. done.
Qed.

Lemma pathfindLoop_paths (m : Molecule) (allBonds : list (nat * list IBond))
    (startID endID : nat) (availableGroups : option (list nat)) (Good : list nat → Prop)
    (fuel : nat) :
  (∀ gid bs, JSObj.get allBonds gid = Some bs → getAllBonds m gid = Ok bs) →
  (∀ path rest, traceFrom m startID path = Ok rest →
                last (startID :: rest) = Some endID →
                Forall (λ g, isAvailable availableGroups g = true) rest → Good path) →
  ∀ s found,
    Forall Good (paths s) →
    onTrack m startID availableGroups (current s) (currGroups s) →
    pathfindLoop fuel allBonds endID availableGroups s = Ok found →
    Forall Good found.
Proof.
  intros HA HGood. induction fuel as [| fuel IH]; intros [ps cur grs ex] found; simpl;
    intros Hps Htrack; unfold pathfindStep; simpl; destruct grs as [| gid below];
    [by intros [= <-] | done | by intros [= <-] |].
  destruct (Nat.eqb_spec gid endID) as [-> | Hne]; simpl.
  { apply IH; simpl; [| by eapply onTrack_pop].
    apply Forall_app. split; [done |]. constructor; [| done].
    destruct Htrack as [? | (rest & Htrace & Hgrs & Hav)]; [done |].
    apply (HGood _ rest); [done | | done].
    simpl in Hgrs. rewrite <- Hgrs. by rewrite last_snoc. }
  destruct (JSObj.get allBonds gid) as [bs |] eqn:Hbs; simpl; [| done].
  destruct (JSObj.get ex gid) as [bi |] eqn:Hbi; simpl; [| done].
  destruct (bs !! bi) as [b |] eqn:Hb; simpl.
  2: { apply IH; simpl; [done | by eapply onTrack_pop]. }
  destruct (bool_decide _ || negb (isAvailable availableGroups (dest b))) eqn:Hskip; simpl.
  { apply IH; simpl; done. }
  apply IH; simpl; [done |].
  apply orb_false_iff in Hskip as [_ Hav%negb_false_iff].
  destruct Htrack as [? | (rest & Htrace & Hgrs & Havs)]; [done |]. right.
  exists (rest ++ [dest b]). split.
  - eapply traceFrom_snoc; [done | | by apply HA | done].
    simpl in Hgrs. rewrite <- Hgrs. by rewrite last_snoc.
  - split; [simpl in *; by rewrite Hgrs |].
    apply Forall_app. split; [done |]. by constructor.
Qed.

Lemma pathfind_traced (m : Molecule) (startID endID : nat)
    (availableGroups : option (list nat)) (found : list (list nat)) :
  pathfind m startID endID availableGroups = Ok found →
  ∀ path, path ∈ found →
    ∃ gs, traceBondPath m startID path = Ok gs
          ∧ head gs = Some startID
          ∧ last gs = Some endID
          ∧ length gs = S (length path)
          ∧ ∀ g, g ∈ tail gs → isAvailable availableGroups g = true.
Proof.
  intros Hfind path Hpath. unfold pathfind in Hfind.
  eapply (pathfindLoop_paths m _ startID endID availableGroups
            (λ path, ∃ gs, traceBondPath m startID path = Ok gs
                           ∧ head gs = Some startID
                           ∧ last gs = Some endID
                           ∧ length gs = S (length path)
                           ∧ ∀ g, g ∈ tail gs → isAvailable availableGroups g = true))
    in Hfind.
  - rewrite Forall_forall in Hfind. exact (Hfind path Hpath).
  - intros gid bs Hbs. by apply get_allBondsMap in Hbs as [_ ?].
  - intros p rest Htrace Hlast Hav. exists (startID :: rest).
    unfold traceBondPath. rewrite Htrace. simpl.
    split; [done |]. split; [done |]. split; [done |].
    split; [f_equal; by eapply traceFrom_length |].
    rewrite Forall_forall in Hav. exact Hav.
  - constructor.
  - right. exists []. simpl. split; [done |]. split; [done | constructor].
Qed.

(** X11. Every path [pathfind] returns is a list of bond indexes that
    [traceBondPath] follows without error from the start group to the end
    group, one group for each index, and every group on the way after the
    start is one of the available groups. *)
Theorem pathfind_paths (m : Molecule) (startID endID : nat)
    (availableGroups : option (list nat)) (found : list (list nat)) :
  pathfind m startID endID availableGroups = Ok found →
  ∀ path, path ∈ found →
    ∃ gs, traceBondPath m startID path = Ok gs
          ∧ head gs = Some startID
          ∧ last gs = Some endID
          ∧ length gs = S (length path)
          ∧ ∀ g, g ∈ tail gs → isAvailable availableGroups g = true.
Proof. apply pathfind_traced. Qed.

Lemma pathfind_paths_witness :
  ∃ gs, traceBondPath ethanolSkeleton 0 [0; 0] = Ok gs
        ∧ head gs = Some 0
        ∧ last gs = Some 2
        ∧ length gs = S (length [0; 0])
        ∧ ∀ g, g ∈ tail gs → isAvailable None g = true.
Proof.
  apply (pathfind_paths ethanolSkeleton 0 2 None [[0; 0]]).
  - vm_compute. reflexivity.
  - by left.
Defined.

(** ** Ring members *)

Lemma makeAromatic_rings (p p' : ParsedSMILES) (ab : nat * nat) :
  makeAromatic p ab = Ok p' → ps_rings p' = ps_rings p.
Proof.
  unfold makeAromatic.
  destruct (groupMapGet p (fst ab)) as [a |]; simpl; [| done].
  destruct (groupMapGet p (snd ab)) as [b |]; simpl; [| done].
  destruct (findIndex _ (bonds a)); simpl; [by intros [= <-] |].
  destruct (findIndex _ (bonds b)); simpl; [by intros [= <-] | done].
Qed.

Lemma foldR_makeAromatic_rings (abs : list (nat * nat)) :
  ∀ p p', foldR makeAromatic abs p = Ok p' → ps_rings p' = ps_rings p.
Proof.
  induction abs as [| ab abs IH]; intros p p'; simpl; [by intros [= <-] |].
  destruct (makeAromatic p ab) as [p1 |] eqn:E; simpl; [| done].
  intros Hp'. rewrite (IH _ _ Hp'). by eapply makeAromatic_rings.
Qed.

Lemma longestPath_elem (found : list (list nat)) (path : list nat) :
  longestPath found = Some path → path ∈ found.
Proof.
  unfold longestPath. intros H. apply find_some in H as [H _]. by apply list_elem_of_In.
Qed.

(** X12. When [SMILES.parse] resolves the members of a ring it replaces the
    member list by the groups on a path from the group that opened the ring
    to the group that closed it: the first member is the start of the ring,
    the last one its end, every member after the first was a member before,
    and no other ring changes. *)
Theorem resolveRing_members (mi : nat) (p p' : ParsedSMILES) (rid : nat) (ring : Ring) :
  findRing (ps_rings p) rid = Some ring →
  resolveRing mi p rid = Ok p' →
  ∃ ring' e,
    findRing (ps_rings p') rid = Some ring'
    ∧ end_ ring = Some e
    ∧ head (members ring') = Some (start ring)
    ∧ last (members ring') = Some e
    ∧ (∀ g, g ∈ tail (members ring') → g ∈ members ring)
    ∧ ring' = setMembers (members ring') ring
    ∧ ∀ id, id ≠ rid → findRing (ps_rings p') id = findRing (ps_rings p) id.
Proof.
  intros Hring. unfold resolveRing. rewrite Hring.
  destruct (molecules p !! mi) as [mol |] eqn:Hmol; simpl; [| done].
  destruct (end_ ring) as [e |] eqn:He; simpl; [| done].
  destruct (pathfind mol (start ring) e (Some (members ring))) as [found |] eqn:Hfound;
    simpl; [| done].
  destruct (longestPath found) as [path |] eqn:Hpath; simpl; [| done].
  destruct (pathfind_traced _ _ _ _ _ Hfound path (longestPath_elem _ _ Hpath))
    as (ms & -> & Hhead & Hlast & _ & Hav). simpl.
  set (p1 := setPsRings p (updateRing (ps_rings p) rid (setMembers ms))).
  assert (H1 : findRing (ps_rings p1) rid = Some (setMembers ms ring)).
  { simpl. by apply findRing_updateRing_eq. }
  assert (H2 : ∀ id, id ≠ rid → findRing (ps_rings p1) id = findRing (ps_rings p) id).
  { intros id Hid. simpl. by apply findRing_updateRing_ne. }
  assert (Hres : ∀ q, ps_rings q = ps_rings p1 →
            ∃ ring' e0,
              findRing (ps_rings q) rid = Some ring' ∧ Some e = Some e0
              ∧ head (members ring') = Some (start ring) ∧ last (members ring') = Some e0
              ∧ (∀ g, g ∈ tail (members ring') → g ∈ members ring)
              ∧ ring' = setMembers (members ring') ring
              ∧ ∀ id, id ≠ rid → findRing (ps_rings q) id = findRing (ps_rings p) id).
  { intros q ->. exists (setMembers ms ring), e. simpl in *.
    split; [exact H1 |]. split; [reflexivity |]. split; [exact Hhead |].
    split; [exact Hlast |]. split; [| split; [reflexivity | exact H2]].
    intros g Hg. specialize (Hav g Hg). by apply bool_decide_eq_true in Hav. }
  destruct (checkCase p1 ms); simpl; [| done].
  destruct (default false (isAromatic ring)); [| intros [= <-]; by apply Hres].
  destruct (head ms ≫= groupMapGet p1) as [first |]; simpl; [| done].
  destruct (isLowercase first).
  - intros Hfold%foldR_makeAromatic_rings. by apply Hres.
  - rewrite Hmol. simpl.
    destruct (foldR _ _ tt); simpl; [| done]. intros [= <-]. by apply Hres.
Qed.

Lemma resolveRing_members_witness :
  ∃ ring' e,
    findRing (ps_rings (match resolveRing 0 threeRing 0 with Ok q => q | Err _ => threeRing end)) 0
    = Some ring'
    ∧ Some 2 = Some e
    ∧ head (members ring') = Some 0
    ∧ last (members ring') = Some e.
Proof.
  destruct (resolveRing_members 0 threeRing
              (match resolveRing 0 threeRing 0 with Ok q => q | Err _ => threeRing end)
              0 (mkRing 0 1 0 (Some 2) (Some false) [0; 1; 2]))
    as (ring' & e & H1 & H2 & H3 & H4 & _); [reflexivity | vm_compute; reflexivity |].
  exists ring', e. split; [exact H1 |]. split; [exact H2 |]. split; [exact H3 | exact H4].
Defined.

(** ** Hydrogens and valences together *)

Lemma setGroups_same (m : Molecule) : setGroups m (groups m) = m.
Proof. by destruct m. Qed.

(** One turn of the loop of [addImplicitHydrogens], as a function. *)
Lemma addImplicitHydrogensTo_exact tbl (c : nat) (m : Molecule) (gid : nat) (g : Group) :
  wellFormedBelow c (groups m) → JSObj.get (groups m) gid = Some g →
  addImplicitHydrogensTo tbl (c, m) gid
  = Ok (c + hydrogensNeeded tbl m gid g,
        setGroups m (snd (addHydrogens (hydrogensNeeded tbl m gid g) c (groups m) gid g))).
Proof.
  intros Hwf Hgid. destruct (proj2 (proj2 Hwf) _ _ Hgid) as [HID _].
  assert (Hnone : Ok (c, m) = Ok (c + 0, setGroups m (snd (addHydrogens 0 c (groups m) gid g)))
                  :> Result (nat * Molecule)).
  { simpl. by rewrite Nat.add_0_r, setGroups_same. }
  unfold addImplicitHydrogensTo, hydrogensNeeded. cbn [fst snd].
  rewrite Hgid. cbn [fromOption rbind].
  destruct (negb (isRadical g) && inOrganicSubset tbl g) eqn:E1; cbn [andb]; [| exact Hnone].
  apply andb_true_iff in E1 as [_ Ho].
  rewrite HID, (getBondCount_sum m gid g Hgid). cbn [rbind].
  destruct (charge g =? 0)%Z; [| exact Hnone].
  destruct (inOrganicSubset_valences tbl g Ho) as (el & vs & Hel & Hvs & ->).
  cbn [rbind fst snd]. rewrite Hel. simpl. rewrite Hvs.
  destruct (List.find _ vs) as [n |]; [| exact Hnone].
  match goal with
  | |- context [addHydrogens ?r c (groups m) gid g] =>
      destruct (addHydrogens_spec r c (groups m) gid g Hwf Hgid) as (gs' & -> & _)
  end.
  done.
Qed.

Lemma hydrogensNeeded_ext tbl (m m' : Molecule) (gid : nat) (g : Group) :
  incoming gid (groups m') = incoming gid (groups m) →
  hydrogensNeeded tbl m' gid g = hydrogensNeeded tbl m gid g.
Proof. unfold hydrogensNeeded. by intros ->. Qed.

(** The loop of [addImplicitHydrogens] over distinct keys: what every group
    visited gets, and what the new groups are. *)
Lemma addImplicitHydrogens_exact tbl (keys : list nat) :
  ∀ c m,
    wellFormedBelow c (groups m) → NoDup keys →
    (∀ k, k ∈ keys → is_Some (JSObj.get (groups m) k)) →
    ∃ c' m',
      foldR (addImplicitHydrogensTo tbl) keys (c, m) = Ok (c', m')
      ∧ c ≤ c'
      ∧ wellFormedBelow c' (groups m')
      ∧ (∀ k, k ∉ keys → k < c → JSObj.get (groups m') k = JSObj.get (groups m) k)
      ∧ (∀ k, k < c → incoming k (groups m') = incoming k (groups m))
      ∧ (∀ k g, k ∈ keys → JSObj.get (groups m) k = Some g →
           ∃ first, JSObj.get (groups m') k
                    = Some (setBonds g (bonds g ++ map (mkBond Single)
                                                    (seq first (hydrogensNeeded tbl m k g)))))
      ∧ (∀ k h, c ≤ k → JSObj.get (groups m') k = Some h → ∃ d, h = implicitHydrogen k d).
Proof.
  induction keys as [| gid keys IH]; intros c m Hwf Hnd Hkeys.
  { exists c, m. split; [done |]. split; [done |]. split; [done |]. split; [done |].
    split; [done |]. split; [by intros k g ?%elem_of_nil |].
    intros k h Hk Hh. rewrite (proj1 (proj2 Hwf) k Hk) in Hh. done. }
  apply NoDup_cons in Hnd as [Hgid Hnd].
  destruct (Hkeys gid) as [g Hg]; [by left |].
  pose proof (wellFormedBelow_key _ _ _ _ Hwf Hg) as Hgc.
  set (runs := hydrogensNeeded tbl m gid g).
  destruct (addHydrogens_spec runs c (groups m) gid g Hwf Hg)
    as (gs1 & Hrun & Hwf1 & Hg1 & Hhs1 & Hframe1 & Hin1).
  set (m1 := setGroups m gs1).
  assert (Hstep : addImplicitHydrogensTo tbl (c, m) gid = Ok (c + runs, m1)).
  { rewrite (addImplicitHydrogensTo_exact tbl c m gid g Hwf Hg). fold runs. by rewrite Hrun. }
  destruct (IH (c + runs) m1 Hwf1 Hnd) as (c' & m' & Hfold & Hc' & Hwf' & Hframe & Hin & Hout & Hnew).
  { intros k Hk. assert (k ≠ gid) by (by intros ->).
    destruct (Hkeys k) as [gk Hgk]; [by right |].
    simpl. rewrite Hframe1; [eauto | done | by eapply wellFormedBelow_key]. }
  exists c', m'. simpl. rewrite Hstep. simpl.
  split; [done |]. split; [lia |]. split; [done |]. split.
  { intros k Hk Hkc. apply not_elem_of_cons in Hk as [Hne Hk].
    rewrite Hframe by (done || lia). by apply Hframe1. }
  split.
  { intros k Hk. rewrite Hin by lia. by apply Hin1. }
  split.
  { intros k gk [-> | Hk]%elem_of_cons Hgk.
    - rewrite Hg in Hgk. injection Hgk as <-. exists c.
      rewrite Hframe by (done || lia). exact Hg1.
    - assert (k ≠ gid) by (by intros ->).
      pose proof (wellFormedBelow_key _ _ _ _ Hwf Hgk) as Hkc.
      destruct (Hout k gk Hk) as [first Hfirst].
      { simpl. by rewrite Hframe1. }
      exists first. rewrite Hfirst.
      rewrite (hydrogensNeeded_ext tbl m m1 k gk); [done |]. simpl. by apply Hin1. }
  intros k h Hk Hh. destruct (Nat.lt_ge_cases k (c + runs)) as [Hlt | Hge].
  - rewrite Hframe in Hh; [| | done].
    + simpl in Hh. rewrite Hhs1 in Hh by (apply elem_of_seq; lia).
      injection Hh as <-. eauto.
    + intros Hin'. destruct (Hkeys k) as [gk Hgk]; [by right |].
      pose proof (wellFormedBelow_key _ _ _ _ Hwf Hgk). lia.
  - by apply Hnew.
Qed.

Lemma checkBondCountsFrom_valid tbl (m : Molecule) (todo : list (nat * Group)) :
  (∀ e, e ∈ todo →
     ∃ w, getBondCount m (ID (snd e)) = Ok w
          ∧ (inOrganicSubset tbl (snd e) = true → charge (snd e) = 0%Z →
             isRadical (snd e) = false →
             ∀ el vs, firstElement (snd e) = Some el → assoc tbl el = Some vs →
                      ∃ n, n ∈ vs ∧ 2 * n = w)) →
  checkBondCountsFrom tbl m todo = Ok BondsValid.
Proof.
  induction todo as [| [k g] todo IH]; intros Hall; [done |].
  rewrite checkBondCountsFrom_cons.
  destruct (Hall (k, g)) as (w & Hgw & Hw); [by left |]. cbn [snd] in *.
  rewrite Hgw. cbn [rbind].
  assert (Hrest : checkBondCountsFrom tbl m todo = Ok BondsValid).
  { apply IH. intros e He. apply Hall. by right. }
  destruct (charge g =? 0)%Z eqn:Ec; cbn [andb]; [| done].
  destruct (isRadical g) eqn:Er; cbn [andb negb]; [done |].
  destruct (inOrganicSubset tbl g) eqn:Eo; [| done].
  destruct (inOrganicSubset_valences tbl g Eo) as (el & vs & Hel & Hvs & ->).
  cbn [rbind snd fst].
  destruct (Hw eq_refl (proj1 (Z.eqb_eq _ _) Ec) eq_refl el vs Hel Hvs) as (n & Hn & Hnw).
  assert (Hex : existsb (λ n, 2 * n =? w) vs = true).
  { apply existsb_exists. exists n. split; [by apply list_elem_of_In | by apply Nat.eqb_eq]. }
  rewrite Hex. cbn [negb andb]. by rewrite andb_false_r.
Qed.

(** X13. Hydrogens make the valences right.  On a molecule with ascending
    keys, every group under its ID and every ID below the counter, where
    every atom the valence rules apply to has a whole weight that does not
    exceed the largest valence of its element, and where hydrogen itself is
    not in the table of valences: [addImplicitHydrogens] succeeds and
    [checkBondCounts] then finds every bond count valid. *)
Theorem hydrogens_then_valid tbl (c : nat) (m : Molecule) :
  wellFormedBelow c (groups m) →
  assoc tbl "H" = None →
  (∀ k g el vs w,
     JSObj.get (groups m) k = Some g → eligible tbl g →
     firstElement g = Some el → assoc tbl el = Some vs → getBondCount m k = Ok w →
     Nat.Even w ∧ ∃ n, n ∈ vs ∧ w ≤ 2 * n) →
  ∃ c' m',
    addImplicitHydrogens tbl c m = Ok (c', m')
    ∧ checkBondCounts tbl m' = Ok BondsValid.
Proof.
  intros Hwf HH Hfits. unfold addImplicitHydrogens.
  destruct (addImplicitHydrogens_exact tbl (JSObj.keys (groups m)) c m Hwf)
    as (c' & m' & Hfold & Hc' & Hwf' & Hframe & Hin & Hout & Hnew).
  { apply sorted_NoDup, Hwf. }
  { apply key_elem_get. }
  exists c', m'. split; [done |]. apply checkBondCountsFrom_valid.
  intros [k g'] He. cbn [snd].
  pose proof (elem_get_sorted _ _ (proj1 Hwf') He) as Hg'. cbn [fst snd] in Hg'.
  destruct (proj2 (proj2 Hwf') _ _ Hg') as [HID _]. rewrite HID.
  rewrite (getBondCount_sum m' k g' Hg'). eexists. split; [done |].
  intros Ho Hch Hrad el vs Hel Hvs.
  destruct (Nat.lt_ge_cases k c) as [Hlt | Hge].
  2: { destruct (Hnew _ _ Hge Hg') as [d ->]. exfalso.
       unfold inOrganicSubset in Ho. simpl in Ho. rewrite HH in Ho.
       by apply bool_decide_eq_true in Ho as [? ?]. }
  destruct (JSObj.get (groups m) k) as [g |] eqn:Hg.
  2: { rewrite Hframe in Hg'; [congruence | | done].
       intros Hk%key_elem_get. rewrite Hg in Hk. by destruct Hk. }
  destruct (Hout _ g (get_key_elem _ _ _ Hg) Hg) as [first Hfirst].
  rewrite Hg' in Hfirst. injection Hfirst as ->.
  assert (Ho' : inOrganicSubset tbl g = true) by exact Ho.
  assert (Hch' : charge g = 0%Z) by exact Hch.
  assert (Hrad' : isRadical g = false) by exact Hrad.
  assert (Hel' : firstElement g = Some el) by exact Hel.
  assert (Helig : eligible tbl g) by done.
  destruct (Hfits _ g el vs _ Hg Helig Hel' Hvs (getBondCount_sum m _ g Hg))
    as [Heven (n0 & Hn0 & Hle)].
  rewrite Hin by done. cbn [bonds setBonds].
  set (w := sumBonds (bonds g) + incoming k (groups m)) in *.
  unfold hydrogensNeeded. fold w. rewrite Hrad', Ho', Hch', Hel'.
  cbn [negb andb Z.eqb mbind option_bind]. rewrite Hvs.
  destruct (List.find (λ n, w <=? 2 * n) vs) as [n |] eqn:Efind.
  2: { apply find_none with (x := n0) in Efind; [| by apply list_elem_of_In].
       apply Nat.leb_gt in Efind. lia. }
  destruct (find_first_valence vs w n Efind) as (Hn & Hwn & _).
  exists n. split; [done |].
  rewrite sumBonds_app.
  assert (Hsingles : ∀ l, sumBonds (map (mkBond Single) l) = 2 * length l).
  { induction l as [| x l IHl]; [done |]. simpl map. rewrite sumBonds_cons, IHl. simpl. lia. }
  rewrite Hsingles, length_seq.
  assert (Hruns : 2 * hydrogenRuns (2 * n - w) = 2 * n - w).
  { apply hydrogenRuns_even. destruct Heven as [j Hj]. exists (n - j). lia. }
  fold w. lia.
Qed.

Lemma hydrogens_then_valid_witness :
  ∃ c' m',
    addImplicitHydrogens data_vars.organicSubset 3 ethanolSkeleton = Ok (c', m')
    ∧ checkBondCounts data_vars.organicSubset m' = Ok BondsValid.
Proof.
  apply hydrogens_then_valid.
  - apply wellFormedBelow_small; vm_compute; repeat constructor; lia.
  - reflexivity.
  - intros k g el vs w Hg. 
    assert (Hk : k = 0 ∨ k = 1 ∨ k = 2).
    { apply get_key_elem in Hg. apply list_elem_of_In in Hg. simpl in Hg.
      destruct Hg as [<- | [<- | [<- | []]]]; auto. }
    destruct Hk as [-> | [-> | ->]]; injection Hg as <-; intros _ [= <-] [= <-] [= <-].
    + split; [exists 1; reflexivity | exists 4; split; [by left | vm_compute; lia]].
    + split; [exists 2; reflexivity | exists 4; split; [by left | vm_compute; lia]].
    + split; [exists 1; reflexivity | exists 2; split; [by left | vm_compute; lia]].
Defined.

(** ** [countAtoms]: nothing lost, nothing counted twice *)

Lemma filter_split_perm {A} (f : A → bool) (l : list A) :
  List.filter f l ++ List.filter (λ x, negb (f x)) l ≡ₚ l.
Proof.
  induction l as [| x l IH]; simpl; [done |].
  destruct (f x); simpl.
  - by constructor.
  - rewrite <- Permutation_middle. by constructor.
Qed.

Lemma sortByCharge_perm (l : list IAtomCount) : sortByCharge l ≡ₚ l.
Proof. apply merge_sort_Permutation. Qed.

Lemma pushIon_perm (els : list (string * list IAtomCount)) (a : IAtomCount) :
  flat_map snd (pushIon els a) ≡ₚ flat_map snd els ++ [a].
Proof.
  induction els as [| [k l] els IH]; simpl; [done |].
  destruct (String.eqb k (atom a)); simpl.
  - rewrite <- !app_assoc. apply Permutation_app_head, Permutation_app_comm.
  - rewrite IH. by rewrite app_assoc.
Qed.

Lemma pushIon_fold_perm (atoms : list IAtomCount) :
  ∀ els, flat_map snd (fold_left pushIon atoms els) ≡ₚ flat_map snd els ++ atoms.
Proof.
  induction atoms as [| a atoms IH]; intros els; simpl; [by rewrite app_nil_r |].
  rewrite IH, pushIon_perm, <- app_assoc. done.
Qed.

Lemma flat_map_ext_elem {A B} (f g : A → list B) (l : list A) :
  (∀ x, x ∈ l → f x = g x) → flat_map f l = flat_map g l.
Proof.
  induction l as [| x l IH]; intros H; simpl; [done |].
  rewrite (H x) by (by left). rewrite IH; [done |]. intros y Hy. apply H. by right.
Qed.

Lemma flat_map_assoc (els : list (string * list IAtomCount)) :
  NoDup (map fst els) →
  flat_map (λ k, default [] (assoc els k)) (map fst els) = flat_map snd els.
Proof.
  induction els as [| [k l] els IH]; simpl; [done |].
  intros [Hk Hnd]%NoDup_cons. rewrite String.eqb_refl. simpl. f_equal.
  rewrite <- (IH Hnd). apply flat_map_ext_elem. intros k' Hk'.
  destruct (String.eqb_spec k k') as [-> | Hne]; [| done].
  exfalso. by apply Hk, list_elem_of_In.
Qed.

Lemma flat_map_sorted_perm (els : list (string * list IAtomCount)) :
  flat_map snd (map (λ e, (fst e, sortByCharge (snd e))) els) ≡ₚ flat_map snd els.
Proof.
  induction els as [| [k l] els IH]; simpl; [done |].
  by rewrite IH, sortByCharge_perm.
Qed.

(** The Hill order only reorders the entries. *)
Lemma hillSystem_perm (atoms : list IAtomCount) : hillSystem atoms ≡ₚ atoms.
Proof.
  unfold hillSystem.
  set (atoms1 := List.filter (λ a, negb (isAtom "C" a)) atoms).
  set (atoms2 := List.filter (λ a, negb (isAtom "H" a)) atoms1).
  set (els := fold_left pushIon atoms2 []).
  set (elements := map (λ e, (fst e, sortByCharge (snd e))) els).
  assert (Hkeys : map fst elements = map fst els).
  { unfold elements. rewrite map_map. done. }
  assert (Hnd : NoDup (map fst elements)).
  { rewrite Hkeys. apply (pushIon_fold_inv (λ _, True)).
    - by apply Forall_forall.
    - split; constructor. }
  assert (Hrest : flat_map (λ e, default [] (assoc elements e))
                    (merge_sort strLe (map fst elements)) ≡ₚ atoms2).
  { rewrite (Permutation_flat_map _ (merge_sort_Permutation strLe (map fst elements))).
    rewrite (flat_map_assoc elements Hnd). unfold elements.
    rewrite flat_map_sorted_perm. unfold els. by rewrite pushIon_fold_perm. }
  rewrite Hrest, !sortByCharge_perm, <- !Permutation_rev.
  clear Hrest Hnd Hkeys elements els. subst atoms2.
  rewrite (filter_split_perm (isAtom "H") atoms1). subst atoms1.
  apply (filter_split_perm (isAtom "C") atoms).
Qed.

Lemma list_sum_perm (l l' : list nat) : l ≡ₚ l' → list_sum l = list_sum l'.
Proof. induction 1; simpl; lia. Qed.

Lemma sum_alter_count (l : list IAtomCount) (i n : nat) :
  i < length l →
  list_sum (map count (alter (addToCount n) i l)) = list_sum (map count l) + n.
Proof.
  revert i. induction l as [| a l IH]; intros i Hi; simpl in *; [lia |].
  destruct i as [| i]; simpl; [lia |].
  specialize (IH i ltac:(lia)). unfold alter in IH. lia.
Qed.

Lemma indexOf_lt (l : list string) (s : string) (i : nat) :
  indexOf l s = Some i → i < length l.
Proof.
  revert i. induction l as [| x l IH]; intros i; simpl; [done |].
  destruct (String.eqb x s); [intros [= <-]; lia |].
  destruct (indexOf l s) as [j |]; simpl; [| done].
  intros [= <-]. specialize (IH j eq_refl). lia.
Qed.

Lemma tally_sum (t : Tally) (key : string) (fresh : IAtomCount) (n : nat) :
  length (fst t) = length (snd t) →
  length (fst (tally t key fresh n)) = length (snd (tally t key fresh n))
  ∧ list_sum (map count (fst (tally t key fresh n)))
    = list_sum (map count (fst t))
      + match indexOf (snd t) key with Some _ => n | None => count fresh + n end.
Proof.
  intros Hlen. unfold tally. destruct (indexOf (snd t) key) as [i |] eqn:E; simpl.
  - split; [by rewrite length_alter |].
    apply sum_alter_count. rewrite Hlen. by eapply indexOf_lt.
  - rewrite !length_app, map_app, list_sum_app. simpl. split; lia.
Qed.

Lemma tallyGroup_sum (ignore : bool) (gs : list (nat * Group)) :
  ∀ t, length (fst t) = length (snd t) →
       list_sum (map count (fst (fold_left (tallyGroup ignore) gs t)))
       = list_sum (map count (fst t)) + length gs.
Proof.
  induction gs as [| e gs IH]; intros t Hlen; simpl; [lia |].
  unfold tallyGroup at 2.
  match goal with
  | |- context [tally t ?key ?fresh 1] =>
      destruct (tally_sum t key fresh 1 Hlen) as [Hlen' Hsum]
  end.
  rewrite IH by done. rewrite Hsum. simpl. destruct (indexOf _ _); lia.
Qed.

(** X14. The Hill order only reorders: with [hillSystemOrder] on,
    [countAtoms] returns a permutation of the entries it returns with the
    option off, and it throws in the same cases. *)
Theorem countAtoms_hill_permutation (m : Molecule) (split hill ignore : option bool) :
  match countAtoms m (mkCountAtoms split (Some false) ignore),
        countAtoms m (mkCountAtoms split hill ignore) with
  | Ok plain, Ok ordered => ordered ≡ₚ plain
  | Err e, Err e' => e = e'
  | _, _ => False
  end.
Proof.
  unfold countAtoms. simpl.
  destruct (if default false split then _ else _) as [atoms | e]; simpl; [| done].
  destruct (default true hill); [apply hillSystem_perm | done].
Qed.

(** X15. Counting whole groups counts every group once: without
    [splitGroups], [countAtoms] succeeds and the counts of its entries add
    up to the number of groups of the molecule, in Hill order or not, with
    charges or without. *)
Theorem countAtoms_counts_groups (m : Molecule) (opts : ICountAtoms) :
  splitGroups opts ≠ Some true →
  ∃ atoms, countAtoms m opts = Ok atoms
           ∧ list_sum (map count atoms) = length (groups m).
Proof.
  intros Hsplit. unfold countAtoms.
  assert (default false (splitGroups opts) = false) as ->.
  { destruct (splitGroups opts) as [[|] |]; done. }
  simpl. eexists. split; [done |].
  pose proof (tallyGroup_sum (default false (ignoreCharge opts)) (groups m) ([], []) eq_refl)
    as Hsum.
  simpl in Hsum. rewrite <- Hsum.
  destruct (default true (hillSystemOrder opts)); [| done].
  apply list_sum_perm, Permutation_map, hillSystem_perm.
Qed.

Lemma countAtoms_counts_groups_witness :
  ∃ atoms, countAtoms ethanolSkeleton (mkCountAtoms None None None) = Ok atoms
           ∧ list_sum (map count atoms) = length (groups ethanolSkeleton).
Proof. apply countAtoms_counts_groups. discriminate. Defined.

(** ** What a parse keeps *)

Lemma insertMessage_Ok {A} (line : string) (r : Result A) (a : A) :
  insertMessage line r = Ok a → r = Ok a.
Proof. destruct r as [| [] ]; simpl; done. Qed.

Lemma tryParseCatch_Ok {A} (text : string) (d o : nat) (r : Result A) (a : A) :
  tryParseCatch text d o r = Ok a → r = Ok a.
Proof. destruct r as [| [] ]; simpl; done. Qed.

(** Case analysis on a computation that is known to succeed. *)
Ltac ok_inv H :=
  repeat (
    cbn [rbind fromOption] in H;
    match type of H with
    | Ok _ = Ok _ => injection H as H
    | Err _ = Ok _ => discriminate H
    | throw _ _ _ = Ok _ => discriminate H
    | throwAt _ _ _ = Ok _ => discriminate H
    | insertMessage _ _ = Ok _ => apply insertMessage_Ok in H
    | tryParseCatch _ _ _ _ = Ok _ => apply tryParseCatch_Ok in H
    | rbind (fromOption _ ?o) _ = Ok _ =>
        let E := fresh "E" in destruct o eqn:E
    | rbind ?m _ = Ok _ =>
        let E := fresh "E" in destruct m eqn:E
    | (if ?c then _ else _) = Ok _ =>
        let E := fresh "E" in destruct c eqn:E
    | match ?o with _ => _ end = Ok _ =>
        let E := fresh "E" in destruct o eqn:E
    end).

Lemma laterState_refl (env : Env) : laterState env env.
Proof. repeat split; done. Qed.

Lemma laterState_trans (e1 e2 e3 : Env) :
  laterState e1 e2 → laterState e2 e3 → laterState e1 e3.
Proof.
  intros (? & ? & ? & ? & ?) (? & ? & ? & ? & ?).
  repeat split; (congruence || lia).
Qed.

Lemma laterState_explicitBond env s loc x :
  explicitBond env s loc = Ok x → laterState env (fst x).
Proof.
  unfold explicitBond. intros H. ok_inv H; subst; by repeat split.
Qed.

Lemma laterState_chargeClause env s loc x :
  chargeClause env s loc = Ok x → laterState env (fst x).
Proof.
  unfold chargeClause. intros H. ok_inv H; subst; by repeat split.
Qed.

Lemma laterState_pushGroup env loc g newPos :
  laterState env (fst (pushGroup env loc g newPos)).
Proof. repeat split; simpl; lia. Qed.

Lemma laterState_inorganicAtom env s d o loc x :
  inorganicAtom env s d o loc = Ok x → laterState env (fst x).
Proof.
  unfold inorganicAtom. intros H. ok_inv H; subst; apply laterState_pushGroup.
Qed.

Lemma laterState_organicAtom env s d o loc x :
  organicAtom env s d o loc = Ok x → laterState env (fst x).
Proof.
  unfold organicAtom. intros H. ok_inv H; subst; apply laterState_pushGroup.
Qed.

Lemma laterState_ringDigit group env d env' :
  ringDigit group env d = Ok env' → laterState env env'.
Proof.
  unfold ringDigit. intros H. ok_inv H; subst; repeat split; simpl; lia.
Qed.

Lemma laterState_foldR {A} (f : Env → A → Result Env) (l : list A) :
  (∀ env a env', f env a = Ok env' → laterState env env') →
  ∀ env env', foldR f l env = Ok env' → laterState env env'.
Proof.
  intros Hf. induction l as [| a l IH]; intros env env'; simpl.
  - intros [= <-]. apply laterState_refl.
  - destruct (f env a) as [env1 |] eqn:E; simpl; [| done].
    intros H. eapply laterState_trans; [by eapply Hf | by apply IH].
Qed.

Lemma laterState_ringDigits env s loc x :
  ringDigits_region env s loc = Ok x → laterState env (fst x).
Proof.
  unfold ringDigits_region. intros H. ok_inv H; subst. simpl.
  eapply laterState_trans; [| eapply laterState_foldR; [apply laterState_ringDigit | done]].
  by repeat split.
Qed.

Lemma laterState_bondGroups env a b t x :
  bondGroups env a b t = Ok x → laterState env (fst x).
Proof.
  unfold bondGroups. intros H. ok_inv H; subst; by repeat split.
Qed.

Lemma laterState_bonding env s parent loc x :
  bonding env s parent loc = Ok x → laterState env (fst x).
Proof.
  unfold bonding. intros H. ok_inv H; subst; simpl;
    try apply laterState_refl; by eapply laterState_bondGroups.
Qed.

Lemma laterState_addToOpenRings env loc env' :
  addToOpenRings env loc = Ok env' → laterState env env'.
Proof.
  unfold addToOpenRings. intros H. ok_inv H; subst; by repeat split.
Qed.

Lemma laterState_pushMolecule env : laterState env (pushMolecule env).
Proof. repeat split; simpl; lia. Qed.

(** An invariant of the loop of [_parse]: a property of the state that every
    region of the loop keeps is kept by the whole loop, chains included. *)
Section ParseLoop.
Variable P : Env → Prop.
Hypothesis P_groupMap : ∀ env gm, P env → P (withPS env (setGroupMap (ps env) gm)).
Hypothesis P_separator : ∀ env,
  enableSeperatedStructures (parseOptions (ps env)) = true → P env → P (pushMolecule env).
Hypothesis P_reaction : ∀ env ri,
  enableSeperatedStructures (parseOptions (ps env)) = true →
  enableReaction (parseOptions (ps env)) = true →
  P env → P (withPS env (setReactionIndexes (ps env) (reactionIndexes (ps env) ++ [ri]))).
Hypothesis P_explicitBond : ∀ env s loc x, explicitBond env s loc = Ok x → P env → P (fst x).
Hypothesis P_chargeClause : ∀ env s loc x,
  enableChargeClauses (parseOptions (ps env)) = true →
  chargeClause env s loc = Ok x → P env → P (fst x).
Hypothesis P_inorganicAtom : ∀ env s d o loc x,
  enableInorganicAtoms (parseOptions (ps env)) = true →
  inorganicAtom env s d o loc = Ok x → P env → P (fst x).
Hypothesis P_organicAtom : ∀ env s d o loc x,
  organicAtom env s d o loc = Ok x → P env → P (fst x).
Hypothesis P_ringDigits : ∀ env s loc x,
  enableRings (parseOptions (ps env)) = true →
  ringDigits_region env s loc = Ok x → P env → P (fst x).
Hypothesis P_bonding : ∀ env s parent loc x, bonding env s parent loc = Ok x → P env → P (fst x).
Hypothesis P_addToOpenRings : ∀ env loc env',
  addToOpenRings env loc = Ok env' → P env → P env'.

Lemma afterAtom_invariant (k : Env → Locals → Result Env) (s : string) (parent : option nat)
    (env0 env : Env) (loc : Locals) (env' : Env) :
  (∀ e l env', P e → laterState env0 e → k e l = Ok env' →
               P env' ∧ laterState env0 env') →
  P env → laterState env0 env →
  (z ←r bonding env s parent loc ;;
   e ←r addToOpenRings (fst z) (snd z) ;; k e (snd z)) = Ok env' →
  P env' ∧ laterState env0 env'.
Proof.
  intros Hk HP Hl H.
  destruct (bonding env s parent loc) as [z |] eqn:Ez; simpl in H; [| done].
  destruct (addToOpenRings (fst z) (snd z)) as [e |] eqn:Ee; simpl in H; [| done].
  eapply Hk; [| | exact H].
  - eapply P_addToOpenRings; [done |]. by eapply P_bonding.
  - eapply laterState_trans; [done |].
    eapply laterState_trans; [by eapply laterState_bonding | by eapply laterState_addToOpenRings].
Qed.

Lemma parseLoop_invariant (fuel : nat) :
  ∀ s parent d o env loc env',
    P env → parseLoop fuel s parent d o env loc = Ok env' →
    P env' ∧ laterState env env'.
Proof.
  induction fuel as [| fuel IH]; intros s parent d o env loc env' HP H; [done |].
  assert (Hcont : ∀ e0 e l env', P e → laterState e0 e →
            parseLoop fuel s parent d o e l = Ok env' →
            P env' ∧ laterState e0 env').
  { intros e0 e l e' HPx Hlx Hx. destruct (IH _ _ _ _ _ _ _ HPx Hx) as [? ?].
    split; [done | by eapply laterState_trans]. }
  cbn [parseLoop] in H.
  destruct (negb (pos loc <? String.length s)).
  { injection H as <-. split; [by apply P_groupMap | by repeat split]. }
  destruct (enableSeperatedStructures (parseOptions (ps env)) && charIs s (pos loc) "."
            && (d =? 0)) eqn:Esep.
  { apply andb_true_iff in Esep as [[Hsep _]%andb_true_iff _].
    destruct (dontBondNext loc); [done |].
    eapply (Hcont env) in H; [done | by apply P_separator | apply laterState_pushMolecule]. }
  clear Esep.
  match type of H with
  | (if ?c then _ else _) = _ => destruct c eqn:Ereact
  end.
  { repeat (apply andb_true_iff in Ereact as [Ereact ?]).
    destruct (last (molecules (ps env))) as [lastMol |]; simpl in H; [| done].
    eapply (Hcont env) in H; [done | |]; cbn [fst].
    - destruct (0 <? length (JSObj.keys (groups lastMol))).
      + apply P_reaction; [done | done |]. by apply P_separator.
      + by apply P_reaction.
    - destruct (0 <? length (JSObj.keys (groups lastMol))); repeat split; simpl; lia. }
  clear Ereact.
  destruct (explicitBond env s loc) as [x |] eqn:Ex; cbn [rbind] in H; [| done].
  pose proof (laterState_explicitBond _ _ _ _ Ex) as Hlx.
  pose proof (P_explicitBond _ _ _ _ Ex HP) as HPx.
  destruct Hlx as (Hs & Ho & Hrest).
  assert (Hlx : laterState env (fst x)) by (split; [done | split; done]).
  match type of H with
  | (if ?c then _ else _) = _ => destruct c eqn:Echarge
  end.
  { apply andb_true_iff in Echarge as [_ Hopt]. rewrite <- Ho in Hopt.
    destruct (chargeClause (fst x) s (snd x)) as [y |] eqn:Ey; cbn [rbind] in H; [| done].
    eapply (Hcont env) in H; [done | by eapply P_chargeClause |].
    eapply laterState_trans; [done | by eapply laterState_chargeClause]. }
  clear Echarge.
  match type of H with
  | (if ?c then _ else _) = _ => destruct c eqn:Einorg
  end.
  { apply andb_true_iff in Einorg as [_ Hopt]. rewrite <- Ho in Hopt.
    destruct (inorganicAtom (fst x) s d o (snd x)) as [y |] eqn:Ey; cbn [rbind] in H; [| done].
    apply (afterAtom_invariant (parseLoop fuel s parent d o) s parent env (fst y) (snd y))
      in H; [done | intros; by eapply Hcont | |].
    - by eapply P_inorganicAtom.
    - eapply laterState_trans; [done | by eapply laterState_inorganicAtom]. }
  clear Einorg.
  match type of H with
  | (if ?c then _ else _) = _ => destruct c eqn:Echain
  end.
  { destruct (negb (snd (utils.extractBetweenMatching s "(" ")" (pos (snd x))) =? 0)); [done |].
    destruct (String.length (fst (utils.extractBetweenMatching s "(" ")" (pos (snd x)))) =? 0);
      [done |].
    destruct (utils.arrFromBack (groupsChain (snd x)) 1) as [par |]; [| done].
    match type of H with
    | rbind ?m _ = _ => destruct m as [e |] eqn:Ee; cbn [rbind] in H; [| done]
    end.
    apply insertMessage_Ok, tryParseCatch_Ok in Ee.
    apply IH in Ee as [HPe Hle]; [| done].
    eapply (Hcont env) in H; [done | done | by eapply laterState_trans]. }
  clear Echain.
  match type of H with
  | (if ?c then _ else _) = _ => destruct c eqn:Ering
  end.
  { apply andb_true_iff in Ering as [_ Hopt]. rewrite <- Ho in Hopt.
    destruct (ringDigits_region (fst x) s (snd x)) as [y |] eqn:Ey; cbn [rbind] in H; [| done].
    eapply (Hcont env) in H; [done | by eapply P_ringDigits |].
    eapply laterState_trans; [done | by eapply laterState_ringDigits]. }
  clear Ering.
  destruct (organicAtom (fst x) s d o (snd x)) as [y |] eqn:Ey; cbn [rbind] in H; [| done].
  apply (afterAtom_invariant (parseLoop fuel s parent d o) s parent env (fst y) (snd y))
    in H; [done | intros; by eapply Hcont | |].
  - by eapply P_organicAtom.
  - eapply laterState_trans; [done | by eapply laterState_organicAtom].
Qed.
End ParseLoop.

(** ** The checks after the loop *)

Lemma sameShape_refl (p : ParsedSMILES) : sameShape p p.
Proof. repeat split; done. Qed.

Lemma sameShape_trans (p1 p2 p3 : ParsedSMILES) :
  sameShape p1 p2 → sameShape p2 p3 → sameShape p1 p3.
Proof.
  intros (? & ? & ? & ? & ? & ? & ?) (? & ? & ? & ? & ? & ? & ?).
  repeat split; congruence.
Qed.

Lemma sameShape_foldR {A} (f : ParsedSMILES → A → Result ParsedSMILES) (l : list A) :
  (∀ p a p', f p a = Ok p' → sameShape p p') →
  ∀ p p', foldR f l p = Ok p' → sameShape p p'.
Proof.
  intros Hf. induction l as [| a l IH]; intros p p'; simpl.
  - intros [= <-]. apply sameShape_refl.
  - destruct (f p a) as [p1 |] eqn:E; simpl; [| done].
    intros H. eapply sameShape_trans; [by eapply Hf | by apply IH].
Qed.

Lemma rings_updateGroup (ms : list Molecule) (id : nat) (f : Group → Group) :
  map rings (updateGroup ms id f) = map rings ms.
Proof.
  unfold updateGroup. rewrite map_map. apply map_ext. intros m.
  by destruct (JSObj.get (groups m) id).
Qed.

Lemma sameShape_setMolecules (p : ParsedSMILES) (id : nat) (f : Group → Group) :
  sameShape p (setMolecules p (updateGroup (molecules p) id f)).
Proof. repeat split; try done. simpl. apply rings_updateGroup. Qed.

Lemma ringID_updateRing (rs : list Ring) (id : nat) (f : Ring → Ring) :
  (∀ r, ringID (f r) = ringID r) →
  map ringID (updateRing rs id f) = map ringID rs.
Proof.
  intros Hf. unfold updateRing. rewrite map_map. apply map_ext. intros r.
  by destruct (ringID r =? id).
Qed.

Lemma sameShape_closeRing s p rid p' : closeRing s p rid = Ok p' → sameShape p p'.
Proof.
  unfold closeRing. intros H. ok_inv H; subst. apply sameShape_setMolecules.
Qed.

Lemma sameShape_makeAromatic p ab p' : makeAromatic p ab = Ok p' → sameShape p p'.
Proof.
  unfold makeAromatic. intros H. ok_inv H; subst; apply sameShape_setMolecules.
Qed.

Lemma sameShape_resolveRing mi p rid p' : resolveRing mi p rid = Ok p' → sameShape p p'.
Proof.
  unfold resolveRing. intros H.
  destruct (molecules p !! mi) as [mol |]; cbn [fromOption rbind] in H; [| done].
  destruct (findRing (ps_rings p) rid) as [ring |]; cbn [fromOption rbind] in H; [| done].
  destruct (end_ ring) as [e |]; cbn [fromOption rbind] in H; [| done].
  destruct (pathfind _ _ _ _) as [found |]; cbn [rbind] in H; [| done].
  destruct (longestPath found) as [path |]; cbn [fromOption rbind] in H; [| done].
  destruct (traceBondPath _ _ _) as [ms |]; cbn [rbind] in H; [| done].
  set (p1 := setPsRings p (updateRing (ps_rings p) rid (setMembers ms))) in *.
  assert (H1 : sameShape p p1).
  { repeat split; try done. simpl. by apply ringID_updateRing. }
  destruct (checkCase p1 ms); cbn [rbind] in H; [| done].
  destruct (default false (isAromatic ring)); [| by injection H as <-].
  destruct (head ms ≫= groupMapGet p1) as [first |]; cbn [fromOption rbind] in H; [| done].
  destruct (isLowercase first).
  - eapply sameShape_trans; [done |].
    eapply sameShape_foldR; [apply sameShape_makeAromatic | done].
  - ok_inv H. by subst.
Qed.

Lemma sameShape_resolveRings p p' : resolveRings p = Ok p' → sameShape p p'.
Proof.
  unfold resolveRings. apply sameShape_foldR. intros q mi q' H.
  destruct (molecules q !! mi) as [mol |]; cbn [fromOption rbind] in H; [| done].
  eapply sameShape_foldR; [apply sameShape_resolveRing | done].
Qed.

Lemma addHydrogens_fst (runs : nat) :
  ∀ c gs gid g, fst (addHydrogens runs c gs gid g) = c + runs.
Proof.
  induction runs as [| runs IH]; intros c gs gid g; simpl; [lia |].
  rewrite IH. lia.
Qed.

Lemma addImplicitHydrogensTo_frame tbl st gid st' :
  addImplicitHydrogensTo tbl st gid = Ok st' →
  fst st ≤ fst st' ∧ rings (snd st') = rings (snd st) ∧ molRef (snd st') = molRef (snd st).
Proof.
  unfold addImplicitHydrogensTo. intros H. ok_inv H; subst; simpl; try done.
  rewrite addHydrogens_fst. split; [lia | done].
Qed.

Lemma addImplicitHydrogens_frame tbl c (m : Molecule) c' m' :
  addImplicitHydrogens tbl c m = Ok (c', m') →
  c ≤ c' ∧ rings m' = rings m ∧ molRef m' = molRef m.
Proof.
  unfold addImplicitHydrogens.
  assert (Hgen : ∀ keys st st', foldR (addImplicitHydrogensTo tbl) keys st = Ok st' →
            fst st ≤ fst st' ∧ rings (snd st') = rings (snd st)
            ∧ molRef (snd st') = molRef (snd st)).
  { induction keys as [| k keys IH]; intros st st'; simpl; [by intros [= <-] |].
    destruct (addImplicitHydrogensTo tbl st k) as [st1 |] eqn:E; simpl; [| done].
    intros H. apply IH in H as (? & ? & ?).
    apply addImplicitHydrogensTo_frame in E as (? & ? & ?).
    split; [lia | split; congruence]. }
  intros H. by apply Hgen in H.
Qed.

Lemma rings_insert (ms : list Molecule) (mi : nat) (m m' : Molecule) :
  ms !! mi = Some m → rings m' = rings m → map rings (<[mi := m']> ms) = map rings ms.
Proof.
  revert mi. induction ms as [| x ms IH]; intros mi; [done |].
  destruct mi as [| mi]; simpl.
  - intros [= ->] ->. done.
  - intros Hm Hr. f_equal. by apply IH.
Qed.

Lemma addAllImplicitHydrogens_frame env env' :
  addAllImplicitHydrogens env = Ok env' →
  sameShape (ps env) (ps env') ∧ laterState env env'.
Proof.
  unfold addAllImplicitHydrogens. generalize (seq 0 (length (molecules (ps env)))).
  intros l. revert env. induction l as [| mi l IH]; intros env; simpl.
  { intros [= <-]. split; [apply sameShape_refl | apply laterState_refl]. }
  destruct (molecules (ps env) !! mi) as [mol |] eqn:Hmol; cbn [fromOption rbind]; [| done].
  destruct (addImplicitHydrogens _ _ mol) as [[c' m'] |] eqn:Hadd; cbn [rbind]; [| done].
  apply addImplicitHydrogens_frame in Hadd as (Hc & Hr & _).
  intros [Hs Hl]%IH. split.
  - eapply sameShape_trans; [| exact Hs]. repeat split; try done.
    simpl. by eapply rings_insert.
  - eapply laterState_trans; [| exact Hl]. repeat split; simpl; (done || lia).
Qed.

Lemma validate_frame s env env' :
  validate s env = Ok env' →
  sameShape (ps env) (ps env') ∧ laterState env env'
  ∧ Nat.Even (length (reactionIndexes (ps env))).
Proof.
  unfold validate, checkReaction. intros H.
  destruct (length (reactionIndexes (ps env)) mod 2 =? 1) eqn:Epar; [done |].
  cbn [rbind] in H.
  destruct (checkRingsInMolecules (ps env)); cbn [rbind] in H; [| done].
  destruct (foldR (closeRing s) _ (ps env)) as [p1 |] eqn:E1; cbn [rbind] in H; [| done].
  destruct (resolveRings p1) as [p2 |] eqn:E2; cbn [rbind] in H; [| done].
  destruct (checkLowercase p2); cbn [rbind] in H; [| done].
  assert (H12 : sameShape (ps env) p2).
  { eapply sameShape_trans; [| by apply sameShape_resolveRings].
    eapply sameShape_foldR; [apply sameShape_closeRing | done]. }
  assert (Heven : Nat.Even (length (reactionIndexes (ps env)))).
  { apply Nat.eqb_neq in Epar.
    destruct (Nat.Even_or_Odd (length (reactionIndexes (ps env)))) as [| [k Hk]]; [done |].
    exfalso. apply Epar. rewrite Hk. replace (2 * k + 1) with (1 + k * 2) by lia.
    by rewrite Nat.Div0.mod_add. }
  destruct (opt_addImplicitHydrogens (parseOptions p2)).
  - destruct (addAllImplicitHydrogens (withPS env p2)) as [env3 |] eqn:E3; cbn [rbind] in H;
      [| done].
    apply addAllImplicitHydrogens_frame in E3 as [Hs Hl].
    ok_inv H; subst; (split; [by eapply sameShape_trans |]); (split; [| done]).
    all: destruct H12 as (? & ? & _); destruct Hl as (? & ? & ? & ? & ?); simpl in *.
    all: repeat split; simpl; (congruence || lia).
  - cbn [rbind] in H. ok_inv H; subst; (split; [done |]); (split; [| done]).
    all: destruct H12 as (? & ? & _); repeat split; simpl; (congruence || lia).
Qed.

Lemma parseWith_stages opts ids s env :
  parseWith opts ids s = Ok env →
  ∃ env1, parseLoop (parseFuel s) s None 0 0 (initialEnv opts ids s) initLocals = Ok env1
          ∧ validate s env1 = Ok env.
Proof.
  unfold parseWith, _tryParse. intros H.
  destruct (tryParseCatch _ _ _ _) as [env1 |] eqn:E1; cbn [rbind] in H; [| done].
  apply tryParseCatch_Ok in E1. apply insertMessage_Ok in H. eauto.
Qed.

(** X16. What a successful [SMILES.parse] hands back: the result carries
    the text parsed and the options of the call, the counters of the [Group]
    and [Ring] classes have not gone back, and the reaction markers come in
    pairs. *)
Theorem parse_keeps (opts : IParseOptions) (ids : Counters) (s : string) (env : Env) :
  parseWith opts ids s = Ok env →
  smiles (ps env) = s
  ∧ parseOptions (ps env) = opts
  ∧ groupCounter ids ≤ nextGroupID env
  ∧ ringCounter ids ≤ nextRingID env
  ∧ Nat.Even (length (reactionIndexes (ps env))).
Proof.
  intros (env1 & Hloop & Hval)%parseWith_stages.
  apply (parseLoop_invariant (λ _, True)) in Hloop as [_ (Hs & Ho & Hg & Hr & _)];
    try done.
  apply validate_frame in Hval as ((_ & _ & _ & _ & Hri & _) & (Hs' & Ho' & Hg' & Hr' & _) & Hev).
  simpl in *. rewrite Hri. split; [congruence |]. split; [congruence |].
  split; [lia |]. split; [lia | done].
Qed.

Lemma parse_keeps_witness :
  Nat.Even (length (reactionIndexes
                      (ps (match parseWith allEnabled freshCounters "CC>>CCO" with
                           | Ok env => env
                           | Err _ => stateAfter "CC>>CCO" 0
                           end)))).
Proof.
  destruct (parse_keeps allEnabled freshCounters "CC>>CCO"
              (match parseWith allEnabled freshCounters "CC>>CCO" with
               | Ok env => env
               | Err _ => stateAfter "CC>>CCO" 0
               end)) as (_ & _ & _ & _ & Hev); [vm_compute; reflexivity |].
  exact Hev.
Defined.

(** ** Features that are switched off *)

Lemma length_updateLast {A} (f : A → A) (l : list A) : length (updateLast f l) = length l.
Proof.
  unfold updateLast. destruct (last l) as [x |] eqn:E; [| done].
  apply last_Some in E as [l' ->].
  rewrite removelast_last, !length_app. done.
Qed.

Lemma rings_updateLast (f : Molecule → Molecule) (ms : list Molecule) :
  (∀ m, rings (f m) = rings m) → map rings (updateLast f ms) = map rings ms.
Proof.
  intros Hf. unfold updateLast. destruct (last ms) as [x |] eqn:E; [| done].
  apply last_Some in E as [l' ->].
  rewrite removelast_last, !map_app. simpl. by rewrite Hf.
Qed.

Lemma length_updateGroup (ms : list Molecule) (id : nat) (f : Group → Group) :
  length (updateGroup ms id f) = length ms.
Proof. unfold updateGroup. apply length_map. Qed.

Lemma sameReaction_refl env : sameReaction env env.
Proof. split; [done |]. split; [done | auto]. Qed.

Lemma sameReaction_trans e1 e2 e3 :
  sameReaction e1 e2 → sameReaction e2 e3 → sameReaction e1 e3.
Proof.
  intros (? & ? & ?) (? & ? & ?). split; [congruence |]. split; [congruence | auto].
Qed.

(** A state that differs in the groups of the molecules only. *)
Lemma sameReaction_groups env env' :
  length (molecules (ps env')) = length (molecules (ps env)) →
  reactionIndexes (ps env') = reactionIndexes (ps env) →
  ps_rings (ps env') = ps_rings (ps env) →
  openRings (ps env') = openRings (ps env) →
  map rings (molecules (ps env')) = map rings (molecules (ps env)) →
  sameReaction env env'.
Proof.
  intros Hlen Hri Hrs Hop Hm. split; [done |]. split; [done |].
  intros (? & ? & ?). split; [congruence |]. split; [congruence |]. by rewrite Hm.
Qed.

Lemma sameReaction_updateGroup env id f :
  sameReaction env (withPS env (setMolecules (ps env) (updateGroup (molecules (ps env)) id f))).
Proof.
  apply sameReaction_groups; simpl; try done.
  - apply length_updateGroup.
  - apply rings_updateGroup.
Qed.

Lemma sameReaction_explicitBond env s loc x :
  explicitBond env s loc = Ok x → sameReaction env (fst x).
Proof.
  unfold explicitBond. intros H. ok_inv H; subst; try apply sameReaction_refl.
  split; [done |]. split; [done |]. intros (_ & Hopen & _).
  apply bool_decide_eq_false in E2. done.
Qed.

Lemma sameReaction_chargeClause env s loc x :
  chargeClause env s loc = Ok x → sameReaction env (fst x).
Proof.
  unfold chargeClause. intros H. ok_inv H; subst. apply sameReaction_updateGroup.
Qed.

Lemma sameReaction_pushGroup env loc g newPos :
  sameReaction env (fst (pushGroup env loc g newPos)).
Proof.
  apply sameReaction_groups; simpl; try done.
  - apply length_updateLast.
  - by apply rings_updateLast.
Qed.

Lemma sameReaction_inorganicAtom env s d o loc x :
  inorganicAtom env s d o loc = Ok x → sameReaction env (fst x).
Proof.
  unfold inorganicAtom. intros H. ok_inv H; subst; apply sameReaction_pushGroup.
Qed.

Lemma sameReaction_organicAtom env s d o loc x :
  organicAtom env s d o loc = Ok x → sameReaction env (fst x).
Proof.
  unfold organicAtom. intros H. ok_inv H; subst; apply sameReaction_pushGroup.
Qed.

Lemma sameReaction_bondGroups env a b t x :
  bondGroups env a b t = Ok x → sameReaction env (fst x).
Proof.
  unfold bondGroups. intros H. ok_inv H; subst. apply sameReaction_updateGroup.
Qed.

Lemma sameReaction_bonding env s parent loc x :
  bonding env s parent loc = Ok x → sameReaction env (fst x).
Proof.
  unfold bonding. intros H. ok_inv H; subst; simpl;
    try apply sameReaction_refl; by eapply sameReaction_bondGroups.
Qed.

Lemma sameReaction_addToOpenRings env loc env' :
  addToOpenRings env loc = Ok env' → sameReaction env env'.
Proof.
  unfold addToOpenRings. intros H. ok_inv H; subst.
  split; [done |]. split; [done |]. intros (Hrs & Hopen & Hm).
  rewrite Hopen in E. simpl in E. injection E as <-. done.
Qed.

(** Ring digits touch neither the number of molecules nor the markers. *)
Lemma ringDigit_reaction group env d env' :
  ringDigit group env d = Ok env' →
  length (molecules (ps env')) = length (molecules (ps env))
  ∧ reactionIndexes (ps env') = reactionIndexes (ps env).
Proof.
  unfold ringDigit. intros H. ok_inv H; subst; simpl; [done |].
  split; [apply length_updateLast | done].
Qed.

Lemma ringDigit_fold_reaction group (l : list nat) :
  ∀ e1 e2, foldR (ringDigit group) l e1 = Ok e2 →
           length (molecules (ps e2)) = length (molecules (ps e1))
           ∧ reactionIndexes (ps e2) = reactionIndexes (ps e1).
Proof.
  induction l as [| d l IH]; intros e1 e2; simpl; [by intros [= <-] |].
  destruct (ringDigit _ e1 d) as [e |] eqn:E; simpl; [| done].
  intros [? ?]%IH. apply ringDigit_reaction in E as [? ?]. split; congruence.
Qed.

Lemma ringDigits_reaction env s loc x :
  ringDigits_region env s loc = Ok x →
  length (molecules (ps (fst x))) = length (molecules (ps env))
  ∧ reactionIndexes (ps (fst x)) = reactionIndexes (ps env).
Proof.
  unfold ringDigits_region. intros H. ok_inv H; subst. simpl.
  match goal with
  | E : foldR _ _ _ = Ok _ |- _ => apply ringDigit_fold_reaction in E as [Hl Hr]
  end.
  simpl in Hl, Hr. by rewrite length_updateGroup in Hl.
Qed.

Lemma featuresOff_step env env' :
  laterState env env' → sameReaction env env' → featuresOff env → featuresOff env'.
Proof.
  intros (_ & Ho & _) (Hlen & Hri & Hrings) (H1 & H2 & H3).
  unfold featuresOff. rewrite Ho, Hlen, Hri. auto.
Qed.

Lemma noRings_pushMolecule env : noRings (ps env) → noRings (ps (pushMolecule env)).
Proof.
  intros (? & ? & ?). split; [done |]. split; [done |]. simpl.
  rewrite map_app. apply Forall_app. split; [done | by repeat constructor].
Qed.

Lemma parseLoop_featuresOff fuel s parent d o env loc env' :
  featuresOff env → parseLoop fuel s parent d o env loc = Ok env' → featuresOff env'.
Proof.
  intros HP H. apply (parseLoop_invariant featuresOff) in H as [? _]; try done; clear.
  - intros env Hsep (H1 & H2 & H3). split; [simpl; congruence |].
    split; [exact H2 |]. intros Hr. by apply noRings_pushMolecule, H3.
  - intros env ri Hsep Hreact (H1 & H2 & H3).
    split; [simpl; congruence |]. split; [simpl; congruence | exact H3].
  - intros env s loc x E. eapply featuresOff_step;
      [by eapply laterState_explicitBond | by eapply sameReaction_explicitBond].
  - intros env s loc x _ E. eapply featuresOff_step;
      [by eapply laterState_chargeClause | by eapply sameReaction_chargeClause].
  - intros env s d o loc x _ E. eapply featuresOff_step;
      [by eapply laterState_inorganicAtom | by eapply sameReaction_inorganicAtom].
  - intros env s d o loc x E. eapply featuresOff_step;
      [by eapply laterState_organicAtom | by eapply sameReaction_organicAtom].
  - intros env s loc x Hrings E (H1 & H2 & H3).
    destruct (laterState_ringDigits _ _ _ _ E) as (_ & Ho & _).
    destruct (ringDigits_reaction _ _ _ _ E) as [Hlen Hri].
    unfold featuresOff. rewrite Ho, Hlen, Hri.
    split; [done |]. split; [done | congruence].
  - intros env s parent loc x E. eapply featuresOff_step;
      [by eapply laterState_bonding | by eapply sameReaction_bonding].
  - intros env loc env' E. eapply featuresOff_step;
      [by eapply laterState_addToOpenRings | by eapply sameReaction_addToOpenRings].
Qed.

(** X17. Features that are switched off leave no trace in a parse result:
    without [enableSeperatedStructures] the result has exactly one molecule
    and no reaction marker, without [enableReaction] it has no reaction
    marker, and without [enableRings] it has no ring, in the result or in
    any molecule. *)
Theorem parse_disabled_features (opts : IParseOptions) (ids : Counters) (s : string)
    (env : Env) :
  parseWith opts ids s = Ok env →
  (enableSeperatedStructures opts = false →
   length (molecules (ps env)) = 1 ∧ reactionIndexes (ps env) = [])
  ∧ (enableReaction opts = false → reactionIndexes (ps env) = [])
  ∧ (enableRings opts = false →
     ps_rings (ps env) = [] ∧ Forall (λ m, rings m = []) (molecules (ps env))).
Proof.
  intros (env1 & Hloop & Hval)%parseWith_stages.
  pose proof Hloop as Hloop'.
  apply (parseLoop_invariant (λ _, True)) in Hloop' as [_ (_ & Ho & _)]; try done.
  apply parseLoop_featuresOff in Hloop as (H1 & H2 & H3).
  2: { split; [done |]. split; [done |]. intros _. split; [done |]. split; [done |].
       by repeat constructor. }
  apply validate_frame in Hval as ((_ & _ & _ & _ & Hri & Hids & Hrings) & _).
  simpl in Ho. rewrite Ho in *.
  assert (Hlen : length (molecules (ps env)) = length (molecules (ps env1))).
  { apply (f_equal length) in Hrings. by rewrite !length_map in Hrings. }
  rewrite Hri, Hlen. split; [done |]. split; [done |].
  intros (Hrs & _ & Hm)%H3. rewrite Hrs in Hids. split.
  - by destruct (ps_rings (ps env)).
  - rewrite <- Hrings in Hm. by rewrite Forall_fmap in Hm.
Qed.

Lemma parse_disabled_features_witness :
  ps_rings (ps (match parseWith (mkParseOptions true true true true true false true true
                                   false true false false false) freshCounters "CC.O" with
                | Ok env => env
                | Err _ => stateAfter "CC.O" 0
                end)) = [].
Proof.
  destruct (parse_disabled_features
              (mkParseOptions true true true true true false true true false true false
                 false false) freshCounters "CC.O"
              (match parseWith (mkParseOptions true true true true true false true true
                                  false true false false false) freshCounters "CC.O" with
               | Ok env => env
               | Err _ => stateAfter "CC.O" 0
               end)) as (_ & _ & H); [vm_compute; reflexivity |].
  by apply H.
Defined.

(** ** Group IDs and bonds of a parse result *)

Lemma wellFormedBelow_mono (c c' : nat) (gs : list (nat * Group)) :
  c ≤ c' → wellFormedBelow c gs → wellFormedBelow c' gs.
Proof.
  intros Hc (Hs & Habove & Hgroups). split; [done |]. split.
  - intros k Hk. apply Habove. lia.
  - intros k g Hg. destruct (Hgroups k g Hg) as [? Hd]. split; [done |].
    intros b Hb. specialize (Hd b Hb). lia.
Qed.

Lemma wellFormedBelow_nil (c : nat) : wellFormedBelow c [].
Proof. split; [constructor |]. split; done. Qed.

Lemma wellFormedBelow_update (c : nat) (gs : list (nat * Group)) (k : nat) (g g' : Group) :
  wellFormedBelow c gs → JSObj.get gs k = Some g →
  ID g' = k → (∀ b, b ∈ bonds g' → dest b < c) →
  wellFormedBelow c (JSObj.set gs k g').
Proof.
  intros Hwf Hg HID Hd. pose proof (wellFormedBelow_key _ _ _ _ Hwf Hg) as Hk.
  destruct Hwf as (Hs & Habove & Hgroups).
  split; [by apply keys_set_sorted |]. split.
  - intros k' Hk'. rewrite get_set_ne by lia. by apply Habove.
  - intros k' g0 Hg0. destruct (decide (k' = k)) as [-> | Hne].
    + rewrite get_set_eq in Hg0. injection Hg0 as <-. done.
    + rewrite get_set_ne in Hg0 by done. by apply Hgroups.
Qed.

Lemma wellFormedBelow_new (c : nat) (gs : list (nat * Group)) (g : Group) :
  wellFormedBelow c gs → ID g = c → bonds g = [] →
  wellFormedBelow (S c) (JSObj.set gs c g).
Proof.
  intros (Hs & Habove & Hgroups) HID Hb.
  split; [by apply keys_set_sorted |]. split.
  - intros k' Hk'. rewrite get_set_ne by lia. apply Habove. lia.
  - intros k' g0 Hg0. destruct (decide (k' = c)) as [-> | Hne].
    + rewrite get_set_eq in Hg0. injection Hg0 as <-. split; [done |].
      rewrite Hb. by intros b ?%elem_of_nil.
    + rewrite get_set_ne in Hg0 by done. destruct (Hgroups _ _ Hg0) as [? Hd].
      split; [done |]. intros b Hb'. specialize (Hd b Hb'). lia.
Qed.

Lemma findGroup_wellFormed (c : nat) (ms : list Molecule) (id : nat) (g : Group) :
  Forall (wellFormedBelow c) (map groups ms) → findGroup ms id = Some g →
  ID g = id ∧ id < c ∧ ∀ b, b ∈ bonds g → dest b < c.
Proof.
  induction ms as [| m ms IH]; simpl; [done |].
  intros [Hm Hms]%Forall_cons.
  destruct (JSObj.get (groups m) id) as [g0 |] eqn:Hg0; [| by apply IH].
  intros [= ->]. destruct (proj2 (proj2 Hm) _ _ Hg0) as [? ?].
  split; [done |]. split; [by eapply wellFormedBelow_key | done].
Qed.

Lemma updateGroup_wellFormed (c : nat) (ms : list Molecule) (id : nat) (f : Group → Group) :
  Forall (wellFormedBelow c) (map groups ms) →
  (∀ m g, m ∈ ms → JSObj.get (groups m) id = Some g →
          ID (f g) = id ∧ ∀ b, b ∈ bonds (f g) → dest b < c) →
  Forall (wellFormedBelow c) (map groups (updateGroup ms id f)).
Proof.
  induction ms as [| m ms IH]; simpl; [done |].
  intros [Hm Hms]%Forall_cons Hf. constructor.
  - destruct (JSObj.get (groups m) id) as [g |] eqn:Hg; [| done]. simpl.
    destruct (Hf m g) as [? ?]; [by left | done |].
    by eapply wellFormedBelow_update.
  - apply IH; [done |]. intros m' g Hm' Hg. apply (Hf m'); [by right | done].
Qed.

Lemma wellFormedState_same env env' :
  map groups (molecules (ps env')) = map groups (molecules (ps env)) →
  nextGroupID env' = nextGroupID env →
  wellFormedState env → wellFormedState env'.
Proof. unfold wellFormedState. by intros -> ->. Qed.

Lemma groups_updateLast (f : Molecule → Molecule) (ms : list Molecule) :
  (∀ m, groups (f m) = groups m) → map groups (updateLast f ms) = map groups ms.
Proof.
  intros Hf. unfold updateLast. destruct (last ms) as [x |] eqn:E; [| done].
  apply last_Some in E as [l' ->].
  rewrite removelast_last, !map_app. simpl. by rewrite Hf.
Qed.

Lemma wellFormedState_explicitBond env s loc x :
  explicitBond env s loc = Ok x → wellFormedState env → wellFormedState (fst x).
Proof. unfold explicitBond. intros H. ok_inv H; subst; done. Qed.

Lemma wellFormedState_updateGroup env id f :
  wellFormedState env →
  (∀ m g, m ∈ molecules (ps env) → JSObj.get (groups m) id = Some g →
          ID (f g) = id ∧ ∀ b, b ∈ bonds (f g) → dest b < nextGroupID env) →
  wellFormedState (withPS env (setMolecules (ps env) (updateGroup (molecules (ps env)) id f))).
Proof. intros Hwf Hf. unfold wellFormedState. simpl. by apply updateGroup_wellFormed. Qed.

Lemma stored_wellFormed env m id g :
  wellFormedState env → m ∈ molecules (ps env) → JSObj.get (groups m) id = Some g →
  ID g = id ∧ ∀ b, b ∈ bonds g → dest b < nextGroupID env.
Proof.
  intros Hwf Hm Hg. unfold wellFormedState in Hwf. rewrite Forall_fmap, Forall_forall in Hwf.
  exact (proj2 (proj2 (Hwf m Hm)) _ _ Hg).
Qed.

Lemma wellFormedState_chargeClause env s loc x :
  chargeClause env s loc = Ok x → wellFormedState env → wellFormedState (fst x).
Proof.
  unfold chargeClause. intros H Hwf. ok_inv H; subst. simpl.
  apply wellFormedState_updateGroup; [done |].
  intros m g' Hm Hg'. simpl. by eapply stored_wellFormed.
Qed.

Lemma wellFormedState_pushGroup env loc g newPos :
  ID g = nextGroupID env → bonds g = [] →
  wellFormedState env → wellFormedState (fst (pushGroup env loc g newPos)).
Proof.
  intros HID Hb Hwf. unfold wellFormedState in *. simpl. rewrite HID.
  unfold updateLast. destruct (last (molecules (ps env))) as [m |] eqn:E.
  - apply last_Some in E as [l' E]. rewrite E in *. rewrite removelast_last.
    rewrite map_app, Forall_app in *. destruct Hwf as [Hl' Hm]. split.
    + eapply Forall_impl; [exact Hl' |]. intros gs. apply wellFormedBelow_mono. lia.
    + apply Forall_cons in Hm as [Hm _]. constructor; [| constructor]. simpl.
      by apply wellFormedBelow_new.
  - eapply Forall_impl; [exact Hwf |]. intros gs. apply wellFormedBelow_mono. lia.
Qed.

Lemma addElement_fold (els : list (string * nat)) :
  ∀ g, ID (fold_left (λ g e, addElement g (fst e) (snd e)) els g) = ID g
       ∧ bonds (fold_left (λ g e, addElement g (fst e) (snd e)) els g) = bonds g.
Proof.
  induction els as [| e els IH]; intros g; simpl; [done |].
  destruct (IH (addElement g (fst e) (snd e))) as [-> ->]. done.
Qed.

Lemma wellFormedState_inorganicAtom env s d o loc x :
  inorganicAtom env s d o loc = Ok x → wellFormedState env → wellFormedState (fst x).
Proof.
  unfold inorganicAtom. intros H Hwf. ok_inv H; subst;
    (apply wellFormedState_pushGroup; [| | done]); simpl;
    match goal with
    | |- context [fold_left _ ?els ?g] =>
        destruct (addElement_fold els g) as [H1 H2]; by rewrite ?H1, ?H2
    end.
Qed.

Lemma wellFormedState_organicAtom env s d o loc x :
  organicAtom env s d o loc = Ok x → wellFormedState env → wellFormedState (fst x).
Proof.
  unfold organicAtom. intros H Hwf. ok_inv H; subst;
    by apply wellFormedState_pushGroup.
Qed.

Lemma wellFormedState_ringDigit group env d env' :
  ringDigit group env d = Ok env' → wellFormedState env → wellFormedState env'.
Proof.
  unfold ringDigit. intros H. ok_inv H; subst; apply wellFormedState_same; simpl; try done.
  by apply groups_updateLast.
Qed.

Lemma wellFormedState_foldR {A} (f : Env → A → Result Env) (l : list A) :
  (∀ env a env', f env a = Ok env' → wellFormedState env → wellFormedState env') →
  ∀ env env', foldR f l env = Ok env' → wellFormedState env → wellFormedState env'.
Proof.
  intros Hf. induction l as [| a l IH]; intros env env'; simpl; [by intros [= <-] |].
  destruct (f env a) as [env1 |] eqn:E; simpl; [| done].
  intros H Hwf. eapply IH; [done |]. by eapply Hf.
Qed.

Lemma wellFormedState_ringDigits env s loc x :
  ringDigits_region env s loc = Ok x → wellFormedState env → wellFormedState (fst x).
Proof.
  unfold ringDigits_region. intros H Hwf. ok_inv H; subst. simpl.
  match goal with
  | E : foldR _ _ _ = Ok _ |- _ =>
      eapply wellFormedState_foldR in E; [done | apply wellFormedState_ringDigit |]
  end.
  match goal with
  | E : findGroup _ _ = Some _ |- _ =>
      destruct (findGroup_wellFormed _ _ _ _ Hwf E) as (? & ? & ?)
  end.
  apply wellFormedState_updateGroup; [done |]. intros m g' _ _. simpl. done.
Qed.

Lemma addBond_wellFormed (c : nat) (this that : Group) (b : BondType) :
  (∀ x, x ∈ bonds this → dest x < c) → ID that < c →
  ID (fst (addBond this b that)) = ID this
  ∧ ∀ x, x ∈ bonds (fst (addBond this b that)) → dest x < c.
Proof.
  intros Hthis Hthat. unfold addBond.
  destruct (bondedTo this (ID that) || bondedTo that (ID this)); simpl; [done |].
  split; [done |]. intros x [Hx | ->%list_elem_of_singleton]%elem_of_app; [by apply Hthis | done].
Qed.

Lemma wellFormedState_bondGroups env a b t x :
  bondGroups env a b t = Ok x → wellFormedState env → wellFormedState (fst x).
Proof.
  unfold bondGroups. intros H Hwf. ok_inv H; subst. simpl.
  match goal with
  | E1 : findGroup _ a = Some ?this, E2 : findGroup _ b = Some ?that |- _ =>
      destruct (findGroup_wellFormed _ _ _ _ Hwf E1) as (HID1 & ? & Hd1);
      destruct (findGroup_wellFormed _ _ _ _ Hwf E2) as (HID2 & ? & Hd2);
      destruct (addBond_wellFormed (nextGroupID env) this that t Hd1 ltac:(lia)) as [HID Hd]
  end.
  apply wellFormedState_updateGroup; [done |]. intros m g' _ _. split; [congruence | done].
Qed.

Lemma wellFormedState_bonding env s parent loc x :
  bonding env s parent loc = Ok x → wellFormedState env → wellFormedState (fst x).
Proof.
  unfold bonding. intros H Hwf. ok_inv H; subst; simpl; try done;
    by eapply wellFormedState_bondGroups.
Qed.

Lemma wellFormedState_addToOpenRings env loc env' :
  addToOpenRings env loc = Ok env' → wellFormedState env → wellFormedState env'.
Proof. unfold addToOpenRings. intros H. ok_inv H; subst; done. Qed.

Lemma parseLoop_wellFormed fuel s parent d o env loc env' :
  wellFormedState env → parseLoop fuel s parent d o env loc = Ok env' → wellFormedState env'.
Proof.
  intros HP H. apply (parseLoop_invariant wellFormedState) in H as [? _]; try done; clear.
  - intros env _ Hwf. unfold wellFormedState in *. simpl.
    rewrite map_app, Forall_app. split; [done |]. constructor; [| constructor].
    apply wellFormedBelow_nil.
  - intros env s loc x. apply wellFormedState_explicitBond.
  - intros env s loc x _. apply wellFormedState_chargeClause.
  - intros env s d o loc x _. apply wellFormedState_inorganicAtom.
  - intros env s d o loc x. apply wellFormedState_organicAtom.
  - intros env s loc x _. apply wellFormedState_ringDigits.
  - intros env s parent loc x. apply wellFormedState_bonding.
  - intros env loc env'. apply wellFormedState_addToOpenRings.
Qed.

Lemma groupMapGet_findGroup p id g :
  groupMapGet p id = Some g → findGroup (molecules p) id = Some g.
Proof. unfold groupMapGet. by case_bool_decide. Qed.

Lemma closeRing_wellFormed (c : nat) s p rid p' :
  closeRing s p rid = Ok p' →
  Forall (wellFormedBelow c) (map groups (molecules p)) →
  Forall (wellFormedBelow c) (map groups (molecules p')).
Proof.
  unfold closeRing. intros H Hwf. ok_inv H; subst. simpl.
  match goal with
  | E1 : groupMapGet p _ = Some ?this, E2 : groupMapGet p _ = Some ?that |- _ =>
      apply groupMapGet_findGroup in E1, E2;
      destruct (findGroup_wellFormed _ _ _ _ Hwf E1) as (HID1 & ? & Hd1);
      destruct (findGroup_wellFormed _ _ _ _ Hwf E2) as (HID2 & ? & Hd2);
      match goal with
      | |- context [addBond this ?b that] =>
          destruct (addBond_wellFormed c this that b Hd1 ltac:(lia)) as [HID Hd]
      end
  end.
  apply updateGroup_wellFormed; [done |]. intros m g' _ _. split; [congruence | done].
Qed.

Lemma wellFormed_foldR {A} (c : nat) (f : ParsedSMILES → A → Result ParsedSMILES)
    (l : list A) :
  (∀ p a p', f p a = Ok p' →
             Forall (wellFormedBelow c) (map groups (molecules p)) →
             Forall (wellFormedBelow c) (map groups (molecules p'))) →
  ∀ p p', foldR f l p = Ok p' →
          Forall (wellFormedBelow c) (map groups (molecules p)) →
          Forall (wellFormedBelow c) (map groups (molecules p')).
Proof.
  intros Hf. induction l as [| a l IH]; intros p p'; simpl; [by intros [= <-] |].
  destruct (f p a) as [p1 |] eqn:E; simpl; [| done].
  intros H Hwf. eapply IH; [done |]. by eapply Hf.
Qed.

Lemma makeAromatic_wellFormed (c : nat) p ab p' :
  makeAromatic p ab = Ok p' →
  Forall (wellFormedBelow c) (map groups (molecules p)) →
  Forall (wellFormedBelow c) (map groups (molecules p')).
Proof.
  assert (Hupd : ∀ id bi,
            Forall (wellFormedBelow c) (map groups (molecules p)) →
            Forall (wellFormedBelow c)
              (map groups (updateGroup (molecules p) id
                             (λ g, setBonds g (alter (setBondType Aromatic) bi (bonds g)))))).
  { intros id bi Hwf. apply updateGroup_wellFormed; [done |].
    intros m g Hm Hg. rewrite Forall_fmap, Forall_forall in Hwf.
    destruct (proj2 (proj2 (Hwf m Hm)) _ _ Hg) as [HID Hd]. split; [done |]. simpl.
    apply Forall_forall, Forall_alter; [by apply Forall_forall |].
    intros b _ Hb. exact Hb. }
  unfold makeAromatic. intros H Hwf. ok_inv H; subst; simpl; by apply Hupd.
Qed.

Lemma resolveRing_wellFormed (c : nat) mi p rid p' :
  resolveRing mi p rid = Ok p' →
  Forall (wellFormedBelow c) (map groups (molecules p)) →
  Forall (wellFormedBelow c) (map groups (molecules p')).
Proof.
  unfold resolveRing. intros H Hwf.
  destruct (molecules p !! mi) as [mol |] eqn:Hmol; cbn [fromOption rbind] in H; [| done].
  destruct (findRing (ps_rings p) rid) as [ring |]; cbn [fromOption rbind] in H; [| done].
  destruct (end_ ring) as [e |]; cbn [fromOption rbind] in H; [| done].
  destruct (pathfind _ _ _ _) as [found |]; cbn [rbind] in H; [| done].
  destruct (longestPath found) as [path |]; cbn [fromOption rbind] in H; [| done].
  destruct (traceBondPath _ _ _) as [ms |]; cbn [rbind] in H; [| done].
  set (p1 := setPsRings p (updateRing (ps_rings p) rid (setMembers ms))) in *.
  destruct (checkCase p1 ms); cbn [rbind] in H; [| done].
  destruct (default false (isAromatic ring)); [| by injection H as <-].
  destruct (head ms ≫= groupMapGet p1) as [first |]; cbn [fromOption rbind] in H; [| done].
  destruct (isLowercase first).
  - eapply wellFormed_foldR in H; [done | apply makeAromatic_wellFormed | done].
  - ok_inv H. by subst.
Qed.

Lemma resolveRings_wellFormed (c : nat) p p' :
  resolveRings p = Ok p' →
  Forall (wellFormedBelow c) (map groups (molecules p)) →
  Forall (wellFormedBelow c) (map groups (molecules p')).
Proof.
  unfold resolveRings. apply wellFormed_foldR. intros q mi q' H.
  destruct (molecules q !! mi) as [mol |]; cbn [fromOption rbind] in H; [| done].
  eapply wellFormed_foldR; [apply resolveRing_wellFormed | done].
Qed.

Lemma addAllImplicitHydrogens_wellFormed env env' :
  addAllImplicitHydrogens env = Ok env' → wellFormedState env → wellFormedState env'.
Proof.
  unfold addAllImplicitHydrogens. generalize (seq 0 (length (molecules (ps env)))).
  intros l. revert env. induction l as [| mi l IH]; intros env; simpl; [by intros [= <-] |].
  destruct (molecules (ps env) !! mi) as [mol |] eqn:Hmol; cbn [fromOption rbind]; [| done].
  intros H Hwf.
  assert (Hmolwf : wellFormedBelow (nextGroupID env) (groups mol)).
  { unfold wellFormedState in Hwf. rewrite Forall_fmap, Forall_forall in Hwf.
    apply Hwf. by eapply list_elem_of_lookup_2. }
  destruct (addImplicitHydrogens_loop data_vars.organicSubset (JSObj.keys (groups mol))
              (nextGroupID env) mol Hmolwf) as (c' & m' & Hadd & Hc & Hwf' & _).
  { apply key_elem_get. }
  unfold addImplicitHydrogens in H. rewrite Hadd in H. cbn [rbind fst snd] in H.
  apply IH in H; [done |]. unfold wellFormedState in *. simpl.
  rewrite list_fmap_insert. apply Forall_insert; [| done].
  eapply Forall_impl; [exact Hwf |]. intros gs. by apply wellFormedBelow_mono.
Qed.

Lemma validate_wellFormed s env env' :
  validate s env = Ok env' → wellFormedState env → wellFormedState env'.
Proof.
  unfold validate. intros H Hwf.
  destruct (checkReaction s (ps env)); cbn [rbind] in H; [| done].
  destruct (checkRingsInMolecules (ps env)); cbn [rbind] in H; [| done].
  destruct (foldR (closeRing s) _ (ps env)) as [p1 |] eqn:E1; cbn [rbind] in H; [| done].
  destruct (resolveRings p1) as [p2 |] eqn:E2; cbn [rbind] in H; [| done].
  destruct (checkLowercase p2); cbn [rbind] in H; [| done].
  assert (H2 : wellFormedState (withPS env p2)).
  { unfold wellFormedState in *. simpl.
    eapply resolveRings_wellFormed; [done |].
    eapply wellFormed_foldR; [apply closeRing_wellFormed | done | done]. }
  destruct (opt_addImplicitHydrogens (parseOptions p2)).
  - destruct (addAllImplicitHydrogens (withPS env p2)) as [env3 |] eqn:E3; cbn [rbind] in H;
      [| done].
    apply addAllImplicitHydrogens_wellFormed in E3; [| done].
    ok_inv H; by subst.
  - cbn [rbind] in H. ok_inv H; by subst.
Qed.

Lemma parseWith_wellFormedState opts ids s env :
  parseWith opts ids s = Ok env → wellFormedState env.
Proof.
  intros (env1 & Hloop & Hval)%parseWith_stages.
  apply parseLoop_wellFormed in Hloop.
  2: { unfold wellFormedState. simpl. constructor; [apply wellFormedBelow_nil | constructor]. }
  by apply validate_wellFormed in Hval.
Qed.

Lemma wellFormedBelow_keysMatch (c : nat) (m : Molecule) :
  wellFormedBelow c (groups m) → keysMatch m.
Proof.
  intros Hwf e He. pose proof (elem_get_sorted _ e (proj1 Hwf) He) as Hg.
  by destruct (proj2 (proj2 Hwf) _ _ Hg).
Qed.

(** X18. The groups of a parse result.  In every molecule a successful
    [SMILES.parse] returns, the keys of [groups] are the IDs of the groups
    stored under them, every ID is below the counter of the [Group] class,
    and every bond leads to an ID below that counter: the molecules meet
    what [checkBondCounts] and [addImplicitHydrogens] need. *)
Theorem parse_wellFormed (opts : IParseOptions) (ids : Counters) (s : string) (env : Env) :
  parseWith opts ids s = Ok env →
  ∀ m, m ∈ molecules (ps env) →
       wellFormedBelow (nextGroupID env) (groups m) ∧ keysMatch m.
Proof.
  intros Hwf%parseWith_wellFormedState m Hm.
  unfold wellFormedState in Hwf. rewrite Forall_fmap, Forall_forall in Hwf.
  specialize (Hwf m Hm). split; [done | by eapply wellFormedBelow_keysMatch].
Qed.

Lemma parse_wellFormed_witness :
  Forall keysMatch
    (molecules (ps (match parseWith allEnabled freshCounters "C1CC1" with
                    | Ok env => env
                    | Err _ => stateAfter "C1CC1" 0
                    end))).
Proof.
  apply Forall_forall. intros m Hm.
  destruct (parse_wellFormed allEnabled freshCounters "C1CC1"
              (match parseWith allEnabled freshCounters "C1CC1" with
               | Ok env => env
               | Err _ => stateAfter "C1CC1" 0
               end) ltac:(vm_compute; reflexivity) m Hm) as [_ H].
  exact H.
Defined.

(** ** [getAllBonds] from both ends *)

Lemma elem_of_flat_map {A B} (f : A → list B) (l : list A) (y : B) :
  y ∈ flat_map f l ↔ ∃ x, x ∈ l ∧ y ∈ f x.
Proof.
  rewrite list_elem_of_In, in_flat_map. split; intros (x & Hx & Hy); exists x.
  - by rewrite !list_elem_of_In.
  - by rewrite <- !list_elem_of_In.
Qed.

Lemma elem_of_reversedBonds (a : nat) (entry : nat * list IBond) (b : IBond) :
  b ∈ reversedBonds a entry
  ↔ fst entry ≠ a ∧ dest b = fst entry
    ∧ ∃ b0, b0 ∈ snd entry ∧ dest b0 = a ∧ bond b0 = bond b.
Proof.
  unfold reversedBonds. destruct (Nat.eqb_spec (fst entry) a) as [He | He].
  { split; [by intros ?%elem_of_nil | by intros [? _]]. }
  rewrite elem_of_map. split.
  - intros (b0 & -> & [Hd Hb0]%list_elem_of_filter). simpl. eauto 6.
  - intros (_ & Hd & b0 & Hb0 & Hd0 & Hbond). exists b0. split.
    + destruct b as [t d]. simpl in *. by subst.
    + by apply list_elem_of_filter.
Qed.

(** X19. [getAllBonds] shows every bond from both ends.  On a molecule with
    ascending keys, if [getAllBonds(a)] lists a bond to another group [c]
    of the molecule, then [getAllBonds(c)] lists a bond of the same type
    back to [a]. *)
Theorem getAllBonds_symmetric (m : Molecule) (a : nat) (bs : list IBond) (b : IBond) :
  StronglySorted lt (JSObj.keys (groups m)) →
  getAllBonds m a = Ok bs → b ∈ bs → dest b ≠ a →
  is_Some (JSObj.get (groups m) (dest b)) →
  ∃ bs' b', getAllBonds m (dest b) = Ok bs' ∧ b' ∈ bs' ∧ dest b' = a ∧ bond b' = bond b.
Proof.
  intros Hs Hbs Hb Hne [gc Hgc].
  unfold getAllBonds, allBondsOf in *. rewrite get_bondArrays in *. rewrite Hgc. simpl.
  destruct (JSObj.get (groups m) a) as [ga |] eqn:Hga; simpl in Hbs; [| done].
  injection Hbs as <-. eexists _, (mkBond (bond b) a). split; [done |].
  split; [| done]. apply elem_of_app in Hb as [Hb | Hb].
  - (* a stores the bond: the other end sees it reversed *)
    apply elem_of_app. right. apply elem_of_flat_map.
    exists (a, bonds ga). split.
    + unfold bondArrays. apply elem_of_map. exists (a, ga). split; [done |].
      clear -Hga. induction (groups m) as [| [k g] gs IH]; simpl in *; [done |].
      destruct (Nat.eqb_spec k a) as [-> | ?]; [injection Hga as ->; by left |].
      right. by apply IH.
    + apply elem_of_reversedBonds. simpl. split; [done |]. split; [done |].
      by exists b.
  - (* the other end stores the bond *)
    apply elem_of_flat_map in Hb as ([k l] & Hk & Hb).
    apply elem_of_reversedBonds in Hb as (Hka & Hd & b0 & Hb0 & Hd0 & Hbond).
    simpl in *. unfold bondArrays in Hk. apply elem_of_map in Hk as ([k' g] & [= -> ->] & Hg).
    pose proof (elem_get_sorted _ _ Hs Hg) as Hget. simpl in *.
    rewrite Hd, Hget in Hgc. injection Hgc as <-.
    apply elem_of_app. left. destruct b0 as [t d]. simpl in *. by subst.
Qed.

Lemma getAllBonds_symmetric_witness :
  ∃ bs' b', getAllBonds ethanolSkeleton (dest (mkBond Single 1)) = Ok bs'
            ∧ b' ∈ bs' ∧ dest b' = 0 ∧ bond b' = bond (mkBond Single 1).
Proof.
  apply (getAllBonds_symmetric ethanolSkeleton 0 [mkBond Single 1] (mkBond Single 1)).
  - repeat constructor; lia.
  - reflexivity.
  - by left.
  - simpl. lia.
  - simpl. eauto.
Defined.

(** ** [Molecule.generateSMILES] ends *)

Lemma unhandled_app (l1 l2 : list StackItem) :
  unhandled (l1 ++ l2) = unhandled l1 + unhandled l2.
Proof. unfold unhandled. by rewrite List.filter_app, length_app. Qed.

Lemma unhandled_insert (l : list StackItem) (j : nat) (a b : StackItem) :
  l !! j = Some a → si_handled b = si_handled a →
  unhandled (<[j := b]> l) = unhandled l.
Proof.
  revert j. induction l as [| x l IH]; intros j; [done |].
  destruct j as [| j]; simpl.
  - intros [= ->] Hb. unfold unhandled. simpl. rewrite Hb.
    by destruct (negb (si_handled a)).
  - intros Hj Hb. unfold unhandled in *. simpl. destruct (negb (si_handled x)); simpl;
      by rewrite IH.
Qed.

Lemma unhandled_pushed (i : nat) (bs : list IBond) :
  unhandled (map (λ b, createGenerateSmilesStackItemObject (dest b) (Some i) (Some (bond b))) bs)
  = length bs.
Proof.
  unfold unhandled. induction bs as [| b bs IH]; simpl; [done | by rewrite IH].
Qed.

Lemma insert_last {A} (init : list A) (x y : A) :
  <[length (init ++ [x]) - 1 := y]> (init ++ [x]) = init ++ [y].
Proof.
  rewrite length_app. simpl.
  replace (length init + 1 - 1) with (length init + 0) by lia.
  by rewrite insert_app_r.
Qed.

Lemma generateLoop_fuel (m : Molecule) (showImplicits : bool) (fuel : nat) :
  ∀ s,
    unhandled (gen_stack s) + length (gen_stack s)
    + 2 * list_sum (map (λ k, length (default [] (allBondsOf (bondArrays m) k)))
                      (filter (λ k, k ∉ gen_doneGroups s) (JSObj.keys (groups m)))) ≤ fuel →
    generateLoop fuel m showImplicits s ≠ Err OutOfFuel.
Proof.
  induction fuel as [| fuel IH]; intros [text stack done]; simpl; intros Hfuel.
  { destruct stack; [done | simpl in Hfuel; lia]. }
  unfold generateStep. simpl.
  destruct (last stack) as [item |] eqn:Hlast; [| done].
  apply last_Some in Hlast as [init ->].
  rewrite unhandled_app, length_app in Hfuel. unfold unhandled at 2 in Hfuel.
  simpl in Hfuel. rewrite removelast_last.
  destruct (si_handled item) eqn:Hh; simpl in Hfuel.
  - destruct (si_parent item) as [j |]; simpl.
    + destruct (init !! j) as [parent |] eqn:Hj; simpl; [| done].
      apply IH. simpl. rewrite length_insert.
      rewrite (unhandled_insert init j parent) by done. lia.
    + apply IH. simpl. lia.
  - destruct (JSObj.get (groups m) (si_group item)) as [group |]; simpl; [| done].
    case_bool_decide as Hdone; simpl.
    + apply IH. simpl. rewrite insert_last, unhandled_app, length_app.
      unfold unhandled at 2. simpl. lia.
    + destruct (getAllBonds m (ID group)) as [bs | e] eqn:Hbs; simpl.
      2: { unfold getAllBonds in Hbs. destruct (allBondsOf _ _); [done |].
           by injection Hbs as <-. }
      apply IH. simpl. apply getAllBonds_key in Hbs as [Hkey Hall].
      pose proof (sum_filter_out (λ k, length (default [] (allBondsOf (bondArrays m) k)))
                    (JSObj.keys (groups m)) done (ID group) Hkey Hdone) as Hsum.
      simpl in Hsum. rewrite Hall in Hsum. simpl in Hsum.
      rewrite insert_last, !unhandled_app, !length_app, unhandled_pushed, length_map.
      unfold unhandled. simpl.
      pose proof (length_filter (λ b, dest b ∉ done) (rev bs)) as Hlen.
      rewrite length_rev in Hlen. unfold unhandled in Hfuel. lia.
Qed.

(** X20. [Molecule.generateSMILES] ends: a stack item is handled once and
    popped once, and a group pushes items for its bonds only the first time
    it is handled, so the loop takes at most two turns for the root and for
    every entry of the bond lists. *)
Theorem generateSMILES_terminates (m : Molecule) (showImplicits : bool) :
  Molecule_generateSMILES m showImplicits ≠ Err OutOfFuel.
Proof.
  unfold Molecule_generateSMILES.
  destruct (JSObj.keys (groups m)) as [| root K] eqn:Hkeys; [done |].
  apply generateLoop_fuel. simpl. unfold generateFuel, allBondsMap.
  rewrite sum_allBondsMap, Hkeys, filter_notin_nil. unfold unhandled. simpl. lia.
Qed.

(** ** The rings of a parse result are closed *)

Lemma ringIDsFresh_same env env' :
  map ringID (ps_rings (ps env')) = map ringID (ps_rings (ps env)) →
  nextRingID env' = nextRingID env →
  ringIDsFresh env → ringIDsFresh env'.
Proof. unfold ringIDsFresh. by intros -> ->. Qed.

Lemma markAromatic_ids col (open : list (nat * nat)) :
  ∀ rs rs', foldR (markAromatic col) open rs = Ok rs' → map ringID rs' = map ringID rs.
Proof.
  induction open as [| e open IH]; intros rs rs'; simpl; [by intros [= <-] |].
  destruct (markAromatic col rs e) as [rs1 |] eqn:E; simpl; [| done].
  intros ->%IH. unfold markAromatic in E. ok_inv E; subst. by apply ringID_updateRing.
Qed.

Lemma ringIDsFresh_explicitBond env s loc x :
  explicitBond env s loc = Ok x → ringIDsFresh env → ringIDsFresh (fst x).
Proof.
  unfold explicitBond. intros H. ok_inv H; subst; try done.
  apply ringIDsFresh_same; [| done]. simpl. by eapply markAromatic_ids.
Qed.

Lemma ringIDsFresh_chargeClause env s loc x :
  chargeClause env s loc = Ok x → ringIDsFresh env → ringIDsFresh (fst x).
Proof. unfold chargeClause. intros H. ok_inv H; by subst. Qed.

Lemma ringIDsFresh_inorganicAtom env s d o loc x :
  inorganicAtom env s d o loc = Ok x → ringIDsFresh env → ringIDsFresh (fst x).
Proof. unfold inorganicAtom. intros H. ok_inv H; by subst. Qed.

Lemma ringIDsFresh_organicAtom env s d o loc x :
  organicAtom env s d o loc = Ok x → ringIDsFresh env → ringIDsFresh (fst x).
Proof. unfold organicAtom. intros H. ok_inv H; by subst. Qed.

Lemma ringIDsFresh_bondGroups env a b t x :
  bondGroups env a b t = Ok x → ringIDsFresh env → ringIDsFresh (fst x).
Proof. unfold bondGroups. intros H. ok_inv H; by subst. Qed.

Lemma ringIDsFresh_bonding env s parent loc x :
  bonding env s parent loc = Ok x → ringIDsFresh env → ringIDsFresh (fst x).
Proof.
  unfold bonding. intros H Hf. ok_inv H; subst; simpl; try done;
    by eapply ringIDsFresh_bondGroups.
Qed.

Lemma ringIDsFresh_addToOpenRings env loc env' :
  addToOpenRings env loc = Ok env' → ringIDsFresh env → ringIDsFresh env'.
Proof.
  unfold addToOpenRings. intros H. ok_inv H; subst.
  apply ringIDsFresh_same; [| done]. simpl.
  match goal with
  | E : foldR ?f ?l ?rs = Ok ?rs' |- _ =>
      revert E; generalize rs; generalize l
  end.
  clear. intros l. induction l as [| e l IH]; intros rs; simpl; [by intros [= <-] |].
  destruct (findRing rs (snd e)); simpl; [| done].
  destruct (utils.arrFromBack (groupsChain loc) 1); simpl; [| done].
  intros ->%IH. by apply ringID_updateRing.
Qed.

Lemma ringIDsFresh_ringDigit group env d env' :
  ringDigit group env d = Ok env' → ringIDsFresh env → ringIDsFresh env'.
Proof.
  unfold ringDigit. intros H [Hs Hlt]. ok_inv H; subst.
  - apply (ringIDsFresh_same env); [| done | done]. simpl.
    by apply ringID_updateRing.
  - unfold ringIDsFresh. simpl. rewrite map_app. simpl. split.
    + apply StronglySorted_app_cross; [done | repeat constructor |].
      intros x y Hx ->%list_elem_of_singleton. rewrite Forall_forall in Hlt. by apply Hlt.
    + apply Forall_app. split; [| repeat constructor].
      eapply Forall_impl; [exact Hlt |]. simpl. lia.
Qed.

Lemma ringIDsFresh_ringDigits env s loc x :
  ringDigits_region env s loc = Ok x → ringIDsFresh env → ringIDsFresh (fst x).
Proof.
  unfold ringDigits_region. intros H Hfresh. ok_inv H; subst. simpl.
  match goal with
  | E : foldR (ringDigit ?g) ?l ?e1 = Ok ?e2 |- _ =>
      assert (Hstart : ringIDsFresh e1) by done;
      revert E Hstart; generalize e1; generalize l
  end.
  clear. intros l. induction l as [| d l IH]; intros e1; simpl; [by intros [= <-] |].
  destruct (ringDigit _ e1 d) as [e |] eqn:E; simpl; [| done].
  intros H Hf. eapply IH; [done |]. by eapply ringIDsFresh_ringDigit.
Qed.

Lemma parseLoop_ringIDsFresh fuel s parent d o env loc env' :
  ringIDsFresh env → parseLoop fuel s parent d o env loc = Ok env' → ringIDsFresh env'.
Proof.
  intros HP H. apply (parseLoop_invariant ringIDsFresh) in H as [? _]; try done; clear.
  - intros env s loc x. apply ringIDsFresh_explicitBond.
  - intros env s loc x _. apply ringIDsFresh_chargeClause.
  - intros env s d o loc x _. apply ringIDsFresh_inorganicAtom.
  - intros env s d o loc x. apply ringIDsFresh_organicAtom.
  - intros env s loc x _. apply ringIDsFresh_ringDigits.
  - intros env s parent loc x. apply ringIDsFresh_bonding.
  - intros env loc env'. apply ringIDsFresh_addToOpenRings.
Qed.

Lemma findRing_elem (rs : list Ring) (r : Ring) :
  StronglySorted lt (map ringID rs) → r ∈ rs → findRing rs (ringID r) = Some r.
Proof.
  induction rs as [| x rs IH]; simpl; [by intros _ ?%elem_of_nil |].
  intros [Hs Hall]%StronglySorted_inv [-> | Hr]%elem_of_cons.
  - by rewrite Nat.eqb_refl.
  - destruct (Nat.eqb_spec (ringID x) (ringID r)) as [He | Hne]; [| by apply IH].
    rewrite Forall_forall in Hall. specialize (Hall (ringID r)).
    assert (ringID r ∈ map ringID rs) as Hin%Hall by (apply elem_of_map; eauto). lia.
Qed.

Lemma closeRing_closed s p rid p' :
  closeRing s p rid = Ok p' →
  ps_rings p' = ps_rings p
  ∧ ∃ r e, findRing (ps_rings p) rid = Some r ∧ end_ r = Some e.
Proof.
  unfold closeRing. intros H. ok_inv H; subst. split; [done |]. eauto.
Qed.

Lemma closeRing_fold_closed s (rids : list nat) :
  ∀ p p', foldR (closeRing s) rids p = Ok p' →
          ps_rings p' = ps_rings p
          ∧ ∀ rid, rid ∈ rids → ∃ r e, findRing (ps_rings p) rid = Some r ∧ end_ r = Some e.
Proof.
  induction rids as [| rid rids IH]; intros p p'; simpl.
  { intros [= <-]. split; [done |]. by intros rid ?%elem_of_nil. }
  destruct (closeRing s p rid) as [p1 |] eqn:E; simpl; [| done].
  intros [Hrs Hall]%IH. apply closeRing_closed in E as [Hrs1 Hrid].
  split; [congruence |]. intros rid' [-> | Hin]%elem_of_cons; [done |].
  rewrite <- Hrs1. by apply Hall.
Qed.

Lemma resolveRing_closed mi p rid p' :
  resolveRing mi p rid = Ok p' →
  Forall (λ r, is_Some (end_ r)) (ps_rings p) → Forall (λ r, is_Some (end_ r)) (ps_rings p').
Proof.
  unfold resolveRing. intros H Hall.
  destruct (molecules p !! mi) as [mol |] eqn:Hmol; cbn [fromOption rbind] in H; [| done].
  destruct (findRing (ps_rings p) rid) as [ring |]; cbn [fromOption rbind] in H; [| done].
  destruct (end_ ring) as [e |]; cbn [fromOption rbind] in H; [| done].
  destruct (pathfind _ _ _ _) as [found |]; cbn [rbind] in H; [| done].
  destruct (longestPath found) as [path |]; cbn [fromOption rbind] in H; [| done].
  destruct (traceBondPath _ _ _) as [ms |]; cbn [rbind] in H; [| done].
  set (p1 := setPsRings p (updateRing (ps_rings p) rid (setMembers ms))) in *.
  assert (H1 : Forall (λ r, is_Some (end_ r)) (ps_rings p1)).
  { simpl. unfold updateRing. clear -Hall.
    induction Hall as [| r rs Hr _ IH]; simpl; constructor; [| done].
    by destruct (ringID r =? rid). }
  destruct (checkCase p1 ms); cbn [rbind] in H; [| done].
  destruct (default false (isAromatic ring)); [| by injection H as <-].
  destruct (head ms ≫= groupMapGet p1) as [first |]; cbn [fromOption rbind] in H; [| done].
  destruct (isLowercase first).
  - apply foldR_makeAromatic_rings in H. by rewrite H.
  - ok_inv H. by subst.
Qed.

Lemma closed_foldR {A} (f : ParsedSMILES → A → Result ParsedSMILES) (l : list A) :
  (∀ p a p', f p a = Ok p' →
             Forall (λ r, is_Some (end_ r)) (ps_rings p) →
             Forall (λ r, is_Some (end_ r)) (ps_rings p')) →
  ∀ p p', foldR f l p = Ok p' →
          Forall (λ r, is_Some (end_ r)) (ps_rings p) →
          Forall (λ r, is_Some (end_ r)) (ps_rings p').
Proof.
  intros Hf. induction l as [| a l IH]; intros p p'; simpl; [by intros [= <-] |].
  destruct (f p a) as [p1 |] eqn:E; simpl; [| done].
  intros H Hall. eapply IH; [done |]. by eapply Hf.
Qed.

Lemma resolveRings_closed p p' :
  resolveRings p = Ok p' →
  Forall (λ r, is_Some (end_ r)) (ps_rings p) → Forall (λ r, is_Some (end_ r)) (ps_rings p').
Proof.
  unfold resolveRings. apply closed_foldR. intros q mi q' H.
  destruct (molecules q !! mi) as [mol |]; cbn [fromOption rbind] in H; [| done].
  eapply closed_foldR; [apply resolveRing_closed | done].
Qed.

Lemma addAllImplicitHydrogens_rings env env' :
  addAllImplicitHydrogens env = Ok env' →
  ps_rings (ps env') = ps_rings (ps env) ∧ nextRingID env' = nextRingID env.
Proof.
  unfold addAllImplicitHydrogens. generalize (seq 0 (length (molecules (ps env)))).
  intros l. revert env. induction l as [| mi l IH]; intros env; simpl; [by intros [= <-] |].
  destruct (molecules (ps env) !! mi) as [mol |]; cbn [fromOption rbind]; [| done].
  destruct (addImplicitHydrogens _ _ mol) as [r |]; cbn [rbind]; [| done].
  by intros [-> ->]%IH.
Qed.

(** X21. Every ring of a parse result is closed.  After a successful
    [SMILES.parse] every ring has its end set, the ring IDs are distinct,
    ascending in the order the rings were opened, and below the counter of
    the [Ring] class. *)
Theorem parse_rings_closed (opts : IParseOptions) (ids : Counters) (s : string) (env : Env) :
  parseWith opts ids s = Ok env →
  Forall (λ r, is_Some (end_ r)) (ps_rings (ps env))
  ∧ StronglySorted lt (map ringID (ps_rings (ps env)))
  ∧ Forall (λ r, ringID r < nextRingID env) (ps_rings (ps env)).
Proof.
  intros (env1 & Hloop & Hval)%parseWith_stages.
  apply parseLoop_ringIDsFresh in Hloop as [Hs Hlt].
  2: { split; simpl; constructor. }
  unfold validate in Hval.
  destruct (checkReaction s (ps env1)); cbn [rbind] in Hval; [| done].
  destruct (checkRingsInMolecules (ps env1)); cbn [rbind] in Hval; [| done].
  destruct (foldR (closeRing s) _ (ps env1)) as [p1 |] eqn:E1; cbn [rbind] in Hval; [| done].
  destruct (resolveRings p1) as [p2 |] eqn:E2; cbn [rbind] in Hval; [| done].
  destruct (checkLowercase p2); cbn [rbind] in Hval; [| done].
  apply closeRing_fold_closed in E1 as [Hrs1 Hclosed].
  assert (H1 : Forall (λ r, is_Some (end_ r)) (ps_rings p1)).
  { rewrite Hrs1. apply Forall_forall. intros r Hr.
    destruct (Hclosed (ringID r)) as (r' & e & Hfind & He).
    { apply elem_of_map. eauto. }
    rewrite (findRing_elem _ r Hs Hr) in Hfind. injection Hfind as <-. eauto. }
  pose proof (resolveRings_closed _ _ E2 H1) as H2.
  destruct (sameShape_resolveRings _ _ E2) as (_ & _ & _ & _ & _ & Hids & _).
  rewrite Hrs1 in Hids.
  assert (Hfinal : ps_rings (ps env) = ps_rings p2 ∧ nextRingID env = nextRingID env1).
  { destruct (opt_addImplicitHydrogens (parseOptions p2)).
    - destruct (addAllImplicitHydrogens (withPS env1 p2)) as [env3 |] eqn:E3;
        cbn [rbind] in Hval; [| done].
      apply addAllImplicitHydrogens_rings in E3 as [? ?]. ok_inv Hval; by subst.
    - cbn [rbind] in Hval. ok_inv Hval; by subst. }
  destruct Hfinal as [-> ->]. rewrite Hids. split; [done |]. split; [done |].
  rewrite <- Hids in Hlt. by rewrite Forall_fmap in Hlt.
Qed.

Lemma parse_rings_closed_witness :
  Forall (λ r, is_Some (end_ r))
    (ps_rings (ps (match parseWith allEnabled freshCounters "C1CC1" with
                   | Ok env => env
                   | Err _ => stateAfter "C1CC1" 0
                   end))).
Proof.
  destruct (parse_rings_closed allEnabled freshCounters "C1CC1"
              (match parseWith allEnabled freshCounters "C1CC1" with
               | Ok env => env
               | Err _ => stateAfter "C1CC1" 0
               end) ltac:(vm_compute; reflexivity)) as [H _].
  exact H.
Defined.

(** ** Bond counts of a parse result *)

Lemma checkAllBondCounts_valid (p : ParsedSMILES) :
  checkAllBondCounts p = Ok tt →
  ∀ m, m ∈ molecules p → checkBondCounts data_vars.organicSubset m = Ok BondsValid.
Proof.
  unfold checkAllBondCounts. induction (molecules p) as [| m0 ms IH]; simpl.
  { by intros _ m ?%elem_of_nil. }
  destruct (checkBondCounts data_vars.organicSubset m0) as [[| g el err] |] eqn:E;
    simpl; [| done | done].
  intros H m [-> | Hm]%elem_of_cons; [done | by apply IH].
Qed.

Lemma validate_checked s env env' :
  validate s env = Ok env' →
  checkBondCount (parseOptions (ps env')) = true →
  checkAllBondCounts (ps env') = Ok tt.
Proof.
  intros H Hopt. destruct (validate_frame _ _ _ H) as (_ & (_ & Ho & _) & _).
  unfold validate in H.
  destruct (checkReaction s (ps env)); cbn [rbind] in H; [| done].
  destruct (checkRingsInMolecules (ps env)); cbn [rbind] in H; [| done].
  destruct (foldR (closeRing s) _ (ps env)) as [p1 |] eqn:E1; cbn [rbind] in H; [| done].
  destruct (resolveRings p1) as [p2 |] eqn:E2; cbn [rbind] in H; [| done].
  destruct (checkLowercase p2); cbn [rbind] in H; [| done].
  assert (Hp2 : parseOptions p2 = parseOptions (ps env)).
  { destruct (sameShape_resolveRings _ _ E2) as (_ & -> & _).
    by destruct (sameShape_foldR _ _ (sameShape_closeRing s) _ _ E1) as (_ & -> & _). }
  rewrite Hp2, <- Ho, Hopt in H.
  destruct (if opt_addImplicitHydrogens _ then _ else _) as [env3 |]; cbn [rbind] in H;
    [| done].
  destruct (checkAllBondCounts (ps env3)) as [[] |] eqn:E; cbn [rbind] in H; [| done].
  by injection H as <-.
Qed.

(** X22. Bond counts of a parse result.  After a successful [SMILES.parse]
    with [checkBondCount] on, [checkBondCounts] returns [true] on every
    molecule of the result, and no neutral, non-radical atom of the organic
    subset has a bond weight outside the valences of its element. *)
Theorem parse_bond_counts (opts : IParseOptions) (ids : Counters) (s : string) (env : Env) :
  parseWith opts ids s = Ok env →
  checkBondCount opts = true →
  ∀ m, m ∈ molecules (ps env) →
       checkBondCounts data_vars.organicSubset m = Ok BondsValid
       ∧ ∀ e, e ∈ groups m → ¬ violates data_vars.organicSubset m (snd e).
Proof.
  intros Hparse Hopt m Hm.
  pose proof (parseWith_wellFormedState _ _ _ _ Hparse) as Hwf.
  destruct (parseWith_stages _ _ _ _ Hparse) as (env1 & Hloop & Hval).
  assert (Ho : parseOptions (ps env) = opts).
  { apply (parseLoop_invariant (λ _, True)) in Hloop as [_ (_ & Ho & _)]; try done.
    destruct (validate_frame _ _ _ Hval) as (_ & (_ & Ho' & _) & _). simpl in *. congruence. }
  assert (Hvalid : checkBondCounts data_vars.organicSubset m = Ok BondsValid).
  { apply (checkAllBondCounts_valid (ps env)); [| done].
    eapply validate_checked; [done |]. by rewrite Ho. }
  split; [done |].
  unfold wellFormedState in Hwf. rewrite Forall_fmap, Forall_forall in Hwf.
  pose proof (wellFormedBelow_keysMatch _ _ (Hwf m Hm)) as Hkeys.
  destruct (checkBondCountsFrom_spec data_vars.organicSubset m (groups m))
    as [[_ Hnone] | (before & e & after & el & w & vs & _ & _ & _ & _ & Hbad)].
  - intros el vs Hel. by apply organicSubset_valences in Hel as [? _].
  - intros e He. by apply getBondCount_Ok.
  - done.
  - unfold checkBondCounts in Hvalid. rewrite Hvalid in Hbad. done.
Qed.

Lemma parse_bond_counts_witness :
  Forall (λ m, checkBondCounts data_vars.organicSubset m = Ok BondsValid)
    (molecules (ps (match parseWith allEnabled freshCounters "CCO" with
                    | Ok env => env
                    | Err _ => stateAfter "CCO" 0
                    end))).
Proof.
  apply Forall_forall. intros m Hm.
  destruct (parse_bond_counts allEnabled freshCounters "CCO"
              (match parseWith allEnabled freshCounters "CCO" with
               | Ok env => env
               | Err _ => stateAfter "CCO" 0
               end) ltac:(vm_compute; reflexivity) eq_refl m Hm) as [H _].
  exact H.
Defined.

(** ** [ParsedSMILES.generateSMILES] *)

Lemma append_assoc (s1 s2 s3 : string) : (s1 +:+ s2) +:+ s3 = s1 +:+ (s2 +:+ s3).
Proof.
  induction s1 as [| c s1 IH]; [done |].
  change (String c ((s1 +:+ s2) +:+ s3) = String c (s1 +:+ (s2 +:+ s3))). by rewrite IH.
Qed.

Lemma append_empty (s : string) : s +:+ EmptyString = s.
Proof.
  induction s as [| c s IH]; [done |].
  change (String c (s +:+ EmptyString) = String c s). by rewrite IH.
Qed.

Lemma generateSMILES_from (p : ParsedSMILES) (showImplicits : bool) (ms : list Molecule) :
  reactionIndexes p = [] →
  ∀ (texts : list string) (k : nat) (acc : string),
    Forall2 (λ m t, Molecule_generateSMILES m showImplicits = Ok t) ms texts →
    k + length ms = length (molecules p) →
    foldR (λ text im,
             t ←r Molecule_generateSMILES (snd im) showImplicits ;;
             Ok (text +:+ t
                   +:+ (if fst im <? length (molecules p) - 1 then separator p (fst im)
                        else EmptyString)))
          (imap (λ i, pair (k + i)) ms) acc
    = Ok (acc +:+ join "." texts).
Proof.
  intros Hri. induction ms as [| m ms IH]; intros texts k acc Hall Hlen.
  { apply Forall2_nil_inv_l in Hall as ->. simpl. by rewrite append_empty. }
  apply Forall2_cons_inv_l in Hall as (t & texts' & Ht & Hall & ->).
  simpl in *. rewrite Nat.add_0_r, Ht. simpl.
  assert (Hsep : separator p k = ".") by (unfold separator; by rewrite Hri).
  destruct ms as [| m' ms].
  - apply Forall2_nil_inv_l in Hall as ->. simpl in *.
    rewrite (proj2 (Nat.ltb_ge _ _)) by lia. by rewrite append_empty.
  - rewrite (proj2 (Nat.ltb_lt _ _)) by (simpl in Hlen; lia). rewrite Hsep.
    rewrite (imap_ext _ (λ i, pair (S k + i))); first last.
    { intros i x _. simpl. f_equal. lia. }
    rewrite (IH texts' (S k)); [| done | simpl in *; lia].
    f_equal. destruct texts' as [| t' texts']; [by apply Forall2_nil_inv_r in Hall |].
    simpl. by rewrite !append_assoc.
Qed.

(** X23. Without reaction markers [ParsedSMILES.generateSMILES] writes the
    texts of the molecules, in order, joined by ["."]. *)
Theorem generateSMILES_joined (p : ParsedSMILES) (showImplicits : bool)
    (texts : list string) :
  reactionIndexes p = [] →
  Forall2 (λ m t, Molecule_generateSMILES m showImplicits = Ok t) (molecules p) texts →
  generateSMILES p showImplicits = Ok (join "." texts).
Proof.
  intros Hri Hall. unfold generateSMILES.
  exact (generateSMILES_from p showImplicits (molecules p) Hri texts 0 EmptyString Hall
           eq_refl).
Qed.

Lemma generateSMILES_joined_witness :
  generateSMILES
    (mkParsedSMILES "C.O" bareGraph [0; 1]
       [mkMolecule 0 [(0, atomOf "C" 0 [])] []; mkMolecule 1 [(1, atomOf "O" 1 [])] []]
       [] [] [])
    false
  = Ok (join "." ["C"; "O"]).
Proof.
  apply generateSMILES_joined; [reflexivity |].
  repeat constructor.
Defined.

(** ** [addImplicitHydrogens] twice *)

Lemma addImplicitHydrogens_nothing tbl (keys : list nat) (c : nat) (m : Molecule) :
  wellFormedBelow c (groups m) →
  (∀ k, k ∈ keys → ∃ g, JSObj.get (groups m) k = Some g ∧ hydrogensNeeded tbl m k g = 0) →
  foldR (addImplicitHydrogensTo tbl) keys (c, m) = Ok (c, m).
Proof.
  intros Hwf. induction keys as [| k keys IH]; intros Hall; simpl; [done |].
  destruct (Hall k) as (g & Hg & Hzero); [by left |].
  rewrite (addImplicitHydrogensTo_exact tbl c m k g Hwf Hg), Hzero. simpl.
  rewrite Nat.add_0_r, setGroups_same. apply IH. intros k' Hk'. apply Hall. by right.
Qed.

Lemma find_again (vs : list nat) (w n : nat) :
  List.find (λ n', w <=? 2 * n') vs = Some n →
  List.find (λ n', 2 * n <=? 2 * n') vs = Some n.
Proof.
  induction vs as [| v vs IH]; cbn [List.find]; [done |].
  destruct (Nat.leb_spec w (2 * v)) as [Hle | Hgt].
  - intros [= ->]. by rewrite Nat.leb_refl.
  - intros Hfind. destruct (find_first_valence vs w n Hfind) as (_ & Hwn & _).
    rewrite (proj2 (Nat.leb_gt (2 * n) (2 * v))) by lia. by apply IH.
Qed.

(** X24. Hydrogens are added once.  On a molecule with ascending keys,
    every group under its ID and every ID below the counter, where every
    atom the valence rules apply to has a whole weight and hydrogen is not
    in the table of valences: a second [addImplicitHydrogens], run on the
    result of the first, creates no group and changes nothing. *)
Theorem addImplicitHydrogens_twice tbl (c c' : nat) (m m' : Molecule) :
  wellFormedBelow c (groups m) →
  assoc tbl "H" = None →
  (∀ k g w, JSObj.get (groups m) k = Some g → eligible tbl g →
            getBondCount m k = Ok w → Nat.Even w) →
  addImplicitHydrogens tbl c m = Ok (c', m') →
  addImplicitHydrogens tbl c' m' = Ok (c', m').
Proof.
  intros Hwf HH Heven Hfirst. unfold addImplicitHydrogens in *.
  destruct (addImplicitHydrogens_exact tbl (JSObj.keys (groups m)) c m Hwf)
    as (c1 & m1 & Hfold & Hc' & Hwf' & Hframe & Hin & Hout & Hnew).
  { apply sorted_NoDup, Hwf. }
  { apply key_elem_get. }
  rewrite Hfold in Hfirst. injection Hfirst as <- <-.
  apply addImplicitHydrogens_nothing; [done |].
  intros k Hk. destruct (key_elem_get _ _ Hk) as [g' Hg']. exists g'. split; [done |].
  destruct (Nat.lt_ge_cases k c) as [Hlt | Hge].
  2: { destruct (Hnew _ _ Hge Hg') as [d ->]. unfold hydrogensNeeded, inOrganicSubset.
       simpl. rewrite HH. by destruct (bool_decide _ && true). }
  destruct (JSObj.get (groups m) k) as [g |] eqn:Hg.
  2: { rewrite Hframe in Hg'; [congruence | | done].
       intros Hk'%key_elem_get. rewrite Hg in Hk'. by destruct Hk'. }
  destruct (Hout _ g (get_key_elem _ _ _ Hg) Hg) as [first Hfirst].
  rewrite Hg' in Hfirst. injection Hfirst as ->.
  assert (Hsingles : ∀ l, sumBonds (map (mkBond Single) l) = 2 * length l).
  { induction l as [| x l IHl]; [done |]. simpl map. rewrite sumBonds_cons, IHl. simpl. lia. }
  unfold hydrogensNeeded at 1. cbn [bonds isRadical charge setBonds].
  change (inOrganicSubset tbl (setBonds g _)) with (inOrganicSubset tbl g).
  change (firstElement (setBonds g _)) with (firstElement g).
  rewrite Hin by done. rewrite sumBonds_app, Hsingles, length_seq.
  set (w := sumBonds (bonds g) + incoming k (groups m)).
  destruct (negb (isRadical g) && inOrganicSubset tbl g && (charge g =? 0)%Z) eqn:Eel;
    [| done].
  apply andb_true_iff in Eel as [[Hr%negb_true_iff Ho]%andb_true_iff Hch%Z.eqb_eq].
  destruct (inOrganicSubset_valences tbl g Ho) as (el & vs & Hel & Hvs & _).
  rewrite Hel. change (Some el ≫= assoc tbl) with (assoc tbl el). rewrite Hvs.
  assert (Hw : Nat.Even w).
  { apply (Heven k g w Hg); [done | by apply getBondCount_sum]. }
  assert (Hneeded : hydrogensNeeded tbl m k g
                    = match List.find (λ n, w <=? 2 * n) vs with
                      | Some n => hydrogenRuns (2 * n - w)
                      | None => 0
                      end).
  { unfold hydrogensNeeded. fold w. rewrite Hr, Ho, Hch, Hel.
    change (Some el ≫= assoc tbl) with (assoc tbl el). by rewrite Hvs. }
  rewrite Hneeded.
  destruct (List.find (λ n, w <=? 2 * n) vs) as [n |] eqn:Efind.
  - destruct (find_first_valence vs w n Efind) as (_ & Hwn & _).
    assert (Hruns : 2 * hydrogenRuns (2 * n - w) = 2 * n - w).
    { apply hydrogenRuns_even. destruct Hw as [j Hj]. exists (n - j). lia. }
    assert (Hw' : sumBonds (bonds g) + 2 * hydrogenRuns (2 * n - w) + incoming k (groups m)
                  = 2 * n) by (unfold w in *; lia).
    rewrite Hw', (find_again vs w n Efind), Nat.sub_diag. done.
  - assert (Hw' : sumBonds (bonds g) + 2 * 0 + incoming k (groups m) = w)
      by (unfold w; lia).
    rewrite Hw', Efind. done.
Qed.

Lemma addImplicitHydrogens_twice_witness :
  addImplicitHydrogens data_vars.organicSubset 9
    (snd (match addImplicitHydrogens data_vars.organicSubset 3 ethanolSkeleton with
          | Ok r => r
          | Err _ => (9, ethanolSkeleton)
          end))
  = Ok (9, snd (match addImplicitHydrogens data_vars.organicSubset 3 ethanolSkeleton with
                 | Ok r => r
                 | Err _ => (9, ethanolSkeleton)
                 end)).
Proof.
  apply (addImplicitHydrogens_twice data_vars.organicSubset 3 9 ethanolSkeleton).
  - apply wellFormedBelow_small; vm_compute; repeat constructor; lia.
  - reflexivity.
  - intros k g w Hg.
    assert (Hk : k = 0 ∨ k = 1 ∨ k = 2).
    { apply get_key_elem in Hg. apply list_elem_of_In in Hg. simpl in Hg.
      destruct Hg as [<- | [<- | [<- | []]]]; auto. }
    destruct Hk as [-> | [-> | ->]]; injection Hg as <-; intros _ [= <-].
    + exists 1. reflexivity.
    + exists 2. reflexivity.
    + exists 1. reflexivity.
  - vm_compute. reflexivity.
Defined.
